(** * OneTable [Table.js]: a shallow embedding and its verified properties

    The development follows the layout of [src/Table.js]:
    - [Js]: the fragment of JavaScript behaviour shared by all methods
      (completions, truthiness of optional strings, the properties every
      object inherits);
    - [TableDefinition], [TableLayout]: [Table.createTable], the index/table
      definition builder;
    - [Value]: the data carried by items, commands and results;
    - [Dispatch], [Observe]: [Table.execute], [Table.batchGet],
      [Table.batchWrite];
    - [Cipher]: [Table.initCrypto], [Table.encrypt], [Table.decrypt];
    - [Marshall]: [Table.marshallv2], [Table.unmarshallv2];
    - [Merge], [MergeCopy]: [Table.mergeOne], [Table.merge];
    - [Tables]: [Table.deleteTable], [Table.describeTable], [Table.listTables],
      [Table.exists];
    - [Transact]: [Table.transact];
    - [Template]: [Table.getVars];
    - [Grouping]: [Table.groupByType].

    Definitions come first, the theorems about them afterwards. *)

From Stdlib Require Import ZArith String Ascii List Bool Lia.
From stdpp Require Import base option strings pretty gmap list.

#[local] Set Warnings "-register-all".

(* ===================================================================== *)
(** * Part I: definitions                                                 *)
(* ===================================================================== *)

Module Js.

(** What a [throw] statement (or the runtime) can raise in the modelled code.
    [ClientError] is a rejection coming from the DynamoDB client, with its
    [code] and [message] properties; [Error] is what [new Error(message)]
    builds in [Table.js] (it has no [code]); [TypeError] is raised by the
    runtime and [CipherError] by Node's [crypto] module. *)
Inductive exn : Type :=
| Error (message : string)
| TypeError (message : string)
| ClientError (code : option string) (message : string)
| CipherError (message : string).

(** The completion of a method call: a returned value or a raised exception. *)
Inductive completion (A : Type) : Type :=
| Return (a : A)
| Throw (e : exn).

Arguments Return {A} a.
Arguments Throw {A} e.

#[global] Instance completion_ret : MRet completion := fun A a => Return a.

#[global] Instance completion_bind : MBind completion := fun A B f m =>
  match m with
  | Return a => f a
  | Throw e => Throw e
  end.

(** [foldM step l s]: a [for ... of] loop over the snapshot [l] whose body may
    throw; the first exception leaves the loop. *)
Fixpoint foldM {S A : Type} (step : S -> A -> completion S) (l : list A) (s : S)
  : completion S :=
  match l with
  | [] => Return s
  | a :: l' =>
      match step s a with
      | Return s' => foldM step l' s'
      | Throw e => Throw e
      end
  end.

(** Truthiness of a property that is either unset ([undefined]/[null]) or a
    string: only a non-empty string is truthy. *)
Definition truthy (o : option string) : bool :=
  match o with
  | Some s => negb (String.eqb s "")
  | None => false
  end.

(** [a || b] on such properties. *)
Definition or_else (a b : option string) : option string :=
  if truthy a then a else b.

(** The string-keyed properties of [Object.prototype]. An object literal
    such as [{}] has no own properties and still answers to these names:
    each holds a built-in function, except [__proto__], an accessor that
    yields [Object.prototype] itself, so every one of them is truthy. *)
Definition Object_prototype : list string :=
  ["constructor"; "__defineGetter__"; "__defineSetter__"; "hasOwnProperty";
   "__lookupGetter__"; "__lookupSetter__"; "isPrototypeOf"; "propertyIsEnumerable";
   "toString"; "valueOf"; "__proto__"; "toLocaleString"].

(** [name] is found on the prototype of an ordinary object. *)
Definition inherited (name : string) : bool := existsb (String.eqb name) Object_prototype.

(** The double quote character, for messages that embed one. *)
Definition dquote : string := String (ascii_of_nat 34) EmptyString.

(** [part] occurs in [whole]. *)
Definition includes (part whole : string) : Prop :=
  exists before after, whole = before +:+ part +:+ after.

End Js.

Import Js.

(* --------------------------------------------------------------------- *)
(** ** [Table.createTable] (lines 200-294)                                *)
(* --------------------------------------------------------------------- *)

Module TableDefinition.

(** [index.project]: unset, a string such as ['keys'] or ['all'], or an array
    of attribute names. *)
Inductive projection : Type :=
| ProjectUnset
| ProjectName (s : string)
| ProjectList (attrs : list string).

(** An entry of [schema.indexes]. *)
Record Index : Type := {
  hash : option string;
  sort : option string;
  project : projection
}.

(** [if (index.project)]: an array is always truthy, a string when non-empty. *)
Definition project_truthy (p : projection) : bool :=
  match p with
  | ProjectUnset => false
  | ProjectName s => negb (String.eqb s "")
  | ProjectList _ => true
  end.

Record AttributeDefinition : Type := {
  AttributeName : string;
  AttributeType : string
}.

Record KeySchemaElement : Type := {
  KeyAttributeName : option string;
  KeyType : string
}.

(** [params.ProvisionedThroughput], passed through untouched. *)
Record Throughput : Type := {
  ReadCapacityUnits : Z;
  WriteCapacityUnits : Z
}.

(** [projDef], an element of [LocalSecondaryIndexes]/[GlobalSecondaryIndexes]. *)
Record SecondaryIndex : Type := {
  IndexName : string;
  IndexKeySchema : list KeySchemaElement;
  ProjectionType : string;
  NonKeyAttributes : option (list string);
  IndexProvisionedThroughput : option Throughput
}.

(** The value of [def] when it is handed to the client. A collection that
    was deleted from [def] is [None]. *)
Record TableDef : Type := {
  AttributeDefinitions : list AttributeDefinition;
  KeySchema : list KeySchemaElement;
  LocalSecondaryIndexes : option (list SecondaryIndex);
  GlobalSecondaryIndexes : option (list SecondaryIndex);
  TableName : string;
  ProvisionedThroughput : option Throughput;
  BillingMode : string
}.

(** The mutable part of [def] during the loop of lines 218-277, together
    with the own properties of the local object [attributes] (line 215),
    each of which holds [true]. *)
Record Building : Type := {
  bAttributeDefinitions : list AttributeDefinition;
  bKeySchema : list KeySchemaElement;
  bLocal : list SecondaryIndex;
  bGlobal : list SecondaryIndex;
  attributes : gset string
}.

Definition start : Building :=
  {| bAttributeDefinitions := []; bKeySchema := []; bLocal := []; bGlobal := [];
     attributes := ∅ |}.

(** [Object.entries(indexes)] is an association list in property order;
    [indexes.primary] reads the property named ['primary']. *)
Fixpoint property (name : string) (indexes : list (string * Index)) : option Index :=
  match indexes with
  | [] => None
  | (n, i) :: rest => if String.eqb n name then Some i else property name rest
  end.

(** [indexes.primary.hash]: a [TypeError] when there is no primary index. *)
Definition primary_hash (indexes : list (string * Index)) : completion (option string) :=
  match property "primary" indexes with
  | Some p => Return (hash p)
  | None => Throw (TypeError "Cannot read properties of undefined (reading 'hash')")
  end.

(** Line 223: [index.hash == null || index.hash == indexes.primary.hash]. *)
Definition is_local (indexes : list (string * Index)) (index : Index) : completion bool :=
  match hash index with
  | None => Return true
  | Some h =>
      ph ← primary_hash indexes;
      Return (bool_decide (Some h = ph))
  end.

(** Lines 233-240. *)
Definition projection_type (p : projection) : string :=
  match p with
  | ProjectList _ => "INCLUDE"
  | ProjectName s => if String.eqb s "keys" then "KEYS_ONLY" else "ALL"
  | ProjectUnset => "ALL"
  end.

Definition non_key_attributes (p : projection) : option (list string) :=
  match p with
  | ProjectList attrs => Some attrs
  | _ => None
  end.

(** [attributes[a]] as a condition: [attributes] starts as [{}], so the
    names of [Object.prototype] are found on it from the start. *)
Definition known (a : string) (b : Building) : bool :=
  bool_decide (a ∈ attributes b) || inherited a.

(** Lines 257-263 and 265-271: an attribute is declared when [attributes]
    does not know its name yet. *)
Definition declare (a : string) (b : Building) : Building :=
  if known a b then b
  else {| bAttributeDefinitions :=
            bAttributeDefinitions b ++ [{| AttributeName := a; AttributeType := "S" |}];
          bKeySchema := bKeySchema b; bLocal := bLocal b; bGlobal := bGlobal b;
          attributes := {[a]} ∪ attributes b |}.

Definition declare_if_truthy (o : option string) (b : Building) : Building :=
  match o with
  | Some a => if truthy o then declare a b else b
  | None => b
  end.

(** Where the key schema of the current index goes: [def.KeySchema] for the
    primary index, otherwise a fresh array owned by a [projDef] that was
    pushed on one of the two collections. *)
Inductive target : Type :=
| Primary
| Local
| Global.

(** Lines 220-230. *)
Definition classify (indexes : list (string * Index)) (name : string) (index : Index)
  : completion target :=
  if String.eqb name "primary" then Return Primary
  else
    loc ← is_local indexes index;
    if loc : bool then
      if project_truthy (project index) then Throw (Error "Unwanted project for LSI")
      else Return Local
    else Return Global.

(** The keys pushed by lines 253-256 and 272-275. *)
Definition index_keys (hashName : option string) (index : Index) : list KeySchemaElement :=
  {| KeyAttributeName := hashName; KeyType := "HASH" |} ::
  (if truthy (sort index)
   then [{| KeyAttributeName := sort index; KeyType := "RANGE" |}]
   else []).

(** [keys] is an alias of the array stored in [projDef.KeySchema] (or of
    [def.KeySchema]); the pushes of lines 253 and 272 are therefore visible in
    [def]. The functional model places the keys when it leaves the body. *)
Definition place (t : target) (name : string) (index : Index)
    (keys : list KeySchemaElement) (b : Building) : Building :=
  let projDef :=
    {| IndexName := name; IndexKeySchema := keys;
       ProjectionType := projection_type (project index);
       NonKeyAttributes := non_key_attributes (project index);
       IndexProvisionedThroughput := None |} in
  match t with
  | Primary =>
      {| bAttributeDefinitions := bAttributeDefinitions b;
         bKeySchema := bKeySchema b ++ keys;
         bLocal := bLocal b; bGlobal := bGlobal b; attributes := attributes b |}
  | Local =>
      {| bAttributeDefinitions := bAttributeDefinitions b;
         bKeySchema := bKeySchema b;
         bLocal := bLocal b ++ [projDef]; bGlobal := bGlobal b;
         attributes := attributes b |}
  | Global =>
      {| bAttributeDefinitions := bAttributeDefinitions b;
         bKeySchema := bKeySchema b;
         bLocal := bLocal b; bGlobal := bGlobal b ++ [projDef];
         attributes := attributes b |}
  end.

(** One iteration of the loop at line 218. *)
Definition index_step (indexes : list (string * Index)) (b : Building)
    (entry : string * Index) : completion Building :=
  let '(name, index) := entry in
  t ← classify indexes name index;
  hashName ← (if truthy (hash index) then Return (hash index) else primary_hash indexes);
  let b1 := place t name index (index_keys hashName index) b in
  let b2 := declare_if_truthy (hash index) b1 in
  Return (declare_if_truthy (sort index) b2).

Definition with_throughput (p : Throughput) (i : SecondaryIndex) : SecondaryIndex :=
  {| IndexName := IndexName i; IndexKeySchema := IndexKeySchema i;
     ProjectionType := ProjectionType i; NonKeyAttributes := NonKeyAttributes i;
     IndexProvisionedThroughput := Some p |}.

(** Lines 201-214 and 278-287. *)
Definition finish (tableName : string) (provisioned : option Throughput) (b : Building)
  : TableDef :=
  {| AttributeDefinitions := bAttributeDefinitions b;
     KeySchema := bKeySchema b;
     LocalSecondaryIndexes :=
       match bLocal b with [] => None | l => Some l end;
     GlobalSecondaryIndexes :=
       match bGlobal b with
       | [] => None
       | g => Some (match provisioned with
                    | Some p => map (with_throughput p) g
                    | None => g
                    end)
       end;
     TableName := tableName;
     ProvisionedThroughput := provisioned;
     BillingMode := match provisioned with
                    | Some _ => "PROVISIONED"
                    | None => "PAY_PER_REQUEST"
                    end |}.

(** The definition building part of [createTable] (lines 201-287). *)
Definition buildDefinition (tableName : string) (provisioned : option Throughput)
    (indexes : list (string * Index)) : completion TableDef :=
  b ← foldM (index_step indexes) indexes start;
  Return (finish tableName provisioned b).

(** What a call of [createTable] did: its completion and the definitions that
    were sent to [service.createTable], in order. *)
Record Run (R : Type) : Type := {
  outcome : completion R;
  sent : list TableDef
}.

Arguments outcome {R} r.
Arguments sent {R} r.

(** [createTable]: build [def], then call the client (lines 289-293; both
    client generations receive the same [def]). *)
Definition createTable {R : Type} (service : TableDef -> completion R)
    (tableName : string) (provisioned : option Throughput)
    (indexes : list (string * Index)) : Run R :=
  match buildDefinition tableName provisioned indexes with
  | Throw e => {| outcome := Throw e; sent := [] |}
  | Return def => {| outcome := service def; sent := [def] |}
  end.

(** An index that the code treats as local: not the primary one, and its hash
    is unset or equal to the hash of the primary index. *)
Definition local_index (indexes : list (string * Index)) (name : string) (index : Index)
  : Prop :=
  name ≠ "primary" ∧
  (hash index = None ∨ ∃ p, property "primary" indexes = Some p ∧ hash index = hash p).

(** An attribute name is referenced by a schema when some index has it as
    its hash or sort key. *)
Definition referenced (a : string) (indexes : list (string * Index)) : Prop :=
  ∃ name index, In (name, index) indexes ∧ (hash index = Some a ∨ sort index = Some a).

(** The schemas on which the builder runs to completion: there is a primary
    index, and no index that line 223 classifies as local asks for a
    projection. *)
Definition accepts_entry (indexes : list (string * Index)) (entry : string * Index) : bool :=
  let '(name, index) := entry in
  String.eqb name "primary" ||
  match property "primary" indexes with
  | None => false
  | Some p =>
      negb ((bool_decide (hash index = None) || bool_decide (hash index = hash p))
            && project_truthy (project index))
  end.

Definition valid_schema (indexes : list (string * Index)) : bool :=
  bool_decide (is_Some (property "primary" indexes)) && forallb (accepts_entry indexes) indexes.

(** The entries of [AttributeDefinitions] for one attribute name. *)
Definition entries_for (a : string) (defs : list AttributeDefinition) : list AttributeDefinition :=
  filter (fun d => AttributeName d = a) defs.

(** The invariant of the loop, for the attribute definitions: the declared
    names are distinct, [attributes] holds exactly these names, and they are
    the non-empty hash and sort keys of the indexes seen so far, those that
    [Object.prototype] also has left out. *)

Definition names (b : Building) : list string := map AttributeName (bAttributeDefinitions b).

Definition declared_by (seen : list (string * Index)) (a : string) : Prop :=
  a <> "" /\ inherited a = false /\ referenced a seen.

(** The attribute names in the key schemas built so far. *)
Definition building_keys (b : Building) : list (option string) :=
  map KeyAttributeName
    (bKeySchema b ++ flat_map IndexKeySchema (bLocal b) ++ flat_map IndexKeySchema (bGlobal b)).

(** The attribute names in the key schemas of a definition: the one of the
    table and those of its secondary indexes. *)
Definition key_names (def : TableDef) : list (option string) :=
  map KeyAttributeName
    (KeySchema def ++
     flat_map IndexKeySchema (default [] (LocalSecondaryIndexes def)) ++
     flat_map IndexKeySchema (default [] (GlobalSecondaryIndexes def))).

Record attributes_inv (seen : list (string * Index)) (b : Building) : Prop := {
  inv_nodup : NoDup (names b);
  inv_set : forall a, a ∈ attributes b <-> a ∈ names b;
  inv_names : forall a, a ∈ names b <-> declared_by seen a
}.

(** A schema with a local index that projects attributes, and one without. *)
Definition rejected_schema : list (string * Index) :=
  [("primary", {| hash := Some "pk"; sort := Some "sk"; project := ProjectUnset |});
   ("ls1", {| hash := None; sort := Some "name"; project := ProjectList ["email"] |})].

Definition sample_schema : list (string * Index) :=
  [("primary", {| hash := Some "pk"; sort := Some "sk"; project := ProjectUnset |});
   ("gs1", {| hash := Some "gs1pk"; sort := Some "sk"; project := ProjectName "keys" |});
   ("ls1", {| hash := Some "pk"; sort := Some "gs1pk"; project := ProjectUnset |})].

(** The schema of the end-to-end scenario: a primary index on [pk]/[sk]
    and an index [gs1] on [gsiPk] that projects the keys only. *)
Definition scenario_schema : list (string * Index) :=
  [("primary", {| hash := Some "pk"; sort := Some "sk"; project := ProjectUnset |});
   ("gs1", {| hash := Some "gsiPk"; sort := None; project := ProjectName "keys" |})].

(** A table whose partition key is an attribute named [constructor]. *)
Definition constructor_schema : list (string * Index) :=
  [("primary", {| hash := Some "constructor"; sort := Some "sk"; project := ProjectUnset |})].

End TableDefinition.

(* --------------------------------------------------------------------- *)
(** ** JavaScript values carried by commands, results and items           *)
(* --------------------------------------------------------------------- *)

Module Value.

(** Immutable values: the data carried by items, commands and results. An
    object is the list of its own enumerable properties in the order
    [Object.entries] reports them, and its prototype is [Object.prototype];
    it is an ordinary, extensible object whose properties hold data (no
    accessor, no function);
    [VBinary] is a [Uint8Array]; a number is an integer. Values are trees: two
    occurrences of an object are two objects. *)
Inductive value : Type :=
| VUndefined
| VNull
| VBool (b : bool)
| VNumber (n : Z)
| VString (s : string)
| VBinary (bytes : list Byte.byte)
| VArray (elems : list value)
| VSet (elems : list value)
| VObject (props : list (string * value)).

(** [if (v)]. *)
Definition truthy_value (v : value) : bool :=
  match v with
  | VUndefined | VNull => false
  | VBool b => b
  | VNumber n => negb (n =? 0)%Z
  | VString s => negb (String.eqb s "")
  | _ => true
  end.

(** [typeof v == 'object']: [null] and every object. *)
Definition typeof_object (v : value) : bool :=
  match v with
  | VNull | VBinary _ | VArray _ | VSet _ | VObject _ => true
  | _ => false
  end.

(** [o[key]] on the own properties of an object. *)
Fixpoint get_prop (key : string) (props : list (string * value)) : value :=
  match props with
  | [] => VUndefined
  | (k, v) :: rest => if String.eqb k key then v else get_prop key rest
  end.

(** [o[key] = v]: an existing property keeps its place, a new one comes last. *)
Fixpoint set_prop (key : string) (v : value) (props : list (string * value))
  : list (string * value) :=
  match props with
  | [] => [(key, v)]
  | (k, w) :: rest =>
      if String.eqb k key then (k, v) :: rest else (k, w) :: set_prop key v rest
  end.

(** [key] is an own property. *)
Definition has_own (key : string) (props : list (string * value)) : bool :=
  existsb (fun e => String.eqb (fst e) key) props.

(** [pieces.join(',')]. *)
Fixpoint join (pieces : list string) : string :=
  match pieces with
  | [] => ""
  | [piece] => piece
  | piece :: rest => piece +:+ "," +:+ join rest
  end.

(** The string an object is converted to where a primitive is wanted
    ([String(v)], and the operand of [==] against a string). An array joins
    the strings of its elements, [undefined] and [null] counting as empty; a
    typed array joins its numbers; a [Set] and a plain object print their
    class, through [Object.prototype.toString]; but an own property
    [toString] hides that method, and since no value of the model is callable
    the conversion then has no method left and raises a [TypeError]. *)
Fixpoint to_string (v : value) : completion string :=
  match v with
  | VUndefined => Return "undefined"
  | VNull => Return "null"
  | VBool b => Return (if b then "true" else "false")
  | VNumber n => Return (pretty n)
  | VString s => Return s
  | VBinary bytes => Return (join (map (fun b => pretty (Byte.to_N b)) bytes))
  | VArray elems =>
      pieces ← (fix each (l : list value) : completion (list string) :=
                  match l with
                  | [] => Return []
                  | e :: rest =>
                      piece ← match e with
                              | VUndefined | VNull => Return ""
                              | _ => to_string e
                              end;
                      pieces ← each rest;
                      Return (piece :: pieces)
                  end) elems;
      Return (join pieces)
  | VSet _ => Return "[object Set]"
  | VObject props =>
      if has_own "toString" props
      then Throw (TypeError "Cannot convert object to primitive value")
      else Return "[object Object]"
  end.

(** [v == word] for a string [word] that does not spell a number (the code
    compares with 'Set' and 'Binary'): a string is compared as it is, an
    object through the string it converts to, and [undefined], [null], the
    booleans and the numbers are never equal to such a word. *)
Definition loosely_equals (word : string) (v : value) : completion bool :=
  match v with
  | VString s => Return (String.eqb s word)
  | VUndefined | VNull | VBool _ | VNumber _ => Return false
  | _ => s ← to_string v; Return (String.eqb s word)
  end.

End Value.

Import Value.

(* --------------------------------------------------------------------- *)
(** ** [Table.execute], [Table.batchGet], [Table.batchWrite] (lines 439-520) *)
(* --------------------------------------------------------------------- *)

Module Dispatch.

(** Lines 17-28. *)
Definition DocumentClientMethods : list (string * string) :=
  [("delete", "delete"); ("get", "get"); ("find", "query"); ("put", "put");
   ("scan", "scan"); ("update", "update"); ("batchGet", "batchGet");
   ("batchWrite", "batchWrite"); ("transactGet", "transactGet");
   ("transactWrite", "transactWrite")].

(** Lines 53-64. *)
Definition DynamoOps : list (string * string) :=
  [("delete", "deleteItem"); ("get", "getItem"); ("find", "query"); ("put", "putItem");
   ("scan", "scan"); ("update", "updateItem"); ("batchGet", "batchGet");
   ("batchWrite", "batchWrite"); ("transactGet", "transactGet");
   ("transactWrite", "transactWrite")].

Definition GenericModel : string := "_Generic".

Fixpoint table_lookup (key : string) (table : list (string * string)) : option string :=
  match table with
  | [] => None
  | (k, v) :: rest => if String.eqb k key then Some v else table_lookup key rest
  end.

(** [table[key]] for one of the two tables above, which are object literals:
    the string listed under [key], else the member of [Object.prototype] of
    that name, else [undefined]. *)
Inductive member : Type :=
| Listed (s : string)
| Builtin (name : string)
| Missing.

Definition lookup (key : string) (table : list (string * string)) : member :=
  match table_lookup key table with
  | Some s => Listed s
  | None => if inherited key then Builtin key else Missing
  end.

(** The property key a member stands for when it indexes an object: a
    string is itself, [undefined] is 'undefined', [Object.prototype] (the
    member [__proto__]) is '[object Object]', and a built-in function is its
    source text, which Node prints as below ([constructor] is the function
    [Object]). *)
Definition key_of (m : member) : string :=
  match m with
  | Listed s => s
  | Missing => "undefined"
  | Builtin name =>
      if String.eqb name "__proto__" then "[object Object]"
      else "function " +:+ (if String.eqb name "constructor" then "Object" else name)
           +:+ "() { [native code] }"
  end.

(** The per-call options read by the dispatcher and the batch methods. A flag
    is absent or a boolean, [capacity] is absent or a string, and [info] is
    whatever the caller put there ([undefined] when absent). *)
Record Params : Type := {
  throw : option bool;
  log : option bool;
  stats : option bool;
  capacity : option string;
  info : value;
  consistent : option bool;
  parse : option bool
}.

(** The options object [{}]. *)
Definition no_params : Params :=
  {| throw := None; log := None; stats := None; capacity := None; info := VUndefined;
     consistent := None; parse := None |}.

Definition flag_set (f : option bool) : bool :=
  match f with
  | Some true => true
  | _ => false
  end.

(** The part of the table instance that [execute] reads. *)
Record Table : Type := {
  V3 : bool;
  metrics : bool
}.

(** The client: a method is looked up by name and, when present, resolves
    with a result object or rejects with an exception. *)
Definition Client : Type := string -> option (list (string * value) -> completion (list (string * value))).

(** [trace] (line 441), with [trace.err] once the failure was recorded. *)
Record Trace (P : Type) : Type := {
  trace_model : string;
  trace_cmd : list (string * value);
  trace_op : string;
  trace_properties : P;
  trace_err : option exn
}.

Arguments trace_model {P} t.
Arguments trace_cmd {P} t.
Arguments trace_op {P} t.
Arguments trace_properties {P} t.
Arguments trace_err {P} t.

(** What [execute] stores in [params.info] (lines 479-483). *)
Record Info (P : Type) : Type := {
  operation : member;
  args : list (string * value);
  info_properties : P
}.

Arguments operation {P} i.
Arguments args {P} i.
Arguments info_properties {P} i.

(** The observable steps of a dispatch, in the order they happen. *)
Inductive event (P : Type) : Type :=
| Logged (level message : string) (trace : Trace P) (err : option exn)
| ClientCall (method : string) (cmd : list (string * value))
| MetricsAdd (model op : string) (result : list (string * value)) (params : Params).

Arguments Logged {P} level message trace err.
Arguments ClientCall {P} method cmd.
Arguments MetricsAdd {P} model op result params.

Record Run (P A : Type) : Type := {
  outcome : completion A;
  events : list (event P);
  info_written : option (Info P)
}.

Arguments outcome {P A} r.
Arguments events {P A} r.
Arguments info_written {P A} r.

Definition quoted (s : string) : string := dquote +:+ s +:+ dquote.

(** [err.code]. Only an exception coming from the client carries a code. *)
Definition code_of (e : exn) : option string :=
  match e with
  | ClientError code _ => code
  | _ => None
  end.

(** Lines 449-453: the method is [op] itself for the V3 client and
    [DocumentClientMethods[op]] otherwise; a missing table entry makes the
    property key the string ['undefined']. *)
Definition method_name (t : Table) (op : string) : string :=
  if V3 t then op else key_of (lookup op DocumentClientMethods).

Definition answer (client : Client) (method : string) (cmd : list (string * value))
  : completion (list (string * value)) :=
  match client method with
  | Some call => call cmd
  | None => Throw (TypeError "this.client[...] is not a function")
  end.

Definition called {P : Type} (client : Client) (method : string)
    (cmd : list (string * value)) : list (event P) :=
  match client method with
  | Some _ => [ClientCall method cmd]
  | None => []
  end.

(** Lines 444-447: the command as it is sent. *)
Definition prepared (t : Table) (params : Params) (cmd : list (string * value))
  : list (string * value) :=
  if flag_set (stats params) || metrics t
  then set_prop "ReturnItemCollectionMetrics" (VString "SIZE")
         (set_prop "ReturnConsumedCapacity"
            (VString (default "INDEXES" (or_else (capacity params) None))) cmd)
  else cmd.

(** The completion of the client call made by [execute(model, op, cmd, params)]. *)
Definition client_answer (t : Table) (client : Client) (op : string)
    (cmd : list (string * value)) (params : Params) : completion (list (string * value)) :=
  answer client (method_name t op) (prepared t params cmd).

(** The [finally] block (lines 474-478). *)
Definition record_metrics {P : Type} (t : Table) (model op : string)
    (result : option (list (string * value))) (params : Params) : list (event P) :=
  match result with
  | Some r => if metrics t then [MetricsAdd model op r params] else []
  | None => []
  end.

(** Lines 479-483. The test [typeof params.info == 'object'] lets [null]
    through, and the first assignment to a property of [null] raises a
    [TypeError]. *)
Definition write_info {P : Type} (op : string) (cmd : list (string * value))
    (params : Params) (properties : P) : completion (option (Info P)) :=
  if typeof_object (info params) then
    match info params with
    | VNull => Throw (TypeError "Cannot set properties of null (setting 'operation')")
    | _ => Return (Some {| operation := lookup op DynamoOps; args := cmd;
                           info_properties := properties |})
    end
  else Return None.

(** Lines 479-484, reached when the [try] statement completes with [result]. *)
Definition leave {P : Type} (steps : list (event P)) (result : list (string * value))
    (written : completion (option (Info P))) : Run P (list (string * value)) :=
  match written with
  | Return stored => {| outcome := Return result; events := steps; info_written := stored |}
  | Throw e => {| outcome := Throw e; events := steps; info_written := None |}
  end.

(** [execute(model, op, cmd, params, properties)]. *)
Definition execute {P : Type} (t : Table) (client : Client) (model op : string)
    (cmd : list (string * value)) (params : Params) (properties : P)
  : Run P (list (string * value)) :=
  let cmd := prepared t params cmd in
  let trace := {| trace_model := model; trace_cmd := cmd; trace_op := op;
                  trace_properties := properties; trace_err := None |} in
  let entered :=
    Logged (if flag_set (log params) then "info" else "trace")
           ("OneTable " +:+ quoted op +:+ " " +:+ quoted model) trace None in
  let called := called client (method_name t op) cmd in
  match answer client (method_name t op) cmd with
  | Return result =>
      leave (entered :: called ++ record_metrics t model op (Some result) params)
            result (write_info op cmd params properties)
  | Throw err =>
      if bool_decide (throw params = Some false) then
        leave (entered :: called ++ record_metrics t model op (Some []) params)
              [] (write_info op cmd params properties)
      else if bool_decide (code_of err = Some "ConditionalCheckFailedException")
              && String.eqb op "put" then
        {| outcome := Throw (Error ("Conditional create failed for " +:+ dquote +:+ model));
           events := entered :: called ++
                     [Logged "info"
                        ("Conditional check failed " +:+ quoted op +:+ " on " +:+ quoted model)
                        trace (Some err)]
                     ++ record_metrics t model op None params;
           info_written := None |}
      else
        let result := set_prop "Error" (VNumber 1) [] in
        let trace := {| trace_model := model; trace_cmd := cmd; trace_op := op;
                        trace_properties := properties; trace_err := Some err |} in
        {| outcome := Throw err;
           events := entered :: called ++
                     (if bool_decide (log params = Some false) then []
                      else [Logged "error"
                              ("OneTable exception in " +:+ quoted op +:+ " on " +:+ quoted model)
                              trace (Some err)])
                     ++ record_metrics t model op (Some result) params;
           info_written := None |}
  end.

(** The collaborators of the parsing loops: [Table.unmarshall], the
    expression [item[this.typeField]], the schema's [models] table with its
    [uniqueModel], and [Model.transformReadItem]. *)
Record Collaborators (Model : Type) : Type := {
  unmarshall : value -> completion value;
  type_of : value -> completion value;
  models : value -> option Model;
  is_uniqueModel : Model -> bool;
  transformReadItem : Model -> value -> Params -> completion value
}.

Arguments unmarshall {Model} c.
Arguments type_of {Model} c.
Arguments models {Model} c.
Arguments is_uniqueModel {Model} c.
Arguments transformReadItem {Model} c.

(** The characters of a string and the numbers of a typed array, as values. *)
Definition characters (s : string) : list value :=
  map (fun c => VString (String c EmptyString)) (list_ascii_of_string s).

Definition numbers (bytes : list Byte.byte) : list value :=
  map (fun b => VNumber (Z.of_N (Byte.to_N b))) bytes.

(** [Object.values(response)], for a [response] that is truthy: the own
    enumerable properties of an object, the elements of an array or of a
    typed array, the characters of a string; a number, a boolean and a [Set]
    have none. *)
Definition object_values (v : value) : list value :=
  match v with
  | VObject props => map snd props
  | VArray elems => elems
  | VString s => characters s
  | VBinary bytes => numbers bytes
  | _ => []
  end.

(** [for (let item of items)]: arrays, sets, typed arrays and strings are
    iterable, the other values are not. *)
Definition iterate (v : value) : completion (list value) :=
  match v with
  | VArray elems => Return elems
  | VSet elems => Return elems
  | VString s => Return (characters s)
  | VBinary bytes => Return (numbers bytes)
  | _ => Throw (TypeError "items is not iterable")
  end.

(** Lines 502-509: the body of the inner loop of [batchGet]. *)
Definition parse_item {Model : Type} (c : Collaborators Model) (params : Params)
    (result : list value) (item : value) : completion (list value) :=
  item ← unmarshall c item;
  field ← type_of c item;
  let type := if truthy_value field then field else VString "_unknown" in
  match models c type with
  | Some model =>
      if is_uniqueModel c model then Return result
      else
        shaped ← transformReadItem c model item params;
        Return (result ++ [shaped])
  | None => Return result
  end.

Definition parse_group {Model : Type} (c : Collaborators Model) (params : Params)
    (result : list value) (items : value) : completion (list value) :=
  elems ← iterate items;
  foldM (parse_item c params) elems result.

(** Lines 498-512. *)
Definition parse_responses {Model : Type} (c : Collaborators Model) (params : Params)
    (result : list (string * value)) : completion value :=
  let response := get_prop "Responses" result in
  if flag_set (parse params) && truthy_value response then
    parsed ← foldM (parse_group c params) (object_values response) [];
    Return (VArray parsed)
  else Return (VObject result).

(** [batchGet(batch, params)]. The options handed to [execute] are the
    literal [{}]; the caller's [params] travel in the [properties] position. *)
Definition batchGet {Model : Type} (c : Collaborators Model) (t : Table) (client : Client)
    (batch : list (string * value)) (params : Params) : Run Params value :=
  match batch with
  | [] => {| outcome := Return (VArray []); events := []; info_written := None |}
  | _ =>
      let batch := set_prop "ConsistentRead" (VBool (flag_set (consistent params))) batch in
      let run := execute t client GenericModel "batchGet" batch no_params params in
      {| outcome := (result ← outcome run; parse_responses c params result);
         events := events run;
         info_written := info_written run |}
  end.

(** [batchWrite(batch, params)]: [properties] takes its default [{}]. *)
Definition batchWrite (t : Table) (client : Client)
    (batch : list (string * value)) (params : Params)
  : Run (list (string * value)) (list (string * value)) :=
  match batch with
  | [] => {| outcome := Return []; events := []; info_written := None |}
  | _ => execute t client GenericModel "batchWrite" batch params []
  end.

(** Sample inputs: a client that rejects every call with [err], the
    rejection DynamoDB sends for a failed condition, a V2 table with metrics,
    and collaborators that leave items alone. *)
Definition rejecting (err : exn) : Client := fun _ => Some (fun _ => Throw err).

Definition conditional_failure : exn :=
  ClientError (Some "ConditionalCheckFailedException") "The conditional request failed".

Definition throttled : exn :=
  ClientError (Some "ProvisionedThroughputExceededException") "Rate exceeded".

Definition sample_table : Table := {| V3 := false; metrics := true |}.

Definition plain_table : Table := {| V3 := true; metrics := false |}.

Definition quiet : Params :=
  {| throw := Some false; log := Some false; stats := Some true; capacity := Some "TOTAL";
     info := VObject []; consistent := None; parse := Some true |}.

(** The options [{throw: false, info: null}]. *)
Definition null_info : Params :=
  {| throw := Some false; log := None; stats := None; capacity := None;
     info := VNull; consistent := None; parse := None |}.

Definition sample_batch : list (string * value) :=
  [("RequestItems", VObject [("MyTable", VObject [("Keys", VArray [])])])].

Definition identity_collaborators : Collaborators unit :=
  {| unmarshall := fun item => Return item;
     type_of := fun _ => Return VUndefined;
     models := fun _ => None;
     is_uniqueModel := fun _ => false;
     transformReadItem := fun _ item _ => Return item |}.

End Dispatch.

(* --------------------------------------------------------------------- *)
(** ** [Table.initCrypto], [Table.encrypt], [Table.decrypt] (lines 620-666) *)
(* --------------------------------------------------------------------- *)

Module Cipher.

(** Line 38. *)
Definition IV_LENGTH : nat := 16.

(** ['abc'.split(':')]: the fields between the separators; a string without
    separator is its own single field. *)
Fixpoint split (sep : ascii) (s : string) : list string :=
  match s with
  | EmptyString => [EmptyString]
  | String c rest =>
      if Ascii.eqb c sep then EmptyString :: split sep rest
      else match split sep rest with
           | [] => [String c EmptyString]
           | field :: fields => String c field :: fields
           end
  end.

Definition colon : ascii := ascii_of_nat 58.

(** [buffer.toString('hex')]. *)
Definition hex_digit (n : N) : ascii :=
  nth (N.to_nat n) (list_ascii_of_string "0123456789abcdef") (ascii_of_nat 48).

Fixpoint to_hex (bytes : list Byte.byte) : string :=
  match bytes with
  | [] => EmptyString
  | b :: rest =>
      let n := Byte.to_N b in
      String (hex_digit (n / 16)) (String (hex_digit (n mod 16)) (to_hex rest))
  end.

(** [Buffer.from(text, 'hex')]: pairs of hexadecimal digits are decoded until
    the first pair that is not one. *)
Definition hex_value (c : ascii) : option N :=
  let n := N_of_ascii c in
  if ((48 <=? n) && (n <=? 57))%N then Some (n - 48)%N
  else if ((97 <=? n) && (n <=? 102))%N then Some (n - 87)%N
  else if ((65 <=? n) && (n <=? 70))%N then Some (n - 55)%N
  else None.

Fixpoint from_hex (s : string) : list Byte.byte :=
  match s with
  | String c1 (String c2 rest) =>
      match hex_value c1, hex_value c2 with
      | Some h, Some l =>
          match Byte.of_N (16 * h + l) with
          | Some b => b :: from_hex rest
          | None => []
          end
      | _, _ => []
      end
  | _ => []
  end.

(** The functions of Node's [crypto] module, as [Table.js] composes them:
    - [sha256 password]: [createHash('sha256').update(password, 'utf8').digest()];
    - [encipher cipher key iv text]: [createCipheriv(cipher, key, iv)] followed
      by [update(text, 'utf8', 'base64') + final('base64')];
    - [auth_tag cipher key iv text]: [getAuthTag().toString('base64')] of that
      same cipher object;
    - [decipher cipher key iv tag data]: [createDecipheriv(cipher, key, iv)],
      [setAuthTag(Buffer.from(tag, 'base64'))], then
      [update(data, 'base64', 'utf8') + final('utf8')]. *)
Record NodeCrypto : Type := {
  sha256 : string -> list Byte.byte;
  encipher : string -> list Byte.byte -> list Byte.byte -> string -> completion string;
  auth_tag : string -> list Byte.byte -> list Byte.byte -> string -> string;
  decipher : string -> list Byte.byte -> list Byte.byte -> string -> string -> completion string
}.

(** An entry of the [crypto] parameter of the constructor. *)
Record Config : Type := {
  config_cipher : string;
  config_password : string
}.

(** An entry of [this.crypto] once [initCrypto] has run. *)
Record Profile : Type := {
  name : string;
  cipher : string;
  password : string;
  secret : list Byte.byte
}.

(** [initCrypto(crypto)]: every profile gets its [secret] and its own [name]. *)
Definition initCrypto (node : NodeCrypto) (crypto : gmap string Config) : gmap string Profile :=
  map_imap (fun name c =>
    Some {| name := name; cipher := config_cipher c; password := config_password c;
            secret := sha256 node (config_password c) |}) crypto.

(** [this.crypto[name]]. [this.crypto] is the object handed to the
    constructor, an ordinary object: besides the profiles, which are its own
    properties, the members of [Object.prototype] are found on it, and these
    have neither a [cipher] nor a [secret]. *)
Inductive found : Type :=
| Installed (crypto : Profile)
| Inherited
| Absent.

Definition find (profiles : gmap string Profile) (name : string) : found :=
  match profiles !! name with
  | Some crypto => Installed crypto
  | None => if inherited name then Inherited else Absent
  end.

(** What [Crypto.createCipheriv] and [Crypto.createDecipheriv] raise when
    the cipher they are given is [undefined]. *)
Definition no_cipher : exn :=
  TypeError "The cipher argument must be of type string. Received undefined".

(** [crypto.cipher.indexOf('-gcm') > 0]. *)
Definition is_gcm (cipher : string) : bool :=
  match String.index 0 "-gcm" cipher with
  | Some (S _) => true
  | _ => false
  end.

Definition sep : string := String colon EmptyString.

(** [encrypt(text, name)], with the default encodings; [iv] is the value
    drawn by [Crypto.randomBytes(IV_LENGTH)], and an absent [name] takes the
    default ['primary']. *)
Definition encrypt (node : NodeCrypto) (crypto : option (gmap string Profile))
    (iv : list Byte.byte) (text : string) (name : option string) : completion string :=
  if String.eqb text "" then Return text
  else
    match crypto with
    | None => Throw (Error "dynamo: No database secret or cipher defined")
    | Some profiles =>
        let name := default "primary" name in
        match find profiles name with
        | Absent => Throw (Error ("dynamo: Database crypto not defined for " +:+ name))
        | Inherited => Throw no_cipher
        | Installed crypto =>
            crypted ← encipher node (cipher crypto) (secret crypto) iv text;
            let tag :=
              if is_gcm (cipher crypto)
              then auth_tag node (cipher crypto) (secret crypto) iv text
              else "" in
            Return (Cipher.name crypto +:+ sep +:+ tag +:+ sep +:+ to_hex iv +:+ sep +:+ crypted)
        end
    end.

(** [decrypt(text)], with the default encodings. *)
Definition decrypt (node : NodeCrypto) (crypto : option (gmap string Profile))
    (text : string) : completion string :=
  if String.eqb text "" then Return text
  else
    let fields := split colon text in
    let name := fields !! 0%nat in
    let tag := fields !! 1%nat in
    let iv := fields !! 2%nat in
    let data := fields !! 3%nat in
    if negb (truthy data) || negb (truthy iv) || negb (truthy tag) || negb (truthy name)
    then Return text
    else
      match crypto with
      | None => Throw (Error "dynamo: No database secret or cipher defined")
      | Some profiles =>
          let name := default "" name in
          match find profiles name with
          | Absent => Throw (Error ("dynamo: Database crypto not defined for " +:+ name))
          | Inherited => Throw no_cipher
          | Installed crypto =>
              decipher node (cipher crypto) (secret crypto)
                       (from_hex (default "" iv)) (default "" tag) (default "" data)
          end
      end.

(** A string in which the separator does not occur. *)
Fixpoint colon_free (s : string) : bool :=
  match s with
  | EmptyString => true
  | String c rest => negb (Ascii.eqb c colon) && colon_free rest
  end.

(** A stand-in for Node's [crypto], used to run the definitions on concrete
    inputs: the "cipher text" is the hexadecimal form of the plain text, the
    authentication tag is a constant, and deciphering checks the tag of the
    ['-gcm'] ciphers. *)
Definition toy_decipher (cipher : string) (key iv : list Byte.byte) (tag data : string)
  : completion string :=
  if is_gcm cipher && negb (String.eqb tag "dGFn")
  then Throw (CipherError "Unsupported state or unable to authenticate data")
  else Return (string_of_list_byte (from_hex data)).

Definition toy : NodeCrypto :=
  {| sha256 := fun password => list_byte_of_string password;
     encipher := fun _ _ _ text => Return (to_hex (list_byte_of_string text));
     auth_tag := fun _ _ _ _ => "dGFn";
     decipher := toy_decipher |}.

Definition toy_profiles : gmap string Profile :=
  initCrypto toy
    (<["primary" := {| config_cipher := "aes-256-gcm"; config_password := "pw1" |}]>
       (<["legacy" := {| config_cipher := "aes-256-cbc"; config_password := "pw0" |}]> ∅)).

Definition toy_iv : list Byte.byte := repeat Byte.x2a IV_LENGTH.

End Cipher.

(* --------------------------------------------------------------------- *)
(** ** [Table.marshallv2], [Table.unmarshallv2] (lines 721-751)            *)
(* --------------------------------------------------------------------- *)

Module Marshall.

(** Items are objects that the two methods update in place: the store maps
    a reference to the own properties of the object it denotes. The values of
    the properties are immutable (neither method writes inside them). *)
Abbreviation store := (gmap nat (list (string * value))).

(** The built-ins the methods rely on: [this.client.createSet(list)] of the
    V2 document client and [new Uint8Array(v)]; either may raise. *)
Record Builtins : Type := {
  createSet : list value -> completion value;
  Uint8Array : value -> completion value
}.

(** SameValueZero, the equality of [Set] members. Distinct objects are never
    the same value. *)
Definition same_value_zero (a b : value) : bool :=
  match a, b with
  | VUndefined, VUndefined => true
  | VNull, VNull => true
  | VBool x, VBool y => Bool.eqb x y
  | VNumber x, VNumber y => (x =? y)%Z
  | VString x, VString y => String.eqb x y
  | _, _ => false
  end.

Definition set_add (members : list value) (v : value) : list value :=
  if existsb (same_value_zero v) members then members else members ++ [v].

(** [new Set(list)]. *)
Definition new_Set (elems : list value) : value := VSet (foldl set_add [] elems).

(** Line 741: [value != null && typeof value == 'object' &&
    value.wrapperName == 'Set' && Array.isArray(value.values)]; on success the
    array [value.values] is returned. Among the values only a plain object has
    properties of these names; the comparison with 'Set' is the loose one, and
    it may raise. *)
Definition set_wrapper (v : value) : completion (option (list value)) :=
  match v with
  | VObject props =>
      named ← loosely_equals "Set" (get_prop "wrapperName" props);
      if named : bool then
        match get_prop "values" props with
        | VArray elems => Return (Some elems)
        | _ => Return None
        end
      else Return None
  | _ => Return None
  end.

(** [value.type == 'Binary'], for a [value] that passed the test of line 741. *)
Definition binary_typed (v : value) : completion bool :=
  match v with
  | VObject props => loosely_equals "Binary" (get_prop "type" props)
  | _ => Return false
  end.

(** [value instanceof Set]. *)
Definition set_instance (v : value) : option (list value) :=
  match v with
  | VSet elems => Some elems
  | _ => None
  end.

(** [list.map(f)] for an [f] that may raise. *)
Fixpoint map_each {A B : Type} (f : A -> completion B) (l : list A) : completion (list B) :=
  match l with
  | [] => Return []
  | a :: rest =>
      b ← f a;
      bs ← map_each f rest;
      Return (b :: bs)
  end.

(** [item[key] = v], for a [key] reported by [Object.entries(item)]. *)
Definition assign (item : nat) (key : string) (v : value) (h : store) : store :=
  match h !! item with
  | Some props => <[item := set_prop key v props]> h
  | None => h
  end.

(** A [for ... of] loop over a snapshot whose body updates the store and may
    raise; the updates made before an exception stay. *)
Fixpoint each {A : Type} (body : store -> A -> store * completion unit) (l : list A)
    (h : store) : store * completion unit :=
  match l with
  | [] => (h, Return tt)
  | a :: rest =>
      match body h a with
      | (h', Return _) => each body rest h'
      | (h', Throw e) => (h', Throw e)
      end
  end.

(** The body of the loop of [marshallv2] (lines 723-734). *)
Definition marshall_entry (b : Builtins) (item : nat) (h : store) (entry : string * value)
  : store * completion unit :=
  match set_instance (snd entry) with
  | Some elems =>
      match createSet b elems with
      | Return wrapper => (assign item (fst entry) wrapper h, Return tt)
      | Throw e => (h, Throw e)
      end
  | None => (h, Return tt)
  end.

(** Lines 742-746: the members of the [Set] that replaces a wrapper. *)
Definition members_of (b : Builtins) (v : value) (elems : list value)
  : completion (list value) :=
  binary ← binary_typed v;
  if binary : bool then map_each (Uint8Array b) elems else Return elems.

(** The body of the loop of [unmarshallv2] (lines 741-748). *)
Definition unmarshall_entry (b : Builtins) (item : nat) (h : store) (entry : string * value)
  : store * completion unit :=
  match set_wrapper (snd entry) with
  | Return (Some elems) =>
      match members_of b (snd entry) elems with
      | Return members => (assign item (fst entry) (new_Set members) h, Return tt)
      | Throw e => (h, Throw e)
      end
  | Return None => (h, Return tt)
  | Throw e => (h, Throw e)
  end.

(** [marshallv2(item)]: the loop runs over the snapshot taken by
    [Object.entries(item)]; the method returns the reference it was given. *)
Definition marshallv2 (b : Builtins) (h : store) (item : nat) : store * completion nat :=
  match h !! item with
  | Some props =>
      let '(h', r) := each (marshall_entry b item) props h in
      (h', r ≫= fun _ => Return item)
  | None => (h, Throw (TypeError "Cannot convert undefined or null to object"))
  end.

(** [unmarshallv2(item)]. *)
Definition unmarshallv2 (b : Builtins) (h : store) (item : nat) : store * completion nat :=
  match h !! item with
  | Some props =>
      let '(h', r) := each (unmarshall_entry b item) props h in
      (h', r ≫= fun _ => Return item)
  | None => (h, Throw (TypeError "Cannot convert undefined or null to object"))
  end.

(** What the body of each loop does to a property that holds [v]: it stores
    a new value, leaves the property alone, or raises. *)
Definition marshalled (b : Builtins) (v : value) : completion (option value) :=
  match set_instance v with
  | Some elems => wrapper ← createSet b elems; Return (Some wrapper)
  | None => Return None
  end.

Definition unmarshalled (b : Builtins) (v : value) : completion (option value) :=
  wrapper ← set_wrapper v;
  match wrapper with
  | Some elems => members ← members_of b v elems; Return (Some (new_Set members))
  | None => Return None
  end.

(** [o] and [o'] have the same property names, in the same order. *)
Definition same_keys (o o' : list (string * value)) : Prop := map fst o = map fst o'.

(** What a loop that converts the properties one after the other leaves
    behind, and how it ends: the properties after the first exception are
    not reached. *)
Fixpoint rewritten (convert : value -> completion (option value))
    (props : list (string * value)) : list (string * value) * completion unit :=
  match props with
  | [] => ([], Return tt)
  | (key, v) :: rest =>
      match convert v with
      | Return o =>
          let '(rest', r) := rewritten convert rest in
          ((key, default v o) :: rest', r)
      | Throw e => ((key, v) :: rest, Throw e)
      end
  end.

(** Stand-ins for the built-ins, used to run the definitions. *)
Definition toy_builtins : Builtins :=
  {| createSet := fun elems =>
       Return (VObject [("wrapperName", VString "Set"); ("values", VArray elems);
                        ("type", VString "String")]);
     Uint8Array := fun v => Return v |}.

Definition toy_item : list (string * value) :=
  [("id", VString "42");
   ("tags", VSet [VString "a"; VString "b"]);
   ("roles", VObject [("wrapperName", VString "Set");
                      ("values", VArray [VString "x"; VString "x"; VString "y"]);
                      ("type", VString "String")]);
   ("count", VNumber 3)].

(** [toy_item] with its wrapper turned into a [Set]. *)
Definition plain_item : list (string * value) :=
  [("id", VString "42");
   ("tags", VSet [VString "a"; VString "b"]);
   ("roles", VSet [VString "x"; VString "y"]);
   ("count", VNumber 3)].

(** An item with a [Set] and no wrapper. *)
Definition set_item : list (string * value) :=
  [("id", VString "42"); ("tags", VSet [VString "a"; VString "b"]); ("count", VNumber 3)].

(** An item whose wrapper spells its name as a one-element array, and one
    whose [wrapperName] cannot be converted to a string. *)
Definition loose_item : list (string * value) :=
  [("tags", VObject [("wrapperName", VArray [VString "Set"]);
                     ("values", VArray [VNumber 1; VNumber 2])])].

Definition opaque_item : list (string * value) :=
  [("tags", VObject [("wrapperName", VString "Set"); ("values", VArray [VNumber 1])]);
   ("odd", VObject [("wrapperName", VObject [("toString", VNumber 1)]);
                    ("values", VArray [])]);
   ("roles", VObject [("wrapperName", VString "Set"); ("values", VArray [VNumber 2])])].

End Marshall.

(* --------------------------------------------------------------------- *)
(** ** [Table.mergeOne], [Table.merge] (lines 753-791)                     *)
(* --------------------------------------------------------------------- *)

Module Merge.

(** [merge] writes into nested objects and may be handed object graphs with
    sharing and cycles, so objects live in a heap and values refer to them by
    address. *)
Inductive jsval : Type :=
| Undefined
| Null
| Boolean (b : bool)
| Number (n : Z)
| Text (s : string)
| Ref (address : nat).

(** What [instanceof], [Array.isArray] and [typeof] tell about an object:
    a plain object, an array, a [Date], a [RegExp], a function, or another
    built-in such as a [Set] or a [Map]. *)
Inductive kind : Type :=
| Plain
| Array
| Date (time : Z)
| RegExp (source flags : string)
| Callable
| Exotic.

(** An object: its kind and its own enumerable properties, in the order of
    [Object.entries]. The prototype chain is not part of the model: an object
    answers to its own properties only. For a plain object this differs from
    the source in the members of [Object.prototype]: the functions among them,
    which [mergeOne] cannot tell from [undefined] (it asks [Array.isArray] and
    [typeof .. == 'object'] of what it reads, and a write creates an own
    property), and the accessor [__proto__], which yields and replaces the
    prototype. The statements about the properties a merge goes through
    therefore leave the key [__proto__] out. *)
Record object : Type := {
  kind_of : kind;
  props : list (string * jsval)
}.

Abbreviation heap := (list object).

(** A computation on the heap that may raise an exception, and that may stop
    for lack of fuel ([None]). *)
Definition M (A : Type) : Type := heap -> option (heap * completion A).

Definition ret {A : Type} (a : A) : M A := fun h => Some (h, Return a).

Definition raise {A : Type} (e : exn) : M A := fun h => Some (h, Throw e).

Definition bind {A B : Type} (m : M A) (k : A -> M B) : M B := fun h =>
  match m h with
  | None => None
  | Some (h', Return a) => k a h'
  | Some (h', Throw e) => Some (h', Throw e)
  end.

Notation "'do' x <- m ; k" := (bind m (fun x => k))
  (at level 10, x name, m at level 100, k at level 200).
Notation "m ;; k" := (bind m (fun _ => k))
  (at level 100, k at level 200, right associativity).

(** A [for ... of] loop over a snapshot. *)
Fixpoint for_each {A : Type} (body : A -> M unit) (l : list A) : M unit :=
  match l with
  | [] => ret tt
  | a :: rest => body a ;; for_each body rest
  end.

Fixpoint get (key : string) (ps : list (string * jsval)) : jsval :=
  match ps with
  | [] => Undefined
  | (k, v) :: rest => if String.eqb k key then v else get key rest
  end.

Fixpoint set (key : string) (v : jsval) (ps : list (string * jsval))
  : list (string * jsval) :=
  match ps with
  | [] => [(key, v)]
  | (k, w) :: rest => if String.eqb k key then (k, v) :: rest else (k, w) :: set key v rest
  end.

(** [Object.entries(src)]: the own properties of an object, the characters
    of a string, nothing for the other primitives; [undefined] and [null]
    cannot be converted to an object. *)
Definition characters (s : string) : list (string * jsval) :=
  imap (fun i c => (pretty i, Text (String c EmptyString))) (list_ascii_of_string s).

Definition entries (src : jsval) : M (list (string * jsval)) := fun h =>
  match src with
  | Undefined | Null =>
      Some (h, Throw (TypeError "Cannot convert undefined or null to object"))
  | Ref a =>
      match h !! a with
      | Some o => Some (h, Return (props o))
      | None => Some (h, Throw (TypeError "Cannot convert undefined or null to object"))
      end
  | Text s => Some (h, Return (characters s))
  | _ => Some (h, Return [])
  end.

(** [dest[key]] as an expression, on the own properties of [dest]. *)
Definition read (dest : jsval) (key : string) : M jsval := fun h =>
  match dest with
  | Undefined | Null => Some (h, Throw (TypeError "Cannot read properties of undefined or null"))
  | Ref a =>
      match h !! a with
      | Some o => Some (h, Return (get key (props o)))
      | None => Some (h, Throw (TypeError "Cannot read properties of undefined or null"))
      end
  | _ => Some (h, Return Undefined)
  end.

(** [dest[key] = v]. The class body is strict code: writing a property of a
    primitive raises a [TypeError]. *)
Definition write (dest : jsval) (key : string) (v : jsval) : M unit := fun h =>
  match dest with
  | Ref a =>
      match h !! a with
      | Some o =>
          Some (<[a := {| kind_of := kind_of o; props := set key v (props o) |}]> h, Return tt)
      | None => Some (h, Throw (TypeError "Cannot set properties of undefined or null"))
      end
  | _ => Some (h, Throw (TypeError "Cannot set properties of a value that is not an object"))
  end.

(** [new Date(..)], [new RegExp(..)], [[]], [{}]: a fresh object. *)
Definition alloc (k : kind) : M jsval := fun h =>
  Some (h ++ [{| kind_of := k; props := [] |}], Return (Ref (length h))).

Definition kind_at (h : heap) (v : jsval) : option kind :=
  match v with
  | Ref a => kind_of <$> h !! a
  | _ => None
  end.

(** [Array.isArray(v)]. *)
Definition isArray (v : jsval) : M bool := fun h =>
  Some (h, Return (match kind_at h v with Some Array => true | _ => false end)).

(** [typeof v == 'object']: [null] and every object that is not callable. *)
Definition typeof_object (v : jsval) : M bool := fun h =>
  Some (h, Return
    match v with
    | Null => true
    | Ref _ => match kind_at h v with Some Callable => false | _ => true end
    | _ => false
    end).

(** The branch of lines 758-781 that a property value selects. *)
Inductive branch : Type :=
| Skip
| CopyDate (time : Z)
| CopyRegExp (source flags : string)
| IntoArray
| IntoObject
| Store.

Definition select (value : jsval) : M branch := fun h =>
  Some (h, Return
    match value with
    | Undefined => Skip
    | Ref _ =>
        match kind_at h value with
        | Some (Date t) => CopyDate t
        | Some (RegExp s f) => CopyRegExp s f
        | Some Array => IntoArray
        | Some Callable => Store
        | _ => IntoObject
        end
    | _ => Store
    end).

(** One iteration of the loop of [mergeOne] (lines 757-782); [self] is the
    recursive call [this.mergeOne(recurse, _, _)]. *)
Definition merge_entry (self : jsval -> jsval -> M jsval) (dest : jsval)
    (entry : string * jsval) : M unit :=
  let '(key, value) := entry in
  do b <- select value;
  match b with
  | Skip => ret tt
  | CopyDate t =>
      do d <- alloc (Date t);
      write dest key d
  | CopyRegExp s f =>
      do r <- alloc (RegExp s f);
      write dest key r
  | IntoArray =>
      do current <- read dest key;
      do is_array <- isArray current;
      (if is_array : bool then ret tt
       else do fresh <- alloc Array; write dest key fresh) ;;
      do target <- read dest key;
      do merged <- self target value;
      write dest key merged
  | IntoObject =>
      do current <- read dest key;
      do is_object <- typeof_object current;
      (if is_object : bool then ret tt
       else do fresh <- alloc Plain; write dest key fresh) ;;
      do target <- read dest key;
      do merged <- self target value;
      write dest key merged
  | Store => write dest key value
  end.

(** [mergeOne(recurse, dest, src)]. The recursion of the source is on the
    call stack; here it is on [fuel], and [mergeOne_total] shows that the
    guard of line 754 makes 52 units enough whatever the heap. *)
Fixpoint mergeOne (fuel : nat) (recurse : nat) (dest src : jsval) : M jsval :=
  match fuel with
  | O => fun _ => None
  | S fuel' =>
      if 50 <? recurse then raise (Error "Recursive clone")
      else
        let recurse := recurse + 1 in
        do snapshot <- entries src;
        for_each (merge_entry (mergeOne fuel' recurse) dest) snapshot ;;
        ret dest
  end.

(** The number of stack frames [merge] can need. *)
Definition depth_bound : nat := 52.

(** [merge(dest, ...sources)]. *)
Fixpoint merge (dest : jsval) (sources : list jsval) : M jsval :=
  match sources with
  | [] => ret dest
  | src :: rest =>
      do dest <- mergeOne depth_bound 0 dest src;
      merge dest rest
  end.

(** A computation that produces a completion on every heap. *)
Definition total {A : Type} (m : M A) : Prop := forall h, is_Some (m h).

(** A descent of 51 levels in the heap [h], seen from the destination [x]:
    [path 0], ..., [path 51] are plain objects, the first property of each of
    the first 51 is named [key], which is not [__proto__], and holds the next
    one, and [x] is an empty plain object that is none of them. *)
Record descending (path : nat -> nat) (key : string) (x : nat) (h : heap) : Prop := {
  descending_key : key <> "__proto__";
  descending_link : forall i, (i <= 50)%nat ->
    exists rest, h !! path i = Some {| kind_of := Plain;
                                       props := (key, Ref (path (S i))) :: rest |};
  descending_last : kind_at h (Ref (path 51%nat)) = Some Plain;
  descending_dest : h !! x = Some {| kind_of := Plain; props := [] |};
  descending_apart : forall i, (i <= 51)%nat -> path i <> x
}.

(** A heap with a cycle: object 0 is [{}], object 1 is [o = {self: o, n: 1}]. *)
Definition cyclic_heap : heap :=
  [{| kind_of := Plain; props := [] |};
   {| kind_of := Plain; props := [("self", Ref 1); ("n", Number 1)] |}].

(** A heap holding [{}] at address 0 and, from address 1 on, a chain of
    [depth] objects nested in one another through the property [a]. *)
Fixpoint chain (depth : nat) (at_address : nat) : heap :=
  match depth with
  | O => [{| kind_of := Plain; props := [("leaf", Number 0)] |}]
  | S d => {| kind_of := Plain; props := [("a", Ref (S at_address))] |} :: chain d (S at_address)
  end.

Definition nested_heap (depth : nat) : heap :=
  {| kind_of := Plain; props := [] |} :: chain depth 1.

(** The state of the heap while [nested_heap depth] is merged into a fresh
    object: the chain is untouched, and the current destination [x] is an
    empty plain object outside the chain. *)
Record merging (depth : nat) (x : nat) (h : heap) : Prop := {
  merging_chain : forall i, (i <= depth)%nat -> h !! (S i) = chain depth 1 !! i;
  merging_size : (depth + 2 <= length h)%nat;
  merging_dest : h !! x = Some {| kind_of := Plain; props := [] |};
  merging_outside : x = 0%nat \/ (depth + 2 <= x)%nat
}.

End Merge.

(** * The layout of the table definition *)

Module TableLayout.

Import TableDefinition.

(** The branch of lines 220-230 that an entry of the schema takes when the
    schema has a primary index. *)
Definition entry_target (indexes : list (string * Index)) (entry : string * Index) : target :=
  if String.eqb (fst entry) "primary" then Primary
  else match hash (snd entry) with
       | None => Local
       | Some h =>
           match property "primary" indexes with
           | Some p => if bool_decide (Some h = hash p) then Local else Global
           | None => Global
           end
       end.

Definition in_primary (indexes : list (string * Index)) (entry : string * Index) : bool :=
  match entry_target indexes entry with Primary => true | _ => false end.

Definition in_local (indexes : list (string * Index)) (entry : string * Index) : bool :=
  match entry_target indexes entry with Local => true | _ => false end.

Definition in_global (indexes : list (string * Index)) (entry : string * Index) : bool :=
  match entry_target indexes entry with Global => true | _ => false end.

(** [index.hash || indexes.primary.hash] (line 254). *)
Definition entry_hash (indexes : list (string * Index)) (index : Index) : option string :=
  if truthy (hash index) then hash index
  else match property "primary" indexes with
       | Some p => hash p
       | None => None
       end.

Definition entry_keys (indexes : list (string * Index)) (entry : string * Index)
  : list KeySchemaElement :=
  index_keys (entry_hash indexes (snd entry)) (snd entry).

(** The [projDef] of a secondary index once its keys were pushed. *)
Definition entry_projDef (indexes : list (string * Index)) (entry : string * Index)
  : SecondaryIndex :=
  {| IndexName := fst entry;
     IndexKeySchema := entry_keys indexes entry;
     ProjectionType := projection_type (project (snd entry));
     NonKeyAttributes := non_key_attributes (project (snd entry));
     IndexProvisionedThroughput := None |}.

(** The invariant of the loop, for the key schemas and the two collections. *)
Record layout_inv (indexes seen : list (string * Index)) (b : Building) : Prop := {
  layout_keys :
    bKeySchema b = concat (map (entry_keys indexes) (List.filter (in_primary indexes) seen));
  layout_local :
    bLocal b = map (entry_projDef indexes) (List.filter (in_local indexes) seen);
  layout_global :
    bGlobal b = map (entry_projDef indexes) (List.filter (in_global indexes) seen)
}.

(** The secondary indexes of a definition, an absent collection being empty. *)
Definition local_indexes (def : TableDef) : list SecondaryIndex :=
  default [] (LocalSecondaryIndexes def).

Definition global_indexes (def : TableDef) : list SecondaryIndex :=
  default [] (GlobalSecondaryIndexes def).

(** Every key schema element of a definition: those of the table and those
    of its secondary indexes. *)
Definition key_elements (def : TableDef) : list KeySchemaElement :=
  KeySchema def ++ concat (map IndexKeySchema (local_indexes def))
                ++ concat (map IndexKeySchema (global_indexes def)).

(** A schema with a global and a local index, and a provisioned throughput. *)
Definition provisioned_schema : list (string * Index) :=
  [("gs1", {| hash := Some "gs1pk"; sort := Some "gs1sk"; project := ProjectList ["name"] |});
   ("primary", {| hash := Some "pk"; sort := Some "sk"; project := ProjectUnset |});
   ("ls1", {| hash := None; sort := Some "email"; project := ProjectUnset |})].

Definition ten_units : Throughput := {| ReadCapacityUnits := 10; WriteCapacityUnits := 10 |}.

End TableLayout.

(** * Table administration: [deleteTable], [describeTable], [listTables], [exists] *)

Module Tables.

(** Line 33. *)
Definition ConfirmRemoveTable : string := "DeleteTableForever".

(** The requests these methods send to [this.service], and the entries they
    write to the log. *)
Inductive step : Type :=
| Traced (message : string)
| DeleteTable (TableName : string)
| DescribeTable (TableName : string)
| ListTables.

(** [this.service]: what each of the three calls resolves with or rejects
    with. Of the result of [listTables] only the property [TableNames] is
    read: it is absent, or the array of table names of the AWS response. *)
Record Service : Type := {
  service_deleteTable : string -> completion unit;
  service_describeTable : string -> completion value;
  service_listTables : completion (option (list string))
}.

Record Run (A : Type) : Type := {
  outcome : completion A;
  steps : list step
}.

Arguments outcome {A} r.
Arguments steps {A} r.

Definition quoted_name (name : string) : string := dquote +:+ name +:+ dquote.

(** [deleteTable(confirmation)]; an omitted argument is [undefined]. The
    comparison with the phrase is the loose one. *)
Definition deleteTable (service : Service) (name : string) (confirmation : value)
  : Run unit :=
  match loosely_equals ConfirmRemoveTable confirmation with
  | Return true =>
      {| outcome := service_deleteTable service name;
         steps := [Traced ("OneTable deleteTable for " +:+ quoted_name name);
                   DeleteTable name] |}
  | Return false =>
      {| outcome := Throw (Error ("Missing required confirmation " +:+
                                  quoted_name ConfirmRemoveTable));
         steps := [] |}
  | Throw e => {| outcome := Throw e; steps := [] |}
  end.

(** [describeTable()]. *)
Definition describeTable (service : Service) (name : string) : Run value :=
  {| outcome := service_describeTable service name; steps := [DescribeTable name] |}.

(** [listTables()]. *)
Definition listTables (service : Service) : Run (option (list string)) :=
  {| outcome := service_listTables service; steps := [ListTables] |}.

(** [results.find(t => t == this.name)]. *)
Fixpoint find_name (name : string) (names : list string) : option string :=
  match names with
  | [] => None
  | t :: rest => if String.eqb t name then Some t else find_name name rest
  end.

(** [exists()]:
    [results && results.find(t => t == this.name) != null ? true : false]. *)
Definition exists_ (service : Service) (name : string) : Run bool :=
  let listed := listTables service in
  {| outcome :=
       (results ← outcome listed;
        Return match results with
               | Some names =>
                   match find_name name names with
                   | Some _ => true
                   | None => false
                   end
               | None => false
               end);
     steps := steps listed |}.

(** A service that knows the tables [names]. *)
Definition serving (names : list string) : Service :=
  {| service_deleteTable := fun _ => Return tt;
     service_describeTable := fun n => Return (VObject [("TableName", VString n)]);
     service_listTables := Return (Some names) |}.

End Tables.
(** * Observing a dispatch *)

Module Observe.

Import Dispatch.

Definition is_client_call {P : Type} (e : event P) : bool :=
  match e with
  | ClientCall _ _ => true
  | _ => false
  end.

Definition is_metrics_add {P : Type} (e : event P) : bool :=
  match e with
  | MetricsAdd _ _ _ _ => true
  | _ => false
  end.

Definition is_logged {P : Type} (e : event P) : bool :=
  match e with
  | Logged _ _ _ _ => true
  | _ => false
  end.

(** A client whose every method resolves with [result]. *)
Definition resolving (result : list (string * value)) : Client :=
  fun _ => Some (fun _ => Return result).

Definition asking : Params :=
  {| throw := None; log := None; stats := Some true; capacity := Some "";
     info := VObject []; consistent := None; parse := None |}.

End Observe.

(** * Parsed reads: [transact] and the loop it shares with [batchGet] *)

Module Transact.

Import Dispatch.

(** Line 554: [op == 'write' ? 'transactWrite' : 'transactGet']. *)
Definition transact_op (op : string) : string :=
  if String.eqb op "write" then "transactWrite" else "transactGet".

(** [r.Item]: only a plain object has such a property, and reading it off
    [undefined] or [null] raises. *)
Definition item_of (r : value) : completion value :=
  match r with
  | VObject props => Return (get_prop "Item" props)
  | VUndefined | VNull =>
      Throw (TypeError "Cannot read properties of undefined (reading 'Item')")
  | _ => Return VUndefined
  end.

(** Lines 559-567: the body of the loop of [transact]. *)
Definition parse_response {Model : Type} (c : Collaborators Model) (params : Params)
    (items : list value) (r : value) : completion (list value) :=
  item ← item_of r;
  if truthy_value item then parse_item c params items item else Return items.

(** [transact(op, transaction, params)]; [properties] takes its default [{}]. *)
Definition transact {Model : Type} (c : Collaborators Model) (t : Table) (client : Client)
    (op : string) (transaction : list (string * value)) (params : Params)
  : Run (list (string * value)) value :=
  let run := execute t client GenericModel (transact_op op) transaction params [] in
  {| outcome :=
       (result ← outcome run;
        if String.eqb op "get" && flag_set (parse params) then
          responses ← iterate (get_prop "Responses" result);
          items ← foldM (parse_response c params) responses [];
          Return (VArray items)
        else Return (VObject result));
     events := events run;
     info_written := info_written run |}.

(** The model an unmarshalled item is handed to (lines 504-506 and 562-564),
    [field] being its [item[this.typeField]]: the model registered under that
    type, or under '_unknown' when the type is falsy, unless it is the unique
    model. *)
Definition resolve {Model : Type} (c : Collaborators Model) (field : value) : option Model :=
  let type := if truthy_value field then field else VString "_unknown" in
  match models c type with
  | Some model => if is_uniqueModel c model then None else Some model
  | None => None
  end.

(** What one stored item adds to the parsed result when the collaborators
    do not throw: [unmarshal], [field] and [transform] are what they return. *)
Definition shaped {Model : Type} (c : Collaborators Model)
    (unmarshal field : value -> value) (transform : Model -> value -> Params -> value)
    (params : Params) (item : value) : list value :=
  match resolve c (field (unmarshal item)) with
  | Some model => [transform model (unmarshal item) params]
  | None => []
  end.

(** The stored items of a list of transaction responses. *)
Fixpoint stored_items (responses : list value) : list value :=
  match responses with
  | [] => []
  | VObject props :: rest =>
      if truthy_value (get_prop "Item" props)
      then get_prop "Item" props :: stored_items rest
      else stored_items rest
  | _ :: rest => stored_items rest
  end.

(** A response that is neither [undefined] nor [null]. *)
Definition defined (r : value) : bool :=
  match r with
  | VUndefined | VNull => false
  | _ => true
  end.

(** Collaborators for a schema with the models 'User' and '_unique': the
    type of an item is its [_type] property and reading tags the item. *)
Definition typed_collaborators : Collaborators string :=
  {| unmarshall := fun item => Return item;
     type_of := fun item => Return match item with
                                   | VObject props => get_prop "_type" props
                                   | _ => VUndefined
                                   end;
     models := fun type => match type with
                           | VString "User" => Some "User"
                           | VString "_unique" => Some "_unique"
                           | _ => None
                           end;
     is_uniqueModel := fun model => String.eqb model "_unique";
     transformReadItem := fun model item _ => Return (VObject [(model, item)]) |}.

Definition user (name : string) : value :=
  VObject [("_type", VString "User"); ("name", VString name)].

Definition unique_marker : value := VObject [("_type", VString "_unique")].

Definition untyped : value := VObject [("name", VString "x")].

Definition parsing : Params :=
  {| throw := Some false; log := None; stats := None; capacity := None;
     info := VUndefined; consistent := None; parse := Some true |}.

End Transact.

(** * Value templates: [getVars] *)

Module Template.

(** The argument of [getVars]: a function, or a value. *)
Inductive source : Type :=
| Callback
| Data (v : value).

Definition dollar : ascii := ascii_of_nat 36.
Definition open_brace : ascii := ascii_of_nat 123.
Definition close_brace : ascii := ascii_of_nat 125.

(** What [.] does not match: a line terminator. The characters of the model
    are the code units below 256, where these are the line feed and the
    carriage return. *)
Definition line_terminator (c : ascii) : bool :=
  Ascii.eqb c (ascii_of_nat 10) || Ascii.eqb c (ascii_of_nat 13).

(** [(.*?)}] at the start of [s]: the shortest run of characters that are
    not line terminators and that a closing brace follows. The result is the
    run and what comes after the brace. *)
Fixpoint variable (s : string) : option (string * string) :=
  match s with
  | EmptyString => None
  | String c rest =>
      if Ascii.eqb c close_brace then Some (EmptyString, rest)
      else if line_terminator c then None
      else match variable rest with
           | Some (name, after) => Some (String c name, after)
           | None => None
           end
  end.

(** A match of [/\${(.*?)}/] at the start of [s]. *)
Definition match_here (s : string) : option (string * string) :=
  match s with
  | String c (String d rest) =>
      if Ascii.eqb c dollar && Ascii.eqb d open_brace then variable rest else None
  | _ => None
  end.

(** The matches [s.replace] finds with the flag [g], from left to right: a
    search starts where the previous match ended, and moves on by one
    character where there is no match. [fuel] bounds the number of steps. *)
Fixpoint matches (fuel : nat) (s : string) : list string :=
  match fuel with
  | O => []
  | S fuel' =>
      match s with
      | EmptyString => []
      | String _ rest =>
          match match_here s with
          | Some (name, after) => name :: matches fuel' after
          | None => matches fuel' rest
          end
      end
  end.

(** [getVars(v)]: an array is returned as it is, a function has no
    variables, a string is searched, and any other value has no method
    [replace] to call. *)
Definition getVars (v : source) : completion (list value) :=
  match v with
  | Callback => Return []
  | Data (VArray elems) => Return elems
  | Data (VString s) => Return (map VString (matches (String.length s) s))
  | Data VUndefined | Data VNull =>
      Throw (TypeError "Cannot read properties of undefined (reading 'replace')")
  | Data _ => Throw (TypeError "v.replace is not a function")
  end.

(** The text of a template: literal pieces, each followed by a reference
    to a variable, then a last literal piece. *)
Fixpoint render (pieces : list (string * string)) (last : string) : string :=
  match pieces with
  | [] => last
  | (literal, name) :: rest =>
      literal +:+ String dollar (String open_brace (name +:+ String close_brace (render rest last)))
  end.

(** [c] does not occur in [s]. *)
Fixpoint without (c : ascii) (s : string) : bool :=
  match s with
  | EmptyString => true
  | String d rest => negb (Ascii.eqb d c) && without c rest
  end.

(** A name that [(.*?)] can match up to a closing brace. *)
Fixpoint plain_name (s : string) : bool :=
  match s with
  | EmptyString => true
  | String c rest => negb (Ascii.eqb c close_brace) && negb (line_terminator c) && plain_name rest
  end.

End Template.

(** * Grouping items by type: [groupByType] *)

Module Grouping.

Import Dispatch.

(** An item: a plain object. *)
Abbreviation item := (list (string * value)).

(** [item[this.typeField] || '_unknown'] as the property key it is used
    as: the string form of an own property that is truthy, the key of the
    member of [Object.prototype] when the field has the name of one (the
    item inherits it, and it is truthy), and '_unknown' otherwise. *)
Definition type_key (typeField : string) (i : item) : completion string :=
  if has_own typeField i then
    let type := get_prop typeField i in
    if truthy_value type then to_string type else Return "_unknown"
  else if inherited typeField then Return (key_of (Builtin typeField))
  else Return "_unknown".

(** The body of the loop (lines 580-582). [result] starts as [{}]: under the
    name of a member of [Object.prototype] it finds that member instead of
    a list, and [push] is not a method of it. *)
Definition group_step (typeField : string) (result : gmap string (list item)) (i : item)
  : completion (gmap string (list item)) :=
  type ← type_key typeField i;
  match result !! type with
  | Some list => Return (<[type := list ++ [i]]> result)
  | None =>
      if inherited type then Throw (TypeError "list.push is not a function")
      else Return (<[type := [i]]> result)
  end.

(** [groupByType(items)], for an array of items. *)
Definition groupByType (typeField : string) (items : list item)
  : completion (gmap string (list item)) :=
  foldM (group_step typeField) items ∅.

(** The items of [keyed] filed under [type], in order. *)
Fixpoint filed (type : string) (keyed : list (item * string)) : list item :=
  match keyed with
  | [] => []
  | (i, key) :: rest => if String.eqb key type then i :: filed type rest else filed type rest
  end.

(** What [result[type]] holds once the items of [keyed] are grouped. *)
Definition group_of (type : string) (keyed : list (item * string)) : option (list item) :=
  match filed type keyed with
  | [] => None
  | list => Some list
  end.

Definition typed_item (type name : string) : item :=
  [("_type", VString type); ("name", VString name)].

End Grouping.

(** * What [merge] copies *)

Module MergeCopy.

Import Merge.

(** A value that is not an object. *)
Definition primitive (v : jsval) : bool :=
  match v with
  | Ref _ => false
  | _ => true
  end.

(** An entry that [mergeOne] copies, or skips, without recursion, and whose
    key is not the accessor [__proto__]. *)
Definition flat_entry (entry : string * jsval) : bool :=
  primitive (snd entry) && negb (String.eqb (fst entry) "__proto__").

(** The value the entries of a source assign to [key]: the last one that is
    not [undefined], if any. *)
Fixpoint assigned (key : string) (entries : list (string * jsval)) : option jsval :=
  match entries with
  | [] => None
  | (k, v) :: rest =>
      match assigned key rest with
      | Some w => Some w
      | None =>
          if String.eqb k key
          then match v with Undefined => None | _ => Some v end
          else None
      end
  end.

(** The properties of the destination after the entries were copied one
    after the other. *)
Definition copied (dest : list (string * jsval)) (entries : list (string * jsval))
  : list (string * jsval) :=
  foldl (fun ps entry => match snd entry with
                         | Undefined => ps
                         | v => set (fst entry) v ps
                         end) dest entries.

(** [{a: null, n: 1}] at address 0, [{a: {b: 1}}] at address 1, whose inner
    object is at address 2. *)
Definition null_slot_heap : heap :=
  [{| kind_of := Plain; props := [("a", Null); ("n", Number 1)] |};
   {| kind_of := Plain; props := [("a", Ref 2)] |};
   {| kind_of := Plain; props := [("b", Number 1)] |}].

(** [{a: 1, b: 2}] at address 0 and [{b: undefined, c: null, a: 'x'}] at
    address 1. *)
Definition flat_heap : heap :=
  [{| kind_of := Plain; props := [("a", Number 1); ("b", Number 2)] |};
   {| kind_of := Plain; props := [("b", Undefined); ("c", Null); ("a", Text "x")] |}].

End MergeCopy.

(* ===================================================================== *)
(** * Part II: theorems                                                   *)
(* ===================================================================== *)

Module JsFacts.

Lemma foldM_app {S A : Type} (step : S -> A -> completion S) (l1 l2 : list A) (s : S) :
  foldM step (l1 ++ l2) s =
  match foldM step l1 s with
  | Return s' => foldM step l2 s'
  | Throw e => Throw e
  end.
Proof.
  revert s. induction l1 as [|a l1 IH]; intros s; simpl; [done|].
  destruct (step s a); [apply IH | done].
Qed.

(** A loop whose body throws on some element, whatever the state, throws. *)
Lemma foldM_throws {S A : Type} (step : S -> A -> completion S) (l : list A) (a : A) :
  In a l ->
  (forall s, exists e, step s a = Throw e) ->
  forall s, exists e, foldM step l s = Throw e.
Proof.
  intros Hin Hthrow. induction l as [|x l IH]; intros s; simpl; [destruct Hin|].
  destruct (step s x) as [s'|e] eqn:Hx; [|eauto].
  destruct Hin as [->|Hin]; [|by apply IH].
  destruct (Hthrow s) as [e He]. congruence.
Qed.

(** The exception of a loop is an exception of its body. *)
Lemma foldM_throw_inv {S A : Type} (step : S -> A -> completion S) (l : list A) (s : S) e :
  foldM step l s = Throw e -> exists s' a, In a l /\ step s' a = Throw e.
Proof.
  revert s. induction l as [|x l IH]; intros s; simpl; [done|].
  destruct (step s x) as [s'|e'] eqn:Hx.
  - intros H. destruct (IH _ H) as (s'' & a & Hin & Ha). eauto 6.
  - intros [= ->]. eauto 6.
Qed.

(** An invariant of the body that holds initially holds when the loop ends,
    provided the body runs to completion on every element. *)
Lemma foldM_invariant {S A : Type} (step : S -> A -> completion S)
    (Inv : list A -> S -> Prop) (l : list A) :
  (forall seen a s, In a l -> Inv seen s ->
      exists s', step s a = Return s' /\ Inv (seen ++ [a]) s') ->
  forall s, Inv [] s -> exists s', foldM step l s = Return s' /\ Inv l s'.
Proof.
  intros Hstep.
  assert (forall rest seen s, (forall a, In a rest -> In a l) -> Inv seen s ->
            exists s', foldM step rest s = Return s' /\ Inv (seen ++ rest) s') as H.
  { induction rest as [|a rest IH]; intros seen s Hsub Hinv; simpl.
    - rewrite app_nil_r. eauto.
    - destruct (Hstep seen a s) as (s' & -> & Hinv'); [apply Hsub; by left | done |].
      destruct (IH (seen ++ [a]) s') as (s'' & ? & ?); [intros; apply Hsub; by right | done |].
      exists s''. by rewrite <- app_assoc in *. }
  intros s Hs. by apply (H l [] s).
Qed.

Lemma truthy_Some (s : string) : truthy (Some s) = true <-> s <> "".
Proof.
  unfold truthy. destruct (String.eqb_spec s ""); simpl; split; congruence.
Qed.

(** [+:+] does not reduce under [simpl]; its equations are restated. *)
Lemma append_cons (c : ascii) (s t : string) : String c s +:+ t = String c (s +:+ t).
Proof. reflexivity. Qed.

Lemma append_empty_r (s : string) : s +:+ "" = s.
Proof. induction s as [|c s IH]; [done | by rewrite append_cons, IH]. Qed.

Lemma append_assoc (a b c : string) : (a +:+ b) +:+ c = a +:+ b +:+ c.
Proof. induction a as [|x a IH]; [done | by rewrite !append_cons, IH]. Qed.

End JsFacts.

Module TableDefinitionFacts.

Import TableDefinition JsFacts.

Lemma property_In name indexes i :
  property name indexes = Some i -> In (name, i) indexes.
Proof.
  induction indexes as [|[n j] rest IH]; simpl; [done|].
  destruct (String.eqb_spec n name) as [->|]; [intros [= ->]; by left | right; auto].
Qed.

(** The body of the loop throws on a local index that asks for a projection. *)
Lemma index_step_local_projection indexes name index b :
  local_index indexes name index ->
  project_truthy (project index) = true ->
  exists e, index_step indexes b (name, index) = Throw e.
Proof.
  intros [Hname Hhash] Hproj. unfold index_step, classify.
  destruct (String.eqb_spec name "primary"); [done|].
  unfold is_local, primary_hash.
  destruct Hhash as [-> | (p & -> & Hp)]; simpl.
  - rewrite Hproj. eauto.
  - destruct (hash index) as [h|] eqn:Hh; simpl.
    + rewrite bool_decide_eq_true_2 by done. rewrite Hproj. eauto.
    + rewrite Hproj. eauto.
Qed.

(** What the body of the loop can throw. *)
Lemma index_step_throw indexes b entry e :
  index_step indexes b entry = Throw e ->
  e = Error "Unwanted project for LSI" \/ property "primary" indexes = None.
Proof.
  destruct entry as [name index]. unfold index_step, classify, is_local, primary_hash.
  destruct (property "primary" indexes) as [p|]; [|by right].
  intros H. left. revert H.
  destruct (String.eqb name "primary"); simpl.
  - destruct (truthy (hash index)); simpl; discriminate.
  - destruct (hash index) as [h|]; simpl.
    + case_bool_decide; destruct (project_truthy (project index)); simpl;
        try destruct (negb (String.eqb h "")); simpl; congruence.
    + destruct (project_truthy (project index)); simpl; congruence.
Qed.

Lemma createTable_throw {R : Type} (service : TableDef -> completion R)
    tableName provisioned indexes e :
  foldM (index_step indexes) indexes start = Throw e ->
  createTable service tableName provisioned indexes = {| outcome := Throw e; sent := [] |}.
Proof. intros H. unfold createTable, buildDefinition. by rewrite H. Qed.

(** Declaring [a] keeps the names distinct, keeps [attributes] in step with
    them, and adds [a], unless [a] is a name of [Object.prototype]. *)
Lemma declare_spec a b :
  NoDup (names b) ->
  (forall x, x ∈ attributes b <-> x ∈ names b) ->
  NoDup (names (declare a b)) /\
  (forall x, x ∈ attributes (declare a b) <-> x ∈ names (declare a b)) /\
  (forall x, x ∈ names (declare a b) <-> x ∈ names b \/ (x = a /\ inherited a = false)).
Proof.
  intros Hnd Hset. unfold declare, known.
  destruct (decide (a ∈ attributes b)) as [Hin|Hin].
  - rewrite bool_decide_eq_true_2 by done. simpl.
    split; [done|]. split; [done|]. intros x. split; [tauto|].
    intros [?|[-> _]]; [done | by apply Hset].
  - rewrite bool_decide_eq_false_2 by done. simpl.
    destruct (inherited a) eqn:Ha.
    { split; [done|]. split; [done|]. intros x. split; [tauto|].
      by intros [?|[_ ?]]. }
    unfold names. simpl. rewrite map_app. simpl. fold (names b).
    split; [|split].
    + apply NoDup_app. split; [done|]. split; [|apply NoDup_singleton].
      intros x Hx Hx'. apply list_elem_of_singleton in Hx' as ->.
      by apply Hin, Hset.
    + intros x. rewrite elem_of_union, elem_of_singleton, elem_of_app,
        list_elem_of_singleton, Hset. tauto.
    + intros x. rewrite elem_of_app, list_elem_of_singleton. intuition congruence.
Qed.

Lemma declare_if_truthy_spec o b :
  NoDup (names b) ->
  (forall x, x ∈ attributes b <-> x ∈ names b) ->
  NoDup (names (declare_if_truthy o b)) /\
  (forall x, x ∈ attributes (declare_if_truthy o b) <-> x ∈ names (declare_if_truthy o b)) /\
  (forall x, x ∈ names (declare_if_truthy o b) <->
             x ∈ names b \/ (x <> "" /\ inherited x = false /\ o = Some x)).
Proof.
  intros Hnd Hset. unfold declare_if_truthy.
  destruct o as [a|].
  - destruct (truthy (Some a)) eqn:Ht.
    + apply truthy_Some in Ht.
      destruct (declare_spec a b Hnd Hset) as (H1 & H2 & H3).
      split; [done|]. split; [done|]. intros x. rewrite H3.
      split; intros [?|H]; auto.
      * destruct H as [-> ?]. auto.
      * destruct H as (_ & ? & [= ->]). auto.
    + split; [done|]. split; [done|]. intros x. split; [auto|].
      intros [?|(Hx & _ & [= ->])]; [done|]. apply truthy_Some in Hx. congruence.
  - split; [done|]. split; [done|]. intros x. split; [auto|]. intros [?|(_ & _ & ?)]; done.
Qed.

Lemma place_names t name index keys b : names (place t name index keys b) = names b.
Proof. by destruct t. Qed.

Lemma place_attributes t name index keys b :
  attributes (place t name index keys b) = attributes b.
Proof. by destruct t. Qed.

Lemma referenced_snoc a seen name index :
  referenced a (seen ++ [(name, index)]) <->
  referenced a seen \/ hash index = Some a \/ sort index = Some a.
Proof.
  unfold referenced. split.
  - intros (n & i & Hin & H). apply in_app_iff in Hin as [Hin|[[= -> ->]|[]]]; eauto 6.
  - intros [(n & i & Hin & H)|H].
    + exists n, i. rewrite in_app_iff. auto.
    + exists name, index. rewrite in_app_iff. simpl. auto.
Qed.

(** An accepted entry is processed without exception. *)
Lemma index_step_accepted indexes b name index :
  is_Some (property "primary" indexes) ->
  accepts_entry indexes (name, index) = true ->
  exists t hashName,
    index_step indexes b (name, index) =
    Return (declare_if_truthy (sort index)
              (declare_if_truthy (hash index)
                 (place t name index (index_keys hashName index) b))) /\
    (truthy (hash index) = true -> hashName = hash index).
Proof.
  intros [p Hp] Hacc. unfold accepts_entry in Hacc. rewrite Hp in Hacc.
  unfold index_step, classify, is_local, primary_hash. rewrite Hp.
  destruct (String.eqb name "primary"); simpl in *.
  - destruct (truthy (hash index)); simpl; by eexists Primary, _.
  - apply negb_true_iff, andb_false_iff in Hacc.
    destruct (hash index) as [h|] eqn:Hh; simpl.
    + destruct (bool_decide (Some h = hash p)) eqn:Heq; simpl.
      * destruct Hacc as [Hacc| ->]; [by rewrite orb_true_r in Hacc|].
        simpl. destruct (negb (String.eqb h "")); simpl; by eexists Local, _.
      * destruct (negb (String.eqb h "")); simpl; by eexists Global, _.
    + destruct Hacc as [Hacc| ->]; [done|]. simpl. by eexists Local, _.
Qed.

Lemma index_step_invariant indexes seen b name index :
  is_Some (property "primary" indexes) ->
  accepts_entry indexes (name, index) = true ->
  attributes_inv seen b ->
  exists b', index_step indexes b (name, index) = Return b' /\
             attributes_inv (seen ++ [(name, index)]) b'.
Proof.
  intros Hp Hacc [Hnd Hset Hnames].
  destruct (index_step_accepted indexes b name index Hp Hacc) as (t & hn & -> & _).
  eexists. split; [done|].
  set (b1 := place t name index (index_keys hn index) b).
  assert (NoDup (names b1)) as Hnd1 by (unfold b1; by rewrite place_names).
  assert (forall x, x ∈ attributes b1 <-> x ∈ names b1) as Hset1.
  { intros x. unfold b1. by rewrite place_names, place_attributes. }
  destruct (declare_if_truthy_spec (hash index) b1 Hnd1 Hset1) as (Hnd2 & Hset2 & Hn2).
  destruct (declare_if_truthy_spec (sort index) _ Hnd2 Hset2) as (Hnd3 & Hset3 & Hn3).
  split; [done|done|].
  intros a. rewrite Hn3, Hn2. unfold b1. rewrite place_names, Hnames.
  unfold declared_by. rewrite referenced_snoc. tauto.
Qed.

Lemma start_invariant : attributes_inv [] start.
Proof.
  split.
  - apply NoDup_nil_2.
  - intros a. simpl. set_solver.
  - intros a. simpl. split; [by intros ?%elem_of_nil|]. intros (_ & _ & n & i & [] & _).
Qed.

(** A valid schema is processed to the end, and the invariant holds of the
    whole schema. *)
Lemma build_valid indexes :
  valid_schema indexes = true ->
  exists b, foldM (index_step indexes) indexes start = Return b /\ attributes_inv indexes b.
Proof.
  intros Hv. apply andb_true_iff in Hv as [Hp Hall].
  apply bool_decide_eq_true in Hp. rewrite forallb_forall in Hall.
  apply (foldM_invariant (index_step indexes) attributes_inv indexes); [|apply start_invariant].
  intros seen [name index] b Hin Hinv.
  apply index_step_invariant; auto.
Qed.

(** In a list with distinct names, a name that occurs has one entry. *)
Lemma entries_for_unique a defs :
  NoDup (map AttributeName defs) -> a ∈ map AttributeName defs ->
  length (entries_for a defs) = 1.
Proof.
  unfold entries_for. induction defs as [|d defs IH]; simpl.
  { intros _ H. by apply elem_of_nil in H. }
  intros Hnd Hin. apply NoDup_cons in Hnd as [Hd Hnd].
  rewrite filter_cons. destruct (decide (AttributeName d = a)) as [<-|Hne].
  - simpl. f_equal. apply length_zero_iff_nil.
    destruct (filter _ defs) as [|x l] eqn:Hf; [done|].
    assert (x ∈ filter (λ d0, AttributeName d0 = AttributeName d) defs) as Hx
      by (rewrite Hf; left).
    apply list_elem_of_filter in Hx as [Hx1 Hx2].
    destruct Hd. rewrite <- Hx1. by apply list_elem_of_fmap_2.
  - apply IH; [done|]. by apply elem_of_cons in Hin as [?|?].
Qed.

(** C4. Whenever the schema contains a secondary index that the code treats
    as local (its hash is unset, or equal to the hash of the primary index)
    and whose [project] is set (truthy), [createTable] raises an exception and
    no definition was sent to [service.createTable]; when the schema has a
    primary index the exception is the error 'Unwanted project for LSI'. *)
Theorem createTable_local_projection_raises :
  forall (R : Type) (service : TableDef -> completion R) tableName provisioned
         indexes name index,
    In (name, index) indexes ->
    local_index indexes name index ->
    project_truthy (project index) = true ->
    exists e,
      createTable service tableName provisioned indexes = {| outcome := Throw e; sent := [] |} /\
      (is_Some (property "primary" indexes) -> e = Error "Unwanted project for LSI").
Proof.
  intros R service tableName provisioned indexes name index Hin Hlocal Hproj.
  destruct (foldM_throws (index_step indexes) indexes (name, index) Hin) with (s := start)
    as [e He].
  { intros b. by apply index_step_local_projection. }
  exists e. split; [by apply createTable_throw|].
  intros [p Hp]. apply foldM_throw_inv in He as (b' & entry & _ & Hstep).
  apply index_step_throw in Hstep as [?|?]; congruence.
Qed.

Lemma createTable_local_projection_raises_witness :
  exists e,
    createTable (fun def => Return def) "MyTable" None rejected_schema
      = {| outcome := Throw e; sent := [] |} /\
    (is_Some (property "primary" rejected_schema) -> e = Error "Unwanted project for LSI").
Proof.
  apply (createTable_local_projection_raises TableDef (fun def => Return def) "MyTable" None
           rejected_schema "ls1"
           {| hash := None; sort := Some "name"; project := ProjectList ["email"] |}).
  - simpl. auto.
  - split; [discriminate | by left].
  - reflexivity.
Defined.

(** The key schemas only grow, and declaring an attribute leaves them alone. *)
Lemma declare_if_truthy_keys o b : building_keys (declare_if_truthy o b) = building_keys b.
Proof.
  unfold declare_if_truthy, declare. destruct o as [a|]; [|done].
  destruct (truthy (Some a)); [|done]. by destruct (known a b).
Qed.

Lemma place_keys t name index keys b x :
  x ∈ building_keys (place t name index keys b) <->
  x ∈ building_keys b \/ x ∈ map KeyAttributeName keys.
Proof.
  unfold building_keys.
  destruct t; simpl; rewrite ?flat_map_app; simpl; rewrite ?app_nil_r;
    rewrite !map_app, !elem_of_app; tauto.
Qed.

Lemma index_keys_names hashName index x :
  x ∈ map KeyAttributeName (index_keys hashName index) <->
  x = hashName \/ (truthy (sort index) = true /\ x = sort index).
Proof.
  unfold index_keys. destruct (truthy (sort index)); simpl.
  - rewrite !elem_of_cons, elem_of_nil. intuition.
  - rewrite elem_of_cons, elem_of_nil. intuition congruence.
Qed.

(** Every non-empty hash or sort key seen so far is named in a key schema. *)
Lemma index_step_keys indexes seen b name index :
  is_Some (property "primary" indexes) ->
  accepts_entry indexes (name, index) = true ->
  (forall a, a <> "" -> referenced a seen -> Some a ∈ building_keys b) ->
  exists b', index_step indexes b (name, index) = Return b' /\
             forall a, a <> "" -> referenced a (seen ++ [(name, index)]) ->
                       Some a ∈ building_keys b'.
Proof.
  intros Hp Hacc Hinv.
  destruct (index_step_accepted indexes b name index Hp Hacc) as (t & hn & -> & Hhn).
  eexists. split; [done|].
  intros a Ha Href. rewrite !declare_if_truthy_keys, place_keys, index_keys_names.
  apply referenced_snoc in Href as [Href|[Hh|Hs]].
  - left. by apply Hinv.
  - right. left. rewrite Hhn; [done|]. rewrite Hh. by apply truthy_Some.
  - right. right. rewrite Hs. split; [by apply truthy_Some | done].
Qed.

Lemma with_throughput_keys p (g : list SecondaryIndex) :
  flat_map IndexKeySchema (map (with_throughput p) g) = flat_map IndexKeySchema g.
Proof. induction g as [|i g IH]; simpl; [done | by rewrite IH]. Qed.

Lemma finish_keys tableName provisioned b :
  key_names (finish tableName provisioned b) = building_keys b.
Proof.
  unfold key_names, building_keys, finish. simpl. do 3 f_equal.
  - by destruct (bLocal b).
  - destruct (bGlobal b) as [|i g] eqn:Hg; [done|]. simpl.
    destruct provisioned as [p|]; [|done]. simpl. by rewrite with_throughput_keys.
Qed.

(** A valid schema is processed to the end; the attribute definitions obey
    the invariant and every key that was referred to is in a key schema. *)
Lemma build_valid_keys indexes :
  valid_schema indexes = true ->
  exists b, foldM (index_step indexes) indexes start = Return b /\
            attributes_inv indexes b /\
            forall a, a <> "" -> referenced a indexes -> Some a ∈ building_keys b.
Proof.
  intros Hv. pose proof Hv as Hv'. apply andb_true_iff in Hv as [Hp Hall].
  apply bool_decide_eq_true in Hp. rewrite forallb_forall in Hall.
  destruct (build_valid indexes Hv') as (b & Hb & Hinv).
  destruct (foldM_invariant (index_step indexes)
              (fun seen b => forall a, a <> "" -> referenced a seen -> Some a ∈ building_keys b)
              indexes) with (s := start) as (b' & Hb' & Hkeys).
  - intros seen [name index] s Hin Hs. apply index_step_keys; auto.
  - intros a _ (n & i & [] & _).
  - exists b. rewrite Hb in Hb'. injection Hb' as <-. done.
Qed.

(** C7 (the part that fails). [attributes] is the object literal [{}], and
    the test [!attributes[name]] of lines 257 and 265 finds the members of
    [Object.prototype] on it. For every valid schema [createTable] sends one
    definition to the client; a hash or sort key whose name [Object.prototype]
    has, such as 'constructor', is named in a key schema of that definition
    and owns no entry of [AttributeDefinitions], where the claim asks for one. *)
Theorem createTable_inherited_key_undeclared :
  forall (R : Type) (service : TableDef -> completion R) tableName provisioned indexes a,
    valid_schema indexes = true ->
    referenced a indexes ->
    inherited a = true ->
    exists def,
      sent (createTable service tableName provisioned indexes) = [def] /\
      Some a ∈ key_names def /\
      entries_for a (AttributeDefinitions def) = [].
Proof.
  intros R service tableName provisioned indexes a Hvalid Href Ha.
  destruct (build_valid_keys indexes Hvalid) as (b & Hb & [Hnd Hset Hnames] & Hkeys).
  exists (finish tableName provisioned b). split; [|split].
  - unfold createTable, buildDefinition. by rewrite Hb.
  - rewrite finish_keys. apply Hkeys; [|done]. by intros ->.
  - unfold entries_for. simpl.
    destruct (filter _ (bAttributeDefinitions b)) as [|d l] eqn:Hf; [done|].
    assert (d ∈ filter (λ d0, AttributeName d0 = a) (bAttributeDefinitions b)) as Hd
      by (rewrite Hf; left).
    apply list_elem_of_filter in Hd as [Hd1 Hd2].
    assert (a ∈ names b) as Hin by (rewrite <- Hd1; by apply list_elem_of_fmap_2).
    apply Hnames in Hin as (_ & Hno & _). congruence.
Qed.

Lemma createTable_inherited_key_undeclared_witness :
  exists def,
    sent (createTable (fun def => Return def) "MyTable" None constructor_schema) = [def] /\
    Some "constructor" ∈ key_names def /\
    entries_for "constructor" (AttributeDefinitions def) = [].
Proof.
  apply (createTable_inherited_key_undeclared TableDef (fun def => Return def)
           "MyTable" None constructor_schema "constructor").
  - reflexivity.
  - exists "primary", {| hash := Some "constructor"; sort := Some "sk"; project := ProjectUnset |}.
    split; [by left | by left].
  - reflexivity.
Defined.

(** The definition sent for [constructor_schema]: the key schema names
    [constructor], the attribute definitions do not. *)
Example constructor_schema_definition :
  (fun def => (map KeyAttributeName (KeySchema def),
               map AttributeName (AttributeDefinitions def))) <$>
    sent (createTable (fun def => Return def) "MyTable" None constructor_schema)
  = [([Some "constructor"; Some "sk"], ["sk"])].
Proof. reflexivity. Qed.

(** For every valid schema [createTable] sends one definition to the
    client, and in it every non-empty attribute name that some index has as
    its hash or sort key, and that is not a name of [Object.prototype], owns
    exactly one entry of [AttributeDefinitions], however many indexes refer to
    it; the name is also in a key schema. *)
Theorem createTable_attribute_definitions_unique :
  forall (R : Type) (service : TableDef -> completion R) tableName provisioned indexes,
    valid_schema indexes = true ->
    exists def,
      sent (createTable service tableName provisioned indexes) = [def] /\
      forall a, a <> "" -> inherited a = false -> referenced a indexes ->
        length (entries_for a (AttributeDefinitions def)) = 1 /\ Some a ∈ key_names def.
Proof.
  intros R service tableName provisioned indexes Hvalid.
  destruct (build_valid_keys indexes Hvalid) as (b & Hb & [Hnd Hset Hnames] & Hkeys).
  exists (finish tableName provisioned b). split.
  - unfold createTable, buildDefinition. by rewrite Hb.
  - intros a Ha Hown Href. split.
    + apply entries_for_unique; [done|]. apply Hnames. by split.
    + rewrite finish_keys. by apply Hkeys.
Qed.

Lemma createTable_attribute_definitions_unique_witness :
  exists def,
    sent (createTable (fun def => Return def) "MyTable" None sample_schema) = [def] /\
    forall a, a <> "" -> inherited a = false -> referenced a sample_schema ->
      length (entries_for a (AttributeDefinitions def)) = 1 /\ Some a ∈ key_names def.
Proof.
  apply (createTable_attribute_definitions_unique TableDef (fun def => Return def)
           "MyTable" None sample_schema).
  reflexivity.
Defined.

(** The definition built for [sample_schema]: [pk], [sk] and [gs1pk] are
    declared once each although two indexes use [sk], [pk] and [gs1pk]. *)
Example sample_schema_attributes :
  (fun r => map AttributeName (AttributeDefinitions r)) <$> sent
     (createTable (fun def => Return def) "MyTable" None sample_schema)
  = [["pk"; "sk"; "gs1pk"]].
Proof. reflexivity. Qed.

(** The builder never leaves an empty collection of local or global indexes
    in the definition: an empty collection is deleted. *)
Theorem finish_no_empty_collection :
  forall tableName provisioned b,
    LocalSecondaryIndexes (finish tableName provisioned b) <> Some [] /\
    GlobalSecondaryIndexes (finish tableName provisioned b) <> Some [].
Proof.
  intros tableName provisioned b. unfold finish. simpl. split.
  - by destruct (bLocal b).
  - destruct (bGlobal b); [done|]. by destruct provisioned.
Qed.

(** The end-to-end scenario: one primary key schema (HASH [pk], RANGE [sk]),
    one global index [gs1] with projection KEYS_ONLY, attribute definitions for
    [pk], [sk] and [gsiPk] only, no local index collection, on-demand billing. *)
Theorem buildDefinition_scenario :
  buildDefinition "MyTable" None scenario_schema =
  Return
    {| AttributeDefinitions :=
         [{| AttributeName := "pk"; AttributeType := "S" |};
          {| AttributeName := "sk"; AttributeType := "S" |};
          {| AttributeName := "gsiPk"; AttributeType := "S" |}];
       KeySchema :=
         [{| KeyAttributeName := Some "pk"; KeyType := "HASH" |};
          {| KeyAttributeName := Some "sk"; KeyType := "RANGE" |}];
       LocalSecondaryIndexes := None;
       GlobalSecondaryIndexes :=
         Some [{| IndexName := "gs1";
                  IndexKeySchema := [{| KeyAttributeName := Some "gsiPk"; KeyType := "HASH" |}];
                  ProjectionType := "KEYS_ONLY";
                  NonKeyAttributes := None;
                  IndexProvisionedThroughput := None |}];
       TableName := "MyTable";
       ProvisionedThroughput := None;
       BillingMode := "PAY_PER_REQUEST" |}.
Proof. reflexivity. Qed.

End TableDefinitionFacts.

Module DispatchFacts.

Import Dispatch JsFacts.

Lemma includes_intro (before part after : string) :
  includes part (before +:+ part +:+ after).
Proof. by exists before, after. Qed.

Lemma includes_suffix (a b part : string) : includes part (a +:+ b +:+ part).
Proof. exists (a +:+ b), "". by rewrite append_empty_r, append_assoc. Qed.

Lemma includes_quoted_last (a b c part : string) :
  includes part (a +:+ b +:+ c +:+ quoted part).
Proof.
  exists (a +:+ b +:+ c +:+ dquote), dquote.
  unfold quoted. by rewrite !append_assoc.
Qed.

(** The events of the client call itself are never log entries. *)
Lemma called_not_logged {P : Type} client method cmd level message (trace : Trace P) e :
  ~ In (Logged level message trace e) (called client method cmd).
Proof. unfold called. destruct (client method); simpl; intuition discriminate. Qed.

Lemma called_command {P : Type} client method cmd method' sent :
  In (ClientCall (P := P) method' sent) (called client method cmd) -> sent = cmd.
Proof.
  unfold called. destruct (client method); simpl; [|done].
  by intros [[= _ <-]|[]].
Qed.

Lemma record_metrics_off {P : Type} t model op result params :
  metrics t = false -> record_metrics (P := P) t model op result params = [].
Proof. intros Hm. unfold record_metrics. rewrite Hm. by destruct result. Qed.

Lemma entered_level (f : option bool) : (if flag_set f then "info" else "trace") <> "error".
Proof. destruct (flag_set f); discriminate. Qed.

(** C2. When the client rejects a [put] with the code
    'ConditionalCheckFailedException' and [params.throw] is not [false],
    [execute] raises a new [Error] that is not the client's rejection and whose
    message contains the model name, it records the failure with [log.info],
    and nothing is logged at the level 'error'. *)
Theorem execute_conditional_put_failure :
  forall (P : Type) t client model cmd params (properties : P) err,
    client_answer t client "put" cmd params = Throw err ->
    code_of err = Some "ConditionalCheckFailedException" ->
    throw params <> Some false ->
    let run := execute t client model "put" cmd params properties in
    (exists message,
        outcome run = Throw (Error message) /\ Error message <> err /\ includes model message) /\
    (exists message trace,
        In (Logged "info" message trace (Some err)) (events run) /\ includes model message) /\
    (forall level message trace e,
        In (Logged level message trace e) (events run) -> level <> "error").
Proof.
  intros P t client model cmd params properties err Hfail Hcode Hthrow run.
  unfold run, execute. unfold client_answer in Hfail. rewrite Hfail.
  rewrite bool_decide_eq_false_2 by done.
  rewrite bool_decide_eq_true_2 by done. simpl.
  split; [|split].
  - eexists. split; [done|]. split.
    + intros <-. discriminate.
    + apply includes_suffix.
  - eexists _, _. split.
    + right. apply in_app_iff. right. left. reflexivity.
    + apply includes_quoted_last.
  - intros level message trace e [H|H].
    + injection H as <- _ _ _. apply entered_level.
    + apply in_app_iff in H as [H|H]; [by apply called_not_logged in H|].
      destruct H as [H|[]]. injection H as <- _ _ _. discriminate.
Qed.

Lemma execute_conditional_put_failure_witness :
  let run := execute sample_table (rejecting conditional_failure) "User" "put" [] no_params tt in
  (exists message,
      outcome run = Throw (Error message) /\ Error message <> conditional_failure /\
      includes "User" message) /\
  (exists message trace,
      In (Logged "info" message trace (Some conditional_failure)) (events run) /\
      includes "User" message) /\
  (forall level message trace e,
      In (Logged level message trace e) (events run) -> level <> "error").
Proof.
  apply (execute_conditional_put_failure unit sample_table (rejecting conditional_failure)
           "User" [] no_params tt conditional_failure).
  - reflexivity.
  - reflexivity.
  - discriminate.
Defined.

(** The first branch of the [catch] block, and what follows the [try]
    statement. *)
Lemma execute_suppressed_run {P : Type} t client model op cmd params (properties : P) err :
  client_answer t client op cmd params = Throw err ->
  throw params = Some false ->
  execute t client model op cmd params properties =
  leave (Logged (if flag_set (log params) then "info" else "trace")
                ("OneTable " +:+ quoted op +:+ " " +:+ quoted model)
                {| trace_model := model; trace_cmd := prepared t params cmd; trace_op := op;
                   trace_properties := properties; trace_err := None |} None
         :: called client (method_name t op) (prepared t params cmd)
         ++ record_metrics t model op (Some []) params)
        [] (write_info op (prepared t params cmd) params properties).
Proof.
  intros Hfail Hthrow.
  unfold execute. unfold client_answer in Hfail. rewrite Hfail.
  by rewrite bool_decide_eq_true_2.
Qed.

Lemma write_info_returns {P : Type} op cmd params (properties : P) :
  info params <> VNull ->
  exists stored, write_info op cmd params properties = Return stored.
Proof. intros Hinfo. unfold write_info. destruct (info params); simpl; by eauto. Qed.

Lemma execute_suppressed {P : Type} t client model op cmd params (properties : P) err :
  client_answer t client op cmd params = Throw err ->
  throw params = Some false ->
  info params <> VNull ->
  outcome (execute t client model op cmd params properties) = Return [].
Proof.
  intros Hfail Hthrow Hinfo.
  rewrite (execute_suppressed_run t client model op cmd params properties err Hfail Hthrow).
  destruct (write_info_returns op (prepared t params cmd) params properties Hinfo) as [i ->].
  done.
Qed.

Lemma suppressed_events {P : Type} t client model op cmd params (trace0 : Trace P) entry :
  let steps := Logged entry ("OneTable " +:+ quoted op +:+ " " +:+ quoted model) trace0 None
               :: called client (method_name t op) cmd
               ++ record_metrics t model op (Some []) params in
  (forall level message trace e, In (Logged level message trace e) steps -> e = None) /\
  (metrics t = true -> In (MetricsAdd model op [] params) steps).
Proof.
  simpl. split.
  - intros level message trace e [H|H]; [by injection H|].
    apply in_app_iff in H as [H|H]; [by apply called_not_logged in H|].
    unfold record_metrics in H. destruct (metrics t); simpl in H; intuition discriminate.
  - intros Hm. right. apply in_app_iff. right. unfold record_metrics. rewrite Hm. by left.
Qed.

(** C3 (the part that fails). The [catch] block does replace the failure by
    the empty object when [throw] is [false], but the statements after the
    [try] block test [typeof params.info == 'object'], which is true of [null]:
    with [{throw: false, info: null}] the assignment of line 480 raises a
    [TypeError], and this exception reaches the caller. The empty result had
    reached the metrics by then; nothing is stored in [info]. *)
Theorem execute_throw_false_null_info :
  forall (P : Type) t client model op cmd params (properties : P) err,
    client_answer t client op cmd params = Throw err ->
    throw params = Some false ->
    info params = VNull ->
    let run := execute t client model op cmd params properties in
    (exists message, outcome run = Throw (TypeError message)) /\
    outcome run <> Return [] /\
    info_written run = None /\
    (metrics t = true -> In (MetricsAdd model op [] params) (events run)).
Proof.
  intros P t client model op cmd params properties err Hfail Hthrow Hinfo run.
  unfold run.
  rewrite (execute_suppressed_run t client model op cmd params properties err Hfail Hthrow).
  unfold write_info. rewrite Hinfo. simpl.
  split; [by eexists|]. split; [done|]. split; [done|].
  intros Hm. right. apply in_app_iff. right. unfold record_metrics. rewrite Hm. by left.
Qed.

Lemma execute_throw_false_null_info_witness :
  let run := execute sample_table (rejecting throttled) "User" "get" [] null_info tt in
  (exists message, outcome run = Throw (TypeError message)) /\
  outcome run <> Return [] /\
  info_written run = None /\
  (metrics sample_table = true -> In (MetricsAdd "User" "get" [] null_info) (events run)).
Proof.
  apply (execute_throw_false_null_info unit sample_table (rejecting throttled)
           "User" "get" [] null_info tt throttled); reflexivity.
Defined.

(** When the client call fails, the caller passed [throw: false], and
    [params.info] is not [null], [execute] returns the empty object and raises
    nothing, whatever the operation and whatever the failure - a conditional
    check failure of a [put] included. The failure is not logged, the empty
    result still reaches the metrics when they are attached, and [info] is
    filled exactly when it is an object. *)
Theorem execute_throw_false_suppresses :
  forall (P : Type) t client model op cmd params (properties : P) err,
    client_answer t client op cmd params = Throw err ->
    throw params = Some false ->
    info params <> VNull ->
    let run := execute t client model op cmd params properties in
    outcome run = Return [] /\
    (forall level message trace e, In (Logged level message trace e) (events run) -> e = None) /\
    (metrics t = true -> In (MetricsAdd model op [] params) (events run)) /\
    (is_Some (info_written run) <-> typeof_object (info params) = true).
Proof.
  intros P t client model op cmd params properties err Hfail Hthrow Hinfo run.
  split; [by apply execute_suppressed with (err := err)|].
  unfold run.
  rewrite (execute_suppressed_run t client model op cmd params properties err Hfail Hthrow).
  unfold write_info.
  destruct (info params) eqn:Hi; simpl; try done;
    (split; [|split]);
    try (by apply (suppressed_events t client model op (prepared t params cmd) params));
    try (split; [by intros [? ?] | done]);
    try (split; [done | by eexists]).
Qed.

Lemma execute_throw_false_suppresses_witness :
  outcome (execute sample_table (rejecting conditional_failure) "User" "put" [] quiet tt)
  = Return [].
Proof.
  apply (execute_throw_false_suppresses unit sample_table (rejecting conditional_failure)
           "User" "put" [] quiet tt conditional_failure); try reflexivity.
  discriminate.
Defined.



(** An empty batch is answered at once, [[]] by [batchGet] and [{}] by
    [batchWrite]: nothing is logged and the client is not called. *)
Theorem empty_batch_short_circuit :
  forall (Model : Type) (c : Collaborators Model) t client params,
    batchGet c t client [] params =
      {| outcome := Return (VArray []); events := []; info_written := None |} /\
    batchWrite t client [] params =
      {| outcome := Return []; events := []; info_written := None |}.
Proof. intros. split; reflexivity. Qed.

(** The command [batchGet] hands to [execute]. *)
Lemma batchGet_run {Model : Type} (c : Collaborators Model) t client batch params :
  batch <> [] ->
  let cmd := set_prop "ConsistentRead" (VBool (flag_set (consistent params))) batch in
  let run := execute t client GenericModel "batchGet" cmd no_params params in
  batchGet c t client batch params =
  {| outcome := (result ← outcome run; parse_responses c params result);
     events := events run; info_written := info_written run |}.
Proof. by destruct batch. Qed.

(** C9. For a non-empty batch, [batchGet] dispatches through [execute] with
    the options [{}]: the run is the one of [execute] with no options and the
    caller's [params] as [properties]. Hence the dispatch is logged at level
    'trace', the [info] slot is never filled, the command is prepared without
    looking at [params] (without table metrics it is sent as it is), and a
    failure of the client is re-raised unchanged and logged at level 'error' -
    all of this whatever [params] says, [throw: false] included. [batchWrite]
    forwards [params]: it is [execute] with [params] as the options, so that
    with [throw: false] (and an [info] that is not [null]) a failure yields
    the empty object. *)
Theorem batchGet_ignores_options :
  forall (Model : Type) (c : Collaborators Model) t client batch params,
    batch <> [] ->
    let cmd := set_prop "ConsistentRead" (VBool (flag_set (consistent params))) batch in
    let run := batchGet c t client batch params in
    events run = events (execute t client GenericModel "batchGet" cmd no_params params) /\
    (exists message trace rest,
        events run = Logged "trace" message trace None :: rest /\
        trace_properties trace = params) /\
    info_written run = None /\
    (forall method sent,
        In (ClientCall method sent) (events run) ->
        sent = prepared t no_params cmd /\ (metrics t = false -> sent = cmd)) /\
    (forall err,
        client_answer t client "batchGet" cmd no_params = Throw err ->
        outcome run = Throw err /\
        exists message trace, In (Logged "error" message trace (Some err)) (events run)) /\
    batchWrite t client batch params =
      execute t client GenericModel "batchWrite" batch params [] /\
    (forall err,
        client_answer t client "batchWrite" batch params = Throw err ->
        throw params = Some false ->
        info params <> VNull ->
        outcome (batchWrite t client batch params) = Return []).
Proof.
  intros Model c t client batch params Hbatch cmd run.
  unfold run. rewrite (batchGet_run c t client batch params Hbatch). simpl. fold cmd.
  split; [done|]. split; [|split; [|split; [|split; [|split]]]].
  - unfold execute. destruct (answer _ _ _) as [r|e]; simpl; [by eexists _, _, _|].
    case_bool_decide; simpl; by eexists _, _, _.
  - unfold execute. destruct (answer _ _ _) as [r|e]; simpl; [done|].
    case_bool_decide; simpl; done.
  - intros method sent Hin.
    assert (sent = prepared t no_params cmd) as ->.
    { revert Hin. unfold execute.
      destruct (answer _ _ _) as [r|e]; simpl; rewrite ?andb_false_r; simpl;
        intros [H|H]; try discriminate;
        apply in_app_iff in H as [H|H]; try (by apply called_command in H);
        unfold record_metrics in H; destruct (metrics t); simpl in H;
        intuition discriminate. }
    split; [done|]. intros Hm. unfold prepared. by rewrite Hm.
  - intros err Hfail. unfold execute. unfold client_answer in Hfail. rewrite Hfail.
    rewrite bool_decide_eq_false_2 by done. rewrite andb_false_r.
    rewrite bool_decide_eq_false_2 by done. simpl. split; [done|].
    eexists _, _. right. apply in_app_iff. right. left. reflexivity.
  - by destruct batch.
  - intros err Hfail Hthrow Hinfo. unfold batchWrite.
    destruct batch as [|entry batch]; [done|].
    by apply execute_suppressed with (err := err).
Qed.

Lemma batchGet_ignores_options_witness :
  outcome (batchGet identity_collaborators plain_table (rejecting throttled) sample_batch quiet)
  = Throw throttled /\
  outcome (batchWrite plain_table (rejecting throttled) sample_batch quiet) = Return [].
Proof.
  destruct (batchGet_ignores_options unit identity_collaborators plain_table
              (rejecting throttled) sample_batch quiet)
    as (_ & _ & _ & _ & Hget & _ & Hwrite).
  - discriminate.
  - split.
    + apply (Hget throttled). reflexivity.
    + apply (Hwrite throttled); [reflexivity | reflexivity | discriminate].
Defined.

(** With [throw: false] the same rejection is suppressed by [execute] itself,
    and raised by [batchGet]. *)
Example batchGet_versus_execute :
  outcome (execute plain_table (rejecting throttled) GenericModel "batchGet" sample_batch quiet tt)
  = Return [] /\
  outcome (batchGet identity_collaborators plain_table (rejecting throttled) sample_batch quiet)
  = Throw throttled.
Proof. split; reflexivity. Qed.

End DispatchFacts.

Module CipherFacts.

Import Cipher JsFacts.

Lemma append_nonempty (a b : string) (c : ascii) : a +:+ String c b <> "".
Proof. by destruct a. Qed.

Lemma eqb_nonempty (s : string) : s <> "" -> String.eqb s "" = false.
Proof. intros H. by apply String.eqb_neq. Qed.

Lemma split_nonempty (s : string) : split colon s <> [].
Proof.
  destruct s as [|c s]; simpl; [done|].
  destruct (Ascii.eqb c colon); [done|]. by destruct (split colon s).
Qed.

(** A string without separator is its own single field. *)
Lemma split_colon_free (s : string) : colon_free s = true -> split colon s = [s].
Proof.
  induction s as [|c s IH]; simpl; [done|].
  intros [Hc Hs]%andb_true_iff. apply negb_true_iff in Hc. rewrite Hc.
  by rewrite IH.
Qed.

(** Splitting after a first field that has no separator. *)
Lemma split_field (a b : string) :
  colon_free a = true -> split colon (a +:+ sep +:+ b) = a :: split colon b.
Proof.
  induction a as [|c a IH]; intros Ha.
  - unfold sep. rewrite append_cons. simpl. by rewrite ?Ascii.eqb_refl.
  - simpl in Ha. apply andb_true_iff in Ha as [Hc Ha]. apply negb_true_iff in Hc.
    rewrite append_cons. simpl. rewrite Hc. by rewrite IH.
Qed.

Lemma to_hex_byte_colon_free (b : Byte.byte) : colon_free (to_hex [b]) = true.
Proof. by destruct b. Qed.

Lemma to_hex_colon_free (bytes : list Byte.byte) : colon_free (to_hex bytes) = true.
Proof.
  induction bytes as [|b bytes IH]; [done|].
  pose proof (to_hex_byte_colon_free b) as Hb. simpl in *.
  apply andb_true_iff in Hb as [H1 Hb]. apply andb_true_iff in Hb as [H2 _].
  by rewrite H1, H2, IH.
Qed.

Lemma from_hex_byte (b : Byte.byte) (rest : string) :
  from_hex (to_hex [b] +:+ rest) = b :: from_hex rest.
Proof. by destruct b. Qed.

(** [Buffer.from(iv.toString('hex'), 'hex')] is [iv]. *)
Lemma from_hex_to_hex (bytes : list Byte.byte) : from_hex (to_hex bytes) = bytes.
Proof.
  induction bytes as [|b bytes IH]; [done|].
  change (to_hex (b :: bytes)) with (to_hex [b] +:+ to_hex bytes).
  by rewrite from_hex_byte, IH.
Qed.

Lemma to_hex_nonempty (bytes : list Byte.byte) : bytes <> [] -> to_hex bytes <> "".
Proof. by destruct bytes. Qed.

(** What [initCrypto] installs under a name. *)
Lemma initCrypto_lookup node cfg name c :
  cfg !! name = Some c ->
  initCrypto node cfg !! name =
  Some {| name := name; cipher := config_cipher c; password := config_password c;
          secret := sha256 node (config_password c) |}.
Proof. intros H. unfold initCrypto. by rewrite map_lookup_imap, H. Qed.

Lemma initCrypto_lookup_None node cfg name :
  cfg !! name = None -> initCrypto node cfg !! name = None.
Proof. intros H. unfold initCrypto. by rewrite map_lookup_imap, H. Qed.

Lemma find_installed profiles name crypto :
  profiles !! name = Some crypto -> find profiles name = Installed crypto.
Proof. intros H. unfold find. by rewrite H. Qed.

Lemma find_absent profiles name :
  profiles !! name = None -> inherited name = false -> find profiles name = Absent.
Proof. intros H Hown. unfold find. by rewrite H, Hown. Qed.

Lemma find_inherited profiles name :
  profiles !! name = None -> inherited name = true -> find profiles name = Inherited.
Proof. intros H Hin. unfold find. by rewrite H, Hin. Qed.

(** The token built by [encrypt]. *)
Lemma encrypt_token node profiles iv text name crypto :
  text <> "" ->
  profiles !! name = Some crypto ->
  encrypt node (Some profiles) iv text (Some name) =
  crypted ← encipher node (cipher crypto) (secret crypto) iv text;
  Return (Cipher.name crypto +:+ sep +:+
          (if is_gcm (cipher crypto)
           then auth_tag node (cipher crypto) (secret crypto) iv text else "") +:+ sep +:+
          to_hex iv +:+ sep +:+ crypted).
Proof.
  intros Htext Hname. unfold encrypt. rewrite eqb_nonempty by done. simpl.
  by rewrite (find_installed _ _ _ Hname).
Qed.

(** The fields of a token whose first three fields have no separator. *)
Lemma token_fields (name tag iv data : string) :
  colon_free name = true -> colon_free tag = true -> colon_free iv = true ->
  exists rest,
    split colon (name +:+ sep +:+ tag +:+ sep +:+ iv +:+ sep +:+ data) =
    name :: tag :: iv :: rest /\ split colon data = rest.
Proof.
  intros Hn Ht Hi. exists (split colon data).
  by rewrite !split_field.
Qed.

(** [decrypt] on a text that has a usable fourth field. *)
Lemma decrypt_fields node crypto text name tag iv data rest :
  text <> "" ->
  split colon text = name :: tag :: iv :: data :: rest ->
  name <> "" -> tag <> "" -> iv <> "" -> data <> "" ->
  decrypt node crypto text =
  match crypto with
  | None => Throw (Error "dynamo: No database secret or cipher defined")
  | Some profiles =>
      match find profiles name with
      | Absent => Throw (Error ("dynamo: Database crypto not defined for " +:+ name))
      | Inherited => Throw no_cipher
      | Installed crypto =>
          decipher node (cipher crypto) (secret crypto) (from_hex iv) tag data
      end
  end.
Proof.
  intros Htext Hsplit Hn Ht Hi Hd. unfold decrypt.
  rewrite eqb_nonempty by done. rewrite Hsplit. simpl.
  by rewrite !eqb_nonempty.
Qed.

(** [decrypt] hands back a text one of whose first four fields is missing
    or empty. *)
Lemma decrypt_plain node crypto text (i : nat) :
  (i < 4)%nat -> truthy (split colon text !! i) = false ->
  decrypt node crypto text = Return text.
Proof.
  intros Hi Hfield. unfold decrypt.
  destruct (String.eqb text ""); [done|].
  destruct i as [|[|[|[|i]]]]; [..|lia]; rewrite Hfield; simpl;
    rewrite ?orb_true_r; done.
Qed.

(** C1 (the part that fails). With a profile whose cipher is not a '-gcm'
    cipher, [encrypt] writes an empty tag field; [decrypt] then takes the token
    for plain text and returns the token itself, not the text that was
    encrypted. *)
Theorem decrypt_encrypt_without_gcm :
  forall node cfg name c iv text token,
    text <> "" ->
    cfg !! name = Some c ->
    is_gcm (config_cipher c) = false ->
    colon_free name = true ->
    encrypt node (Some (initCrypto node cfg)) iv text (Some name) = Return token ->
    decrypt node (Some (initCrypto node cfg)) token = Return token /\
    exists crypted,
      encipher node (config_cipher c) (sha256 node (config_password c)) iv text = Return crypted /\
      token = name +:+ sep +:+ "" +:+ sep +:+ to_hex iv +:+ sep +:+ crypted.
Proof.
  intros node cfg name c iv text token Htext Hc Hgcm Hname Henc.
  rewrite (encrypt_token node _ iv text name _ Htext (initCrypto_lookup node cfg name c Hc))
    in Henc.
  simpl in Henc. rewrite Hgcm in Henc.
  destruct (encipher node _ _ iv text) as [crypted|e]; [|done].
  simpl in Henc. injection Henc as <-. split; [|by exists crypted].
  apply decrypt_plain with (i := 1%nat); [lia|].
  rewrite split_field by done.
  by rewrite (split_field "" _ eq_refl).
Qed.

Lemma decrypt_encrypt_without_gcm_witness :
  decrypt toy (Some toy_profiles)
    "legacy::2a2a2a2a2a2a2a2a2a2a2a2a2a2a2a2a:736563726574"
  = Return "legacy::2a2a2a2a2a2a2a2a2a2a2a2a2a2a2a2a:736563726574".
Proof.
  apply (decrypt_encrypt_without_gcm toy
           (<["primary" := {| config_cipher := "aes-256-gcm"; config_password := "pw1" |}]>
              (<["legacy" := {| config_cipher := "aes-256-cbc"; config_password := "pw0" |}]> ∅))
           "legacy" {| config_cipher := "aes-256-cbc"; config_password := "pw0" |}
           toy_iv "secret").
  - discriminate.
  - reflexivity.
  - reflexivity.
  - reflexivity.
  - vm_compute. reflexivity.
Defined.

(** The round trip on the sample profiles: it succeeds with the '-gcm'
    profile and fails with the other one. *)
Example round_trip_sample :
  (token ← encrypt toy (Some toy_profiles) toy_iv "secret" (Some "primary");
   decrypt toy (Some toy_profiles) token) = Return "secret" /\
  (token ← encrypt toy (Some toy_profiles) toy_iv "secret" (Some "legacy");
   decrypt toy (Some toy_profiles) token) <> Return "secret".
Proof. split; vm_compute; [reflexivity | discriminate]. Qed.

(** The round trip with a '-gcm' profile: when the cipher produced a
    non-empty cipher text and tag in an encoding without the separator, and
    deciphering that cipher text under that tag gives the plain text back,
    [decrypt] undoes [encrypt]. *)
Theorem decrypt_encrypt_gcm :
  forall node cfg name c iv text crypted,
    let key := sha256 node (config_password c) in
    let tag := auth_tag node (config_cipher c) key iv text in
    text <> "" ->
    cfg !! name = Some c ->
    is_gcm (config_cipher c) = true ->
    name <> "" -> colon_free name = true ->
    iv <> [] ->
    encipher node (config_cipher c) key iv text = Return crypted ->
    crypted <> "" -> colon_free crypted = true ->
    tag <> "" -> colon_free tag = true ->
    decipher node (config_cipher c) key iv tag crypted = Return text ->
    (token ← encrypt node (Some (initCrypto node cfg)) iv text (Some name);
     decrypt node (Some (initCrypto node cfg)) token) = Return text.
Proof.
  intros node cfg name c iv text crypted key tag Htext Hc Hgcm Hname Hfree Hiv Henc
    Hcrypted Hcfree Htag Htfree Hdec.
  pose proof (initCrypto_lookup node cfg name c Hc) as Hlookup.
  rewrite (encrypt_token node _ iv text name _ Htext Hlookup).
  simpl. fold key. rewrite Henc, Hgcm. simpl. fold tag.
  rewrite (decrypt_fields node _ _ name tag (to_hex iv) crypted []).
  - rewrite (find_installed _ _ _ Hlookup). simpl. fold key. by rewrite from_hex_to_hex.
  - apply append_nonempty.
  - rewrite !split_field by (done || apply to_hex_colon_free).
    by rewrite split_colon_free.
  - done.
  - done.
  - by apply to_hex_nonempty.
  - done.
Qed.

Lemma toy_round_trip (text : string) :
  string_of_list_byte (from_hex (to_hex (list_byte_of_string text))) = text.
Proof. by rewrite from_hex_to_hex, string_of_list_byte_of_string. Qed.

Lemma decrypt_encrypt_gcm_witness :
  (token ← encrypt toy (Some toy_profiles) toy_iv "secret" (Some "primary");
   decrypt toy (Some toy_profiles) token) = Return "secret".
Proof.
  apply (decrypt_encrypt_gcm toy
           (<["primary" := {| config_cipher := "aes-256-gcm"; config_password := "pw1" |}]>
              (<["legacy" := {| config_cipher := "aes-256-cbc"; config_password := "pw0" |}]> ∅))
           "primary" {| config_cipher := "aes-256-gcm"; config_password := "pw1" |}
           toy_iv "secret" (to_hex (list_byte_of_string "secret")));
    try discriminate; try reflexivity.
Defined.

(** C5 as stated fails: a text with five fields is not handed back. *)
Lemma decrypt_five_fields :
  "a:b:c:d:e" <> "" /\
  length (split colon "a:b:c:d:e") <> 4%nat /\
  decrypt toy (Some toy_profiles) "a:b:c:d:e" <> Return "a:b:c:d:e".
Proof. split; [done|]. split; [vm_compute; lia|]. vm_compute. discriminate. Qed.

(** C5, amended. [decrypt] returns its argument unchanged when the split
    yields fewer than four fields. *)
Theorem decrypt_returns_plain_text :
  forall node crypto token,
    (length (split colon token) < 4)%nat ->
    decrypt node crypto token = Return token.
Proof.
  intros node crypto token Hshort.
  apply decrypt_plain with (i := 3%nat); [lia|].
  rewrite lookup_ge_None_2 by lia. done.
Qed.

Lemma decrypt_returns_plain_text_witness :
  decrypt toy (Some toy_profiles) "plainvalue" = Return "plainvalue".
Proof.
  apply (decrypt_returns_plain_text toy (Some toy_profiles) "plainvalue").
  vm_compute. lia.
Defined.

(** The same holds when one of the first four fields is empty, however many
    fields there are. *)
Lemma decrypt_empty_field node crypto token (i : nat) :
  (i < 4)%nat -> split colon token !! i = Some "" ->
  decrypt node crypto token = Return token.
Proof. intros Hi Hempty. apply decrypt_plain with (i := i); [done|]. by rewrite Hempty. Qed.

(** A text with more than four fields is treated like the token made of its
    first four fields: the fields after the fourth are ignored. *)
Lemma decrypt_ignores_extra_fields node crypto name tag iv data rest :
  colon_free name = true -> colon_free tag = true -> colon_free iv = true ->
  colon_free data = true ->
  name <> "" -> tag <> "" -> iv <> "" -> data <> "" ->
  decrypt node crypto (name +:+ sep +:+ tag +:+ sep +:+ iv +:+ sep +:+ data +:+ sep +:+ rest) =
  decrypt node crypto (name +:+ sep +:+ tag +:+ sep +:+ iv +:+ sep +:+ data).
Proof.
  intros Hn Ht Hi Hd Hn' Ht' Hi' Hd'.
  rewrite (decrypt_fields node crypto _ name tag iv data (split colon rest));
    [|apply append_nonempty|by rewrite !split_field|done..].
  rewrite (decrypt_fields node crypto _ name tag iv data []);
    [done|apply append_nonempty| |done..].
  rewrite !split_field by done. by rewrite split_colon_free.
Qed.

(** C6 as stated fails: a well-formed token that names a profile that is
    not installed is not handed back; an error is raised. *)
Lemma decrypt_unknown_profile :
  split colon "old:dGFn:2a2a:736563726574" = ["old"; "dGFn"; "2a2a"; "736563726574"] /\
  toy_profiles !! "old" = None /\
  decrypt toy (Some toy_profiles) "old:dGFn:2a2a:736563726574"
  = Throw (Error "dynamo: Database crypto not defined for old").
Proof. split; [|split]; vm_compute; reflexivity. Qed.

(** C6, amended. On a token with four non-empty fields whose first field
    names a profile that is not installed, and that is not the name of a
    member of [Object.prototype], [decrypt] raises an error:
    'Database crypto not defined for' that name, or 'No database secret or
    cipher defined' when no profiles were installed at all. *)
Theorem decrypt_unknown_profile_raises :
  forall node crypto token name tag iv data,
    split colon token = [name; tag; iv; data] ->
    name <> "" -> tag <> "" -> iv <> "" -> data <> "" ->
    match crypto with
    | Some profiles => profiles !! name = None /\ inherited name = false
    | None => True
    end ->
    decrypt node crypto token =
    Throw (Error match crypto with
                 | Some _ => "dynamo: Database crypto not defined for " +:+ name
                 | None => "dynamo: No database secret or cipher defined"
                 end).
Proof.
  intros node crypto token name tag iv data Hsplit Hn Ht Hi Hd Hmissing.
  rewrite (decrypt_fields node crypto token name tag iv data []); try done.
  - destruct crypto as [profiles|]; [|done]. destruct Hmissing as [Hnone Hown].
    by rewrite (find_absent _ _ Hnone Hown).
  - intros ->. simpl in Hsplit. discriminate.
Qed.

Lemma decrypt_unknown_profile_raises_witness :
  decrypt toy (Some toy_profiles) "old:dGFn:2a2a:736563726574"
  = Throw (Error ("dynamo: Database crypto not defined for " +:+ "old")).
Proof.
  apply (decrypt_unknown_profile_raises toy (Some toy_profiles)
           "old:dGFn:2a2a:736563726574" "old" "dGFn" "2a2a" "736563726574");
    try discriminate; vm_compute; try reflexivity.
  split; reflexivity.
Defined.

(** A first field that names a member of [Object.prototype] passes the test
    of line 657 although no such profile is installed: the token is not handed
    back either, and what is raised is the [TypeError] of Node's
    [createDecipheriv], which is given no cipher. [encrypt] behaves alike. *)
Lemma decrypt_inherited_name node profiles token name tag iv data :
  split colon token = [name; tag; iv; data] ->
  name <> "" -> tag <> "" -> iv <> "" -> data <> "" ->
  profiles !! name = None -> inherited name = true ->
  decrypt node (Some profiles) token = Throw no_cipher.
Proof.
  intros Hsplit Hn Ht Hi Hd Hnone Hin.
  rewrite (decrypt_fields node (Some profiles) token name tag iv data []); try done.
  - by rewrite (find_inherited _ _ Hnone Hin).
  - intros ->. simpl in Hsplit. discriminate.
Qed.

Lemma encrypt_inherited_name node profiles iv text name :
  text <> "" -> profiles !! name = None -> inherited name = true ->
  encrypt node (Some profiles) iv text (Some name) = Throw no_cipher.
Proof.
  intros Htext Hnone Hin. unfold encrypt. rewrite eqb_nonempty by done. simpl.
  by rewrite (find_inherited _ _ Hnone Hin).
Qed.

Lemma decrypt_inherited_name_witness :
  decrypt toy (Some toy_profiles) "toString:dGFn:2a2a:736563726574" = Throw no_cipher.
Proof.
  apply (decrypt_inherited_name toy toy_profiles "toString:dGFn:2a2a:736563726574"
           "toString" "dGFn" "2a2a" "736563726574"); try discriminate; reflexivity.
Defined.

Example decrypt_constructor :
  decrypt toy (Some toy_profiles) "constructor:dGFn:2a2a:736563726574" = Throw no_cipher.
Proof. vm_compute. reflexivity. Qed.

End CipherFacts.
Module MarshallFacts.

Import Marshall.

(** Writing a property that occurs once in the object replaces its value in
    place. *)
Lemma set_prop_middle key v w (before after : list (string * value)) :
  ~ In key (map fst before) ->
  set_prop key w (before ++ (key, v) :: after) = before ++ (key, w) :: after.
Proof.
  induction before as [|[k x] before IH]; simpl; intros Hfresh.
  - by rewrite String.eqb_refl.
  - destruct (String.eqb_spec k key) as [->|_]; [tauto|].
    rewrite IH; [done | tauto].
Qed.

Lemma get_prop_In key v (props : list (string * value)) :
  NoDup (map fst props) -> In (key, v) props -> get_prop key props = v.
Proof.
  induction props as [|[k x] props IH]; simpl; [done|].
  intros [Hk Hnd]%NoDup_cons [[= -> ->]|Hin].
  - by rewrite String.eqb_refl.
  - destruct (String.eqb_spec k key) as [->|_]; [|by apply IH].
    destruct Hk. apply list_elem_of_In, in_map_iff. by exists (key, v).
Qed.

Lemma get_prop_absent key (props : list (string * value)) :
  ~ In key (map fst props) -> get_prop key props = VUndefined.
Proof.
  induction props as [|[k x] props IH]; simpl; [done|].
  intros Hfresh. destruct (String.eqb_spec k key) as [->|_]; [tauto|].
  apply IH. tauto.
Qed.

Lemma get_prop_present key (props : list (string * value)) :
  In key (map fst props) -> In (key, get_prop key props) props.
Proof.
  induction props as [|[k x] props IH]; simpl; [done|].
  destruct (String.eqb_spec k key) as [->|Hne]; [by left|].
  intros [?|Hin]; [done|]. right. by apply IH.
Qed.

(** ** Loops that convert the properties of an object in place *)

Section Loop.

Variable convert : value -> completion (option value).

Lemma rewritten_keys props : map fst (rewritten convert props).1 = map fst props.
Proof.
  induction props as [|[k v] props IH]; simpl; [done|].
  destruct (convert v) as [o|e]; [|done].
  destruct (rewritten convert props) as [rest r]. simpl in *. by rewrite IH.
Qed.

(** A property either keeps its value or holds what [convert] made of it. *)
Lemma rewritten_frame props key :
  get_prop key (rewritten convert props).1 = get_prop key props \/
  exists w, convert (get_prop key props) = Return (Some w) /\
            get_prop key (rewritten convert props).1 = w.
Proof.
  induction props as [|[k v] props IH]; simpl; [by left|].
  destruct (convert v) as [o|e] eqn:Hv; [|by left].
  destruct (rewritten convert props) as [rest r]. simpl in *.
  destruct (String.eqb k key); [|done].
  destruct o as [w|]; [right; by exists w | by left].
Qed.

(** A loop that ends normally converted every property. *)
Lemma rewritten_returns props :
  (rewritten convert props).2 = Return tt ->
  NoDup (map fst props) ->
  forall key v, In (key, v) props ->
    exists o, convert v = Return o /\
              get_prop key (rewritten convert props).1 = default v o.
Proof.
  induction props as [|[k x] props IH]; simpl; [done|].
  destruct (convert x) as [o|e] eqn:Hx; [|done].
  pose proof (rewritten_keys props) as Hkeys.
  destruct (rewritten convert props) as [rest r]. simpl in *.
  intros Hr [Hk Hnd]%NoDup_cons key v [[= -> ->]|Hin].
  - exists o. by rewrite String.eqb_refl.
  - destruct (String.eqb_spec k key) as [->|_]; [|by apply IH].
    destruct Hk. apply list_elem_of_In, in_map_iff. by exists (key, v).
Qed.

(** The exception of the loop is the one of a conversion. *)
Lemma rewritten_throws props e :
  (rewritten convert props).2 = Throw e ->
  exists key v, In (key, v) props /\ convert v = Throw e.
Proof.
  induction props as [|[k x] props IH]; simpl; [done|].
  destruct (convert x) as [o|e'] eqn:Hx.
  - destruct (rewritten convert props) as [rest r]. simpl in *.
    intros Hr. destruct (IH Hr) as (key & v & Hin & Hv). eauto.
  - simpl. intros [= ->]. eauto.
Qed.

Variable item : nat.
Variable body : store -> string * value -> store * completion unit.

Hypothesis body_converts :
  forall h e, body h e =
              match convert (snd e) with
              | Return (Some w) => (assign item (fst e) w h, Return tt)
              | Return None => (h, Return tt)
              | Throw e' => (h, Throw e')
              end.

(** The loop changes the store at [item] only, where the properties are
    the rewritten ones. [seen] are the entries already visited. *)
Lemma each_rewritten (todo seen : list (string * value)) (h : store) :
  NoDup (map fst (seen ++ todo)) ->
  h !! item = Some (seen ++ todo) ->
  each body todo h =
  (<[item := seen ++ (rewritten convert todo).1]> h, (rewritten convert todo).2).
Proof using body_converts.
  revert seen h. induction todo as [|[k v] todo IH]; intros seen h Hnd Hh; simpl.
  - rewrite app_nil_r in *. by rewrite insert_id.
  - assert (~ In k (map fst seen)) as Hfresh.
    { rewrite map_app in Hnd. apply NoDup_app in Hnd as (_ & Hnd & _).
      intros Hin. apply (Hnd k); [by apply list_elem_of_In | left]. }
    rewrite body_converts. simpl. destruct (convert v) as [[w|]|e] eqn:Hv.
    + unfold assign. rewrite Hh, set_prop_middle by done.
      rewrite (IH (seen ++ [(k, w)])).
      * rewrite insert_insert_eq. destruct (rewritten convert todo) as [rest r]. simpl.
        by rewrite <- app_assoc.
      * rewrite <- app_assoc. simpl. rewrite !map_app in *. done.
      * rewrite lookup_insert_eq. by rewrite <- app_assoc.
    + rewrite (IH (seen ++ [(k, v)])).
      * destruct (rewritten convert todo) as [rest r]. simpl. by rewrite <- app_assoc.
      * by rewrite <- app_assoc.
      * by rewrite <- app_assoc.
    + simpl. by rewrite insert_id.
Qed.

End Loop.

Lemma marshall_entry_converts b item h e :
  marshall_entry b item h e =
  match marshalled b (snd e) with
  | Return (Some w) => (assign item (fst e) w h, Return tt)
  | Return None => (h, Return tt)
  | Throw e' => (h, Throw e')
  end.
Proof.
  unfold marshall_entry, marshalled. destruct (set_instance (snd e)); [|done].
  by destruct (createSet b l).
Qed.

Lemma unmarshall_entry_converts b item h e :
  unmarshall_entry b item h e =
  match unmarshalled b (snd e) with
  | Return (Some w) => (assign item (fst e) w h, Return tt)
  | Return None => (h, Return tt)
  | Throw e' => (h, Throw e')
  end.
Proof.
  unfold unmarshall_entry, unmarshalled.
  destruct (set_wrapper (snd e)) as [[elems|]|e']; simpl; try done.
  by destruct (members_of b (snd e) elems).
Qed.

(** [marshallv2] changes the store at its argument only, where the
    properties are the rewritten ones, and returns that argument unless a
    conversion raised. *)
Lemma marshallv2_spec b h item props :
  h !! item = Some props -> NoDup (map fst props) ->
  marshallv2 b h item =
  (<[item := (rewritten (marshalled b) props).1]> h,
   (rewritten (marshalled b) props).2 ≫= fun _ => Return item).
Proof.
  intros Hitem Hnd. unfold marshallv2. rewrite Hitem.
  by rewrite (each_rewritten (marshalled b) item (marshall_entry b item)
                (marshall_entry_converts b item) props [] h Hnd Hitem).
Qed.

Lemma unmarshallv2_spec b h item props :
  h !! item = Some props -> NoDup (map fst props) ->
  unmarshallv2 b h item =
  (<[item := (rewritten (unmarshalled b) props).1]> h,
   (rewritten (unmarshalled b) props).2 ≫= fun _ => Return item).
Proof.
  intros Hitem Hnd. unfold unmarshallv2. rewrite Hitem.
  by rewrite (each_rewritten (unmarshalled b) item (unmarshall_entry b item)
                (unmarshall_entry_converts b item) props [] h Hnd Hitem).
Qed.

(** What [unmarshalled] and [marshalled] store. *)
Lemma unmarshalled_Some b v w :
  unmarshalled b v = Return (Some w) ->
  exists elems members,
    set_wrapper v = Return (Some elems) /\ members_of b v elems = Return members /\
    w = new_Set members.
Proof.
  unfold unmarshalled. destruct (set_wrapper v) as [[elems|]|e]; simpl; try done.
  destruct (members_of b v elems) as [members|e] eqn:Hm; simpl; [|done].
  intros [= <-]. by exists elems, members.
Qed.

Lemma unmarshalled_wrapper b v elems o :
  set_wrapper v = Return (Some elems) -> unmarshalled b v = Return o ->
  exists members, members_of b v elems = Return members /\ o = Some (new_Set members).
Proof.
  unfold unmarshalled. intros ->. simpl.
  destruct (members_of b v elems) as [members|e]; simpl; [|done].
  intros [= <-]. by exists members.
Qed.

Lemma marshalled_Some b v w :
  marshalled b v = Return (Some w) ->
  exists elems, v = VSet elems /\ createSet b elems = Return w.
Proof.
  unfold marshalled. destruct v; simpl; try done.
  destruct (createSet b elems) as [x|e] eqn:Hx; simpl; [|done].
  intros [= <-]. by exists elems.
Qed.

Lemma marshalled_throws b v e :
  marshalled b v = Throw e -> exists elems, v = VSet elems /\ createSet b elems = Throw e.
Proof.
  unfold marshalled. destruct v; simpl; try done.
  destruct (createSet b elems) as [x|e'] eqn:Hx; simpl; [done|].
  intros [= <-]. by exists elems.
Qed.

Lemma completes_with {A B : Type} (r : completion A) (b : B) :
  r ≫= (fun _ => Return b) = Return b \/ exists e, r = Throw e /\ r ≫= (fun _ => Return b) = Throw e.
Proof. destruct r as [a|e]; [by left | right; by exists e]. Qed.

Lemma completes_inv {A B : Type} (r : completion A) (b : B) :
  r ≫= (fun _ => Return b) = Return b -> exists a, r = Return a.
Proof. destruct r as [a|e]; [by exists a | done]. Qed.



(** The sample item after [unmarshallv2]. *)
Example unmarshallv2_sample :
  unmarshallv2 toy_builtins {[ 7%nat := toy_item ]} 7 =
  ({[ 7%nat := [("id", VString "42");
                ("tags", VSet [VString "a"; VString "b"]);
                ("roles", VSet [VString "x"; VString "y"]);
                ("count", VNumber 3)] ]}, Return 7%nat).
Proof.
  rewrite (unmarshallv2_spec toy_builtins _ 7%nat toy_item).
  - by rewrite insert_singleton_eq.
  - reflexivity.
  - compute_done.
Qed.

(** The comparison of line 741 is the loose one: a [wrapperName] that is the
    array [['Set']] passes it, and the property becomes a [Set]. *)
Example unmarshallv2_loose_name :
  unmarshallv2 toy_builtins {[ 7%nat := loose_item ]} 7 =
  ({[ 7%nat := [("tags", VSet [VNumber 1; VNumber 2])] ]}, Return 7%nat).
Proof.
  rewrite (unmarshallv2_spec toy_builtins _ 7%nat loose_item).
  - by rewrite insert_singleton_eq.
  - reflexivity.
  - compute_done.
Qed.

(** A [wrapperName] without a string form stops the loop: the properties
    before it are converted, those after it are not, and the [TypeError] is
    the outcome. *)
Example unmarshallv2_opaque_name :
  unmarshallv2 toy_builtins {[ 7%nat := opaque_item ]} 7 =
  ({[ 7%nat := [("tags", VSet [VNumber 1]);
                ("odd", VObject [("wrapperName", VObject [("toString", VNumber 1)]);
                                 ("values", VArray [])]);
                ("roles", VObject [("wrapperName", VString "Set");
                                   ("values", VArray [VNumber 2])])] ]},
   Throw (TypeError "Cannot convert object to primitive value")).
Proof.
  rewrite (unmarshallv2_spec toy_builtins _ 7%nat opaque_item).
  - by rewrite insert_singleton_eq.
  - reflexivity.
  - compute_done.
Qed.

End MarshallFacts.

Module MergeFacts.

Import Merge.

Lemma total_ret {A : Type} (a : A) : total (ret a).
Proof. intros h. by eexists. Qed.

Lemma total_raise {A : Type} (e : exn) : total (raise (A := A) e).
Proof. intros h. by eexists. Qed.

Lemma total_bind {A B : Type} (m : M A) (k : A -> M B) :
  total m -> (forall a, total (k a)) -> total (bind m k).
Proof.
  intros Hm Hk h. unfold bind. destruct (Hm h) as [[h' [a|e]] ->]; [apply Hk | by eexists].
Qed.

Lemma total_for_each {A : Type} (body : A -> M unit) (l : list A) :
  (forall a, total (body a)) -> total (for_each body l).
Proof.
  intros Hbody. induction l as [|a l IH]; simpl; [apply total_ret|].
  apply total_bind; auto.
Qed.

Lemma total_entries src : total (entries src).
Proof.
  intros h. unfold entries. destruct src; try (by eexists).
  destruct (h !! address); by eexists.
Qed.

Lemma total_read dest key : total (read dest key).
Proof.
  intros h. unfold read. destruct dest; try (by eexists).
  destruct (h !! address); by eexists.
Qed.

Lemma total_write dest key v : total (write dest key v).
Proof.
  intros h. unfold write. destruct dest; try (by eexists).
  destruct (h !! address); by eexists.
Qed.

Lemma total_alloc k : total (alloc k).
Proof. intros h. by eexists. Qed.

Lemma total_isArray v : total (isArray v).
Proof. intros h. by eexists. Qed.

Lemma total_select v : total (select v).
Proof. intros h. by eexists. Qed.

Lemma total_typeof_object v : total (typeof_object v).
Proof. intros h. by eexists. Qed.

Create HintDb total.

#[local] Hint Resolve total_ret total_raise total_entries total_read total_write
  total_alloc total_isArray total_select total_typeof_object : total.

Ltac total_steps :=
  repeat first
    [ apply total_bind; [auto with total | intros ?]
    | match goal with |- total (if ?c then _ else _) => destruct c end
    | progress auto with total ].

(** The body of the loop completes as soon as the recursive call does. *)
Lemma total_merge_entry self dest entry :
  (forall d s, total (self d s)) -> total (merge_entry self dest entry).
Proof.
  intros Hself. destruct entry as [key value]. unfold merge_entry.
  apply total_bind; [auto with total|]. intros b.
  destruct b; total_steps.
Qed.

(** [mergeOne] completes whenever it is given one unit of fuel per level
    that the guard of line 754 lets through. *)
Lemma mergeOne_total fuel :
  forall recurse dest src,
    (0 < fuel)%nat -> (52 <= fuel + recurse)%nat ->
    total (mergeOne fuel recurse dest src).
Proof.
  induction fuel as [|fuel IH]; intros recurse dest src Hpos Hfuel; [lia|].
  simpl. destruct (50 <? recurse)%nat eqn:Hguard; [apply total_raise|].
  apply Nat.ltb_ge in Hguard.
  apply total_bind; [apply total_entries|]. intros snapshot.
  apply total_bind; [|intros; apply total_ret].
  apply total_for_each. intros entry. apply total_merge_entry.
  intros d s. apply IH; lia.
Qed.

Lemma merge_total dest sources : total (merge dest sources).
Proof.
  revert dest. induction sources as [|src sources IH]; intros dest; cbn [merge].
  - apply total_ret.
  - apply total_bind; [|auto]. apply mergeOne_total; unfold depth_bound; lia.
Qed.

(** The guard of line 754. *)
Lemma mergeOne_guard fuel recurse dest src h :
  (50 < recurse)%nat ->
  mergeOne (S fuel) recurse dest src h = Some (h, Throw (Error "Recursive clone")).
Proof. intros H. simpl. apply Nat.ltb_lt in H. by rewrite H. Qed.

Lemma chain_length d a : length (chain d a) = S d.
Proof. revert a. induction d as [|d IH]; intros a; simpl; [done | by rewrite IH]. Qed.

Lemma chain_lookup_link d a i :
  (i < d)%nat ->
  chain d a !! i = Some {| kind_of := Plain; props := [("a", Ref (S (a + i)))] |}.
Proof.
  revert a i. induction d as [|d IH]; intros a i Hi; [lia|].
  destruct i as [|i]; simpl.
  - by rewrite Nat.add_0_r.
  - rewrite IH by lia. do 4 f_equal. f_equal. lia.
Qed.

Lemma chain_lookup_leaf d a :
  chain d a !! d = Some {| kind_of := Plain; props := [("leaf", Number 0)] |}.
Proof. revert a. induction d as [|d IH]; intros a; simpl; [done | apply IH]. Qed.

(** Entering a nested plain object [y] from an empty destination [x]: a
    fresh destination is allocated at the end of the heap and linked under
    [key], the recursive call works on it, and its result is stored. *)
Lemma merge_entry_enter self key x y h :
  h !! x = Some {| kind_of := Plain; props := [] |} ->
  kind_at h (Ref y) = Some Plain ->
  merge_entry self (Ref x) (key, Ref y) h =
  match self (Ref (length h)) (Ref y)
          (<[x := {| kind_of := Plain; props := [(key, Ref (length h))] |}]>
             (h ++ [{| kind_of := Plain; props := [] |}])) with
  | None => None
  | Some (h', Return merged) => write (Ref x) key merged h'
  | Some (h', Throw e) => Some (h', Throw e)
  end.
Proof.
  intros Hdest Hkind.
  assert (x < length h)%nat as Hx by (by apply lookup_lt_Some in Hdest).
  set (fresh := {| kind_of := Plain; props := [] |}) in *.
  set (linked := {| kind_of := Plain; props := [(key, Ref (length h))] |}).
  assert (read (Ref x) key h = Some (h, Return Undefined)) as Hread
    by (unfold read; by rewrite Hdest).
  assert (write (Ref x) key (Ref (length h)) (h ++ [fresh])
          = Some (<[x := linked]> (h ++ [fresh]), Return ())) as Hwrite.
  { unfold write. rewrite lookup_app_l by done. by rewrite Hdest. }
  assert (read (Ref x) key (<[x := linked]> (h ++ [fresh]))
          = Some (<[x := linked]> (h ++ [fresh]), Return (Ref (length h)))) as Hread'.
  { unfold read. rewrite list_lookup_insert_eq by (rewrite length_app; simpl; lia).
    simpl. by rewrite String.eqb_refl. }
  unfold merge_entry, bind, select. rewrite Hkind, Hread.
  unfold typeof_object, alloc. fold fresh. rewrite Hwrite, Hread'. done.
Qed.

Lemma kind_at_Some h y k : kind_at h (Ref y) = Some k -> (y < length h)%nat.
Proof.
  unfold kind_at. destruct (h !! y) eqn:Hy; [|done].
  intros _. by apply lookup_lt_Some in Hy.
Qed.

Lemma descending_kind path key x h i :
  descending path key x h -> (i <= 51)%nat -> kind_at h (Ref (path i)) = Some Plain.
Proof.
  intros Hd Hi. destruct (decide (i = 51%nat)) as [->|Hne].
  - apply (descending_last _ _ _ _ Hd).
  - destruct (descending_link _ _ _ _ Hd i ltac:(lia)) as (rest & Hsrc).
    unfold kind_at. by rewrite Hsrc.
Qed.

Lemma descending_enter path key x h :
  descending path key x h ->
  descending path key (length h)
    (<[x := {| kind_of := Plain; props := [(key, Ref (length h))] |}]>
       (h ++ [{| kind_of := Plain; props := [] |}])).
Proof.
  intros Hd. pose proof Hd as [Hkey Hlink Hlast Hdest Hapart].
  assert (x < length h)%nat as Hx by (by apply lookup_lt_Some in Hdest).
  assert (forall i, (i <= 51)%nat -> (path i < length h)%nat) as Hin.
  { intros i Hi. apply (kind_at_Some h (path i) Plain). by apply (descending_kind path key x). }
  split.
  - done.
  - intros i Hi. destruct (Hlink i Hi) as (rest & Hi').
    exists rest. rewrite list_lookup_insert_ne by (apply not_eq_sym, Hapart; lia).
    rewrite lookup_app_l by (apply Hin; lia). done.
  - unfold kind_at in *. rewrite list_lookup_insert_ne by (apply not_eq_sym, Hapart; lia).
    rewrite lookup_app_l by (apply Hin; lia). done.
  - rewrite list_lookup_insert_ne by lia.
    rewrite lookup_app_r by lia. by rewrite Nat.sub_diag.
  - intros i Hi. specialize (Hin i Hi). lia.
Qed.

(** Along a descent of 51 levels, the invocation for level [recurse] of the
    path raises, because the one for level 51 does. *)
Lemma mergeOne_descent_raises path key (gap : nat) :
  forall recurse fuel x h,
    (recurse + gap = 51)%nat -> (gap < fuel)%nat ->
    descending path key x h ->
    exists h', mergeOne fuel recurse (Ref x) (Ref (path recurse)) h
               = Some (h', Throw (Error "Recursive clone")).
Proof.
  induction gap as [|gap IH]; intros recurse fuel x h Hgap Hfuel Hd.
  - destruct fuel as [|fuel]; [lia|]. exists h. simpl.
    replace recurse with 51%nat by lia. done.
  - destruct fuel as [|fuel]; [lia|].
    cbn [mergeOne]. replace (50 <? recurse)%nat with false
      by (symmetry; apply Nat.ltb_ge; lia).
    destruct (descending_link _ _ _ _ Hd recurse ltac:(lia)) as (rest & Hsrc).
    pose proof (descending_kind path key x h (S recurse) Hd ltac:(lia)) as Hnext.
    assert (entries (Ref (path recurse)) h
            = Some (h, Return ((key, Ref (path (S recurse))) :: rest))) as Hentries.
    { unfold entries. by rewrite Hsrc. }
    unfold bind at 1. rewrite Hentries. cbn [for_each].
    unfold bind at 1. unfold bind at 1.
    rewrite (merge_entry_enter _ key x (path (S recurse)) h);
      [|apply (descending_dest _ _ _ _ Hd)|done].
    destruct (IH (recurse + 1)%nat fuel (length h) _ ltac:(lia) ltac:(lia)
                (descending_enter path key x h Hd)) as [h' Hh'].
    replace (S recurse) with (recurse + 1)%nat by lia.
    rewrite Hh'. by exists h'.
Qed.

(** Merging into an empty object a source from which 51 nested objects can
    be entered, one inside the other, raises 'Recursive clone'. *)
Lemma merge_descent_raises path key x h :
  descending path key x h ->
  exists h', merge (Ref x) [Ref (path 0%nat)] h = Some (h', Throw (Error "Recursive clone")).
Proof.
  intros Hd. cbn [merge]. unfold bind.
  destruct (mergeOne_descent_raises path key 51 0%nat depth_bound x h) as [h' Hh'];
    [lia | unfold depth_bound; lia | done |].
  rewrite Hh'. by exists h'.
Qed.

Lemma descending_cyclic : descending (fun _ => 1%nat) "self" 0 cyclic_heap.
Proof.
  split.
  - done.
  - intros i _. by eexists.
  - done.
  - done.
  - intros i _. simpl. lia.
Qed.

Lemma descending_nested depth :
  (51 <= depth)%nat -> descending S "a" 0 (nested_heap depth).
Proof.
  intros Hdepth. split.
  - done.
  - intros i Hi. exists []. unfold nested_heap. simpl.
    rewrite chain_lookup_link by lia. done.
  - unfold kind_at, nested_heap. simpl.
    destruct (decide (depth = 51%nat)) as [->|Hne].
    + by rewrite chain_lookup_leaf.
    + by rewrite chain_lookup_link by lia.
  - done.
  - intros i _. lia.
Qed.

Lemma merging_start depth : merging depth 0 (nested_heap depth).
Proof.
  split; [done| |done|by left].
  unfold nested_heap. simpl. rewrite chain_length. lia.
Qed.

Lemma merging_enter depth x h :
  merging depth x h ->
  merging depth (length h)
    (<[x := {| kind_of := Plain; props := [("a", Ref (length h))] |}]>
       (h ++ [{| kind_of := Plain; props := [] |}])).
Proof.
  intros [Hchain Hsize Hdest Hout].
  assert (x < length h)%nat as Hx by (by apply lookup_lt_Some in Hdest).
  split.
  - intros i Hi. rewrite list_lookup_insert_ne by lia.
    rewrite lookup_app_l by lia. by apply Hchain.
  - rewrite length_insert, length_app. simpl. lia.
  - rewrite list_lookup_insert_ne by lia.
    rewrite lookup_app_r by lia. by rewrite Nat.sub_diag.
  - right. lia.
Qed.

(** A chain of at most 50 levels is merged: every level returns its
    destination. *)
Lemma mergeOne_chain_returns depth (remaining : nat) :
  (depth <= 50)%nat ->
  forall recurse fuel x h,
    (recurse + remaining = depth)%nat -> (remaining < fuel)%nat ->
    merging depth x h ->
    exists h', mergeOne fuel recurse (Ref x) (Ref (S recurse)) h = Some (h', Return (Ref x)) /\
               (length h <= length h')%nat.
Proof.
  intros Hdepth. induction remaining as [|remaining IH]; intros recurse fuel x h Hrem Hfuel Hm;
    (destruct fuel as [|fuel]; [lia|]);
    cbn [mergeOne];
    (replace (50 <? recurse)%nat with false by (symmetry; apply Nat.ltb_ge; lia)).
  - assert (entries (Ref (S recurse)) h = Some (h, Return [("leaf", Number 0)])) as Hentries.
    { unfold entries. rewrite (merging_chain _ _ _ Hm) by lia.
      replace recurse with depth by lia. by rewrite chain_lookup_leaf. }
    unfold bind at 1. rewrite Hentries. cbn [for_each].
    unfold merge_entry, select, write, ret, bind. rewrite (merging_dest _ _ _ Hm).
    eexists. split; [done|]. by rewrite length_insert.
  - assert (entries (Ref (S recurse)) h
            = Some (h, Return [("a", Ref (S (S recurse)))])) as Hentries.
    { unfold entries. rewrite (merging_chain _ _ _ Hm) by lia.
      rewrite chain_lookup_link by lia. done. }
    assert (kind_at h (Ref (S (S recurse))) = Some Plain) as Hkind.
    { unfold kind_at. rewrite (merging_chain _ _ _ Hm) by lia.
      destruct (decide (S recurse = depth)) as [<-|Hne].
      - by rewrite chain_lookup_leaf.
      - by rewrite chain_lookup_link by lia. }
    unfold bind at 1. rewrite Hentries. cbn [for_each].
    unfold bind at 1. unfold bind at 1.
    rewrite (merge_entry_enter _ "a" x (S (S recurse)) h (merging_dest _ _ _ Hm) Hkind).
    destruct (IH (recurse + 1)%nat fuel (length h) _ ltac:(lia) ltac:(lia)
                (merging_enter depth x h Hm)) as (h' & Hh' & Hlen).
    replace (S recurse) with (recurse + 1)%nat by lia.
    rewrite Hh'. rewrite length_insert, length_app in Hlen. simpl in Hlen.
    assert (x < length h)%nat as Hx by (apply (lookup_lt_Some h x _ (merging_dest _ _ _ Hm))).
    destruct (lookup_lt_is_Some_2 h' x) as [o Ho]; [lia|].
    unfold write, ret. rewrite Ho. eexists. split; [done|].
    rewrite length_insert. lia.
Qed.

(** The outcome of merging a chain of any depth into a fresh object. *)
Lemma merge_chain depth :
  exists h,
    merge (Ref 0) [Ref 1] (nested_heap depth) =
    Some (h, if (depth <=? 50)%nat then Return (Ref 0) else Throw (Error "Recursive clone")).
Proof.
  destruct (depth <=? 50)%nat eqn:Hd.
  - apply Nat.leb_le in Hd. cbn [merge]. unfold bind.
    destruct (mergeOne_chain_returns depth depth Hd 0%nat depth_bound 0%nat (nested_heap depth))
      as (h & Hh & _); [lia | unfold depth_bound; lia | apply merging_start |].
    rewrite Hh. by eexists.
  - apply Nat.leb_gt in Hd.
    apply (merge_descent_raises S "a" 0 (nested_heap depth)).
    apply descending_nested. lia.
Qed.


End MergeFacts.

Module TableLayoutFacts.

Import TableDefinition TableLayout JsFacts TableDefinitionFacts.

(** The body of the loop on an entry of a valid schema. *)
Lemma index_step_valid indexes b name index :
  is_Some (property "primary" indexes) ->
  accepts_entry indexes (name, index) = true ->
  index_step indexes b (name, index) =
  Return (declare_if_truthy (sort index)
            (declare_if_truthy (hash index)
               (place (entry_target indexes (name, index)) name index
                      (entry_keys indexes (name, index)) b))).
Proof.
  intros [p Hp] Hacc. unfold accepts_entry in Hacc. rewrite Hp in Hacc.
  unfold index_step, classify, is_local, primary_hash.
  unfold entry_target, entry_keys, entry_hash. rewrite Hp. simpl.
  destruct (String.eqb name "primary"); simpl in *.
  - by destruct (truthy (hash index)).
  - apply negb_true_iff, andb_false_iff in Hacc.
    destruct (hash index) as [h|] eqn:Hh; simpl.
    + destruct (bool_decide (Some h = hash p)) eqn:Heq; simpl.
      * destruct Hacc as [Hacc| ->]; [by rewrite orb_true_r in Hacc|].
        simpl. by destruct (negb (String.eqb h "")).
      * by destruct (negb (String.eqb h "")).
    + destruct Hacc as [Hacc| ->]; [done|]. done.
Qed.

Lemma declare_layout a b :
  bKeySchema (declare a b) = bKeySchema b /\
  bLocal (declare a b) = bLocal b /\ bGlobal (declare a b) = bGlobal b.
Proof. unfold declare. by destruct (known a b). Qed.

Lemma declare_if_truthy_layout o b :
  bKeySchema (declare_if_truthy o b) = bKeySchema b /\
  bLocal (declare_if_truthy o b) = bLocal b /\ bGlobal (declare_if_truthy o b) = bGlobal b.
Proof.
  unfold declare_if_truthy. destruct o as [a|]; [|done].
  destruct (truthy (Some a)); [apply declare_layout | done].
Qed.

Lemma filter_snoc {A : Type} (f : A -> bool) (l : list A) (a : A) :
  List.filter f (l ++ [a]) = List.filter f l ++ (if f a then [a] else []).
Proof. rewrite List.filter_app. simpl. by destruct (f a). Qed.

Lemma index_step_layout indexes seen b name index :
  is_Some (property "primary" indexes) ->
  accepts_entry indexes (name, index) = true ->
  layout_inv indexes seen b ->
  exists b', index_step indexes b (name, index) = Return b' /\
             layout_inv indexes (seen ++ [(name, index)]) b'.
Proof.
  intros Hp Hacc [Hkeys Hlocal Hglobal].
  rewrite (index_step_valid indexes b name index Hp Hacc).
  eexists. split; [done|].
  set (placed := place (entry_target indexes (name, index)) name index
                   (entry_keys indexes (name, index)) b).
  destruct (declare_if_truthy_layout (sort index) (declare_if_truthy (hash index) placed))
    as (Hk2 & Hl2 & Hg2).
  destruct (declare_if_truthy_layout (hash index) placed) as (Hk1 & Hl1 & Hg1).
  assert (in_primary indexes (name, index) =
          match entry_target indexes (name, index) with Primary => true | _ => false end)
    as Hp' by done.
  assert (in_local indexes (name, index) =
          match entry_target indexes (name, index) with Local => true | _ => false end)
    as Hl' by done.
  assert (in_global indexes (name, index) =
          match entry_target indexes (name, index) with Global => true | _ => false end)
    as Hg' by done.
  split.
  - rewrite Hk2, Hk1, filter_snoc, Hp'. unfold placed.
    destruct (entry_target indexes (name, index)); cbn [place bKeySchema].
    + rewrite map_app, concat_app. cbn [map concat]. by rewrite app_nil_r, Hkeys.
    + by rewrite app_nil_r.
    + by rewrite app_nil_r.
  - rewrite Hl2, Hl1, filter_snoc, Hl'. unfold placed.
    destruct (entry_target indexes (name, index)); cbn [place bLocal].
    + by rewrite app_nil_r.
    + rewrite map_app. cbn [map]. by rewrite Hlocal.
    + by rewrite app_nil_r.
  - rewrite Hg2, Hg1, filter_snoc, Hg'. unfold placed.
    destruct (entry_target indexes (name, index)); cbn [place bGlobal].
    + by rewrite app_nil_r.
    + by rewrite app_nil_r.
    + rewrite map_app. cbn [map]. by rewrite Hglobal.
Qed.

Lemma build_layout indexes :
  valid_schema indexes = true ->
  exists b, foldM (index_step indexes) indexes start = Return b /\
            layout_inv indexes indexes b.
Proof.
  intros Hv. apply andb_true_iff in Hv as [Hp Hall].
  apply bool_decide_eq_true in Hp. rewrite forallb_forall in Hall.
  apply (foldM_invariant (index_step indexes) (layout_inv indexes) indexes); [|done].
  intros seen [name index] b Hin Hinv. apply index_step_layout; auto.
Qed.

Lemma local_indexes_finish tableName provisioned b :
  local_indexes (finish tableName provisioned b) = bLocal b.
Proof. unfold local_indexes, finish. simpl. by destruct (bLocal b). Qed.

Lemma global_indexes_finish tableName provisioned b :
  global_indexes (finish tableName provisioned b) =
  match provisioned with
  | Some p => map (with_throughput p) (bGlobal b)
  | None => bGlobal b
  end.
Proof.
  unfold global_indexes, finish. simpl.
  destruct (bGlobal b); [by destruct provisioned | done].
Qed.

Lemma global_indexes_finish_names tableName provisioned b :
  map IndexName (global_indexes (finish tableName provisioned b)) = map IndexName (bGlobal b).
Proof.
  rewrite global_indexes_finish. destruct provisioned; [|done].
  rewrite map_map. done.
Qed.

Lemma global_indexes_finish_keys tableName provisioned b :
  map IndexKeySchema (global_indexes (finish tableName provisioned b))
  = map IndexKeySchema (bGlobal b).
Proof.
  rewrite global_indexes_finish. destruct provisioned; [|done].
  rewrite map_map. done.
Qed.

(** The definition that a valid schema sends to the client. *)
Lemma createTable_valid {R : Type} (service : TableDef -> completion R)
    tableName provisioned indexes :
  valid_schema indexes = true ->
  exists b,
    sent (createTable service tableName provisioned indexes) = [finish tableName provisioned b] /\
    layout_inv indexes indexes b /\ attributes_inv indexes b.
Proof.
  intros Hvalid.
  destruct (build_layout indexes Hvalid) as (b & Hb & Hlayout).
  destruct (build_valid indexes Hvalid) as (b' & Hb' & Hattrs).
  assert (b' = b) as -> by congruence.
  exists b. split; [|done].
  unfold createTable, buildDefinition. by rewrite Hb.
Qed.

(** For a valid schema, every index other than the primary one ends in
    exactly one of the two collections, in the order of the schema:
    [LocalSecondaryIndexes] lists the indexes whose hash is unset or equal to
    the hash of the primary index, [GlobalSecondaryIndexes] the others. A
    collection is absent exactly when no index belongs to it, and [KeySchema]
    holds the keys of the primary index. *)
Theorem createTable_index_collections :
  forall (R : Type) (service : TableDef -> completion R) tableName provisioned indexes,
    valid_schema indexes = true ->
    exists def,
      sent (createTable service tableName provisioned indexes) = [def] /\
      map IndexName (local_indexes def) = map fst (List.filter (in_local indexes) indexes) /\
      map IndexName (global_indexes def) = map fst (List.filter (in_global indexes) indexes) /\
      (LocalSecondaryIndexes def = None <-> List.filter (in_local indexes) indexes = []) /\
      (GlobalSecondaryIndexes def = None <-> List.filter (in_global indexes) indexes = []) /\
      KeySchema def
      = concat (map (entry_keys indexes) (List.filter (in_primary indexes) indexes)).
Proof.
  intros R service tableName provisioned indexes Hvalid.
  destruct (createTable_valid service tableName provisioned indexes Hvalid)
    as (b & Hsent & [Hkeys Hlocal Hglobal] & _).
  exists (finish tableName provisioned b). split; [done|].
  rewrite local_indexes_finish, global_indexes_finish_names, Hlocal, Hglobal.
  rewrite !map_map. simpl.
  split; [done|]. split; [done|]. split; [|split; [|done]].
  - rewrite Hlocal. destruct (List.filter (in_local indexes) indexes); simpl; split; done.
  - rewrite Hglobal. destruct (List.filter (in_global indexes) indexes); simpl; split; done.
Qed.

Lemma createTable_index_collections_witness :
  exists def,
    sent (createTable (fun def => Return def) "MyTable" (Some ten_units) provisioned_schema)
    = [def] /\
    map IndexName (local_indexes def) = ["ls1"] /\
    map IndexName (global_indexes def) = ["gs1"].
Proof.
  destruct (createTable_index_collections TableDef (fun def => Return def) "MyTable"
              (Some ten_units) provisioned_schema) as (def & Hsent & Hl & Hg & _).
  - reflexivity.
  - exists def. split; [done|]. split; [exact Hl | exact Hg].
Defined.

(** For a valid schema, a provisioned throughput is put on the table and
    repeated on every global index, never on a local one, and the billing
    mode says which of the two policies applies. *)
Theorem createTable_throughput :
  forall (R : Type) (service : TableDef -> completion R) tableName provisioned indexes,
    valid_schema indexes = true ->
    exists def,
      sent (createTable service tableName provisioned indexes) = [def] /\
      ProvisionedThroughput def = provisioned /\
      BillingMode def = match provisioned with
                        | Some _ => "PROVISIONED"
                        | None => "PAY_PER_REQUEST"
                        end /\
      (forall i, In i (global_indexes def) -> IndexProvisionedThroughput i = provisioned) /\
      (forall i, In i (local_indexes def) -> IndexProvisionedThroughput i = None).
Proof.
  intros R service tableName provisioned indexes Hvalid.
  destruct (createTable_valid service tableName provisioned indexes Hvalid)
    as (b & Hsent & [Hkeys Hlocal Hglobal] & _).
  exists (finish tableName provisioned b). split; [done|].
  split; [done|]. split; [by destruct provisioned|]. split.
  - intros i. rewrite global_indexes_finish. destruct provisioned as [p|].
    + intros (j & <- & _)%in_map_iff. done.
    + rewrite Hglobal. intros (e & <- & _)%in_map_iff. done.
  - intros i. rewrite local_indexes_finish, Hlocal. intros (e & <- & _)%in_map_iff. done.
Qed.

Lemma createTable_throughput_witness :
  exists def,
    sent (createTable (fun def => Return def) "MyTable" (Some ten_units) provisioned_schema)
    = [def] /\
    BillingMode def = "PROVISIONED" /\
    (forall i, In i (global_indexes def) -> IndexProvisionedThroughput i = Some ten_units) /\
    (forall i, In i (local_indexes def) -> IndexProvisionedThroughput i = None).
Proof.
  destruct (createTable_throughput TableDef (fun def => Return def) "MyTable"
              (Some ten_units) provisioned_schema) as (def & Hsent & _ & Hbilling & Hg & Hl).
  - reflexivity.
  - exists def. split; [done|]. split; [exact Hbilling|]. split; [exact Hg | exact Hl].
Defined.

Lemma filter_In_entries {A : Type} (f : A -> bool) (l : list A) (x : A) :
  In x (List.filter f l) -> In x l.
Proof. intros H. by apply filter_In in H as [? _]. Qed.

(** A key of an entry names the hash of the entry, the hash of the primary
    index, or the sort attribute of the entry. *)
Lemma entry_keys_referenced indexes name index p e :
  property "primary" indexes = Some p ->
  truthy (hash p) = true ->
  In (name, index) indexes ->
  In e (entry_keys indexes (name, index)) ->
  exists a, KeyAttributeName e = Some a /\ a <> "" /\ referenced a indexes.
Proof.
  intros Hp Hph Hin. unfold entry_keys, entry_hash, index_keys. rewrite Hp. simpl.
  intros [<-|He].
  - simpl. destruct (truthy (hash index)) eqn:Hh.
    + destruct (hash index) as [a|] eqn:Ha; [|done].
      exists a. split; [done|]. split; [by apply truthy_Some|].
      exists name, index. auto.
    + destruct (hash p) as [a|] eqn:Ha; [|done].
      exists a. split; [done|]. split; [by apply truthy_Some|].
      exists "primary", p. split; [by apply property_In | auto].
  - destruct (truthy (sort index)) eqn:Hs; [|done].
    destruct He as [<-|[]]. simpl.
    destruct (sort index) as [a|] eqn:Ha; [|done].
    exists a. split; [done|]. split; [by apply truthy_Some|].
    exists name, index. auto.
Qed.

(** For a valid schema whose primary index has a hash attribute, every key
    schema element of the definition - of the table and of each secondary
    index - names an attribute that some index has as its hash or sort key,
    and [AttributeDefinitions] declares that attribute once, unless its name
    is one of [Object.prototype]. *)
Theorem createTable_keys_declared :
  forall (R : Type) (service : TableDef -> completion R) tableName provisioned indexes p,
    valid_schema indexes = true ->
    property "primary" indexes = Some p ->
    truthy (hash p) = true ->
    exists def,
      sent (createTable service tableName provisioned indexes) = [def] /\
      forall e, In e (key_elements def) ->
        exists a, KeyAttributeName e = Some a /\ a <> "" /\ referenced a indexes /\
                  (inherited a = false ->
                   length (entries_for a (AttributeDefinitions def)) = 1%nat).
Proof.
  intros R service tableName provisioned indexes p Hvalid Hp Hph.
  destruct (createTable_valid service tableName provisioned indexes Hvalid)
    as (b & Hsent & [Hkeys Hlocal Hglobal] & [Hnd Hset Hnames]).
  exists (finish tableName provisioned b). split; [done|].
  intros e He.
  assert (exists entry, In entry indexes /\ In e (entry_keys indexes entry))
    as ([name index] & Hentry & Hkey).
  { unfold key_elements in He.
    rewrite local_indexes_finish, global_indexes_finish_keys in He.
    cbn [KeySchema finish] in He. rewrite Hkeys, Hlocal, Hglobal in He.
    rewrite !map_map in He. cbn [IndexKeySchema entry_projDef] in He.
    rewrite !in_app_iff in He.
    destruct He as [He|[He|He]];
      apply in_concat in He as (keys & Hkeys' & He);
      apply in_map_iff in Hkeys' as (entry & <- & Hentry);
      apply filter_In_entries in Hentry; eauto. }
  destruct (entry_keys_referenced indexes name index p e Hp Hph Hentry Hkey)
    as (a & Ha & Hne & Href).
  exists a. split; [done|]. split; [done|]. split; [done|].
  intros Hown. apply entries_for_unique; [done|]. apply Hnames. by split.
Qed.

Lemma createTable_keys_declared_witness :
  exists def,
    sent (createTable (fun def => Return def) "MyTable" (Some ten_units) provisioned_schema)
    = [def] /\
    forall e, In e (key_elements def) ->
      exists a, KeyAttributeName e = Some a /\ a <> "" /\ referenced a provisioned_schema /\
                (inherited a = false ->
                 length (entries_for a (AttributeDefinitions def)) = 1%nat).
Proof.
  apply (createTable_keys_declared TableDef (fun def => Return def) "MyTable"
           (Some ten_units) provisioned_schema
           {| hash := Some "pk"; sort := Some "sk"; project := ProjectUnset |});
    reflexivity.
Defined.

End TableLayoutFacts.

Module TablesFacts.

Import Tables JsFacts.

Lemma find_name_In name names : is_Some (find_name name names) <-> In name names.
Proof.
  induction names as [|t names IH]; simpl.
  - split; [by intros [? ?] | done].
  - destruct (String.eqb_spec t name) as [->|Hne].
    + split; [by left | by eexists].
    + rewrite IH. split; [by right | by intros [?|?]].
Qed.

(** [deleteTable] asks the service to delete the table exactly when its
    argument is loosely equal to 'DeleteTableForever' - the phrase itself or,
    since the comparison is [==], an array holding just the phrase; the request
    names this table and follows a trace entry, and the outcome is the one of
    the service. With any other argument, or none, nothing is logged or
    requested and an error that quotes the phrase is raised (a [TypeError]
    when the argument has no string form). *)
Theorem deleteTable_needs_confirmation :
  forall service name confirmation,
    let run := deleteTable service name confirmation in
    (In (DeleteTable name) (steps run) <->
     loosely_equals "DeleteTableForever" confirmation = Return true) /\
    (forall other, In (DeleteTable other) (steps run) -> other = name) /\
    (loosely_equals "DeleteTableForever" confirmation = Return true ->
     outcome run = service_deleteTable service name /\
     exists message, steps run = [Traced message; DeleteTable name]) /\
    (loosely_equals "DeleteTableForever" confirmation = Return false ->
     steps run = [] /\
     exists message, outcome run = Throw (Error message) /\
                     includes "DeleteTableForever" message) /\
    (forall e, loosely_equals "DeleteTableForever" confirmation = Throw e ->
               steps run = [] /\ outcome run = Throw e) /\
    (forall s, confirmation = VString s ->
               (In (DeleteTable name) (steps run) <-> s = "DeleteTableForever")) /\
    (confirmation = VUndefined -> steps run = []).
Proof.
  intros service name confirmation. cbn zeta. unfold deleteTable, ConfirmRemoveTable.
  assert (forall s, loosely_equals "DeleteTableForever" (VString s) = Return true
                    <-> s = "DeleteTableForever") as Hstring.
  { intros s. unfold loosely_equals. destruct (String.eqb_spec s "DeleteTableForever");
      split; congruence. }
  destruct (loosely_equals "DeleteTableForever" confirmation) as [[|]|e] eqn:Hc;
    cbn [steps outcome].
  - split; [split; [done | intros _; right; by left]|].
    split; [by intros other [?|[[= ->]|[]]]|].
    split; [intros _; split; [done | by eexists]|].
    split; [done|]. split; [done|]. split.
    + intros s ->. apply Hstring in Hc as ->. split; [done | intros _; right; by left].
    + intros ->. done.
  - split; [split; [done | done]|].
    split; [by intros other []|].
    split; [done|]. split.
    + intros _. split; [done|]. eexists. split; [done|].
      exists ("Missing required confirmation " +:+ dquote), dquote. done.
    + split; [done|]. split; [|done].
      intros s ->. split; [done|]. intros Hs. apply (proj2 (Hstring s)) in Hs. congruence.
  - split; [split; [done | done]|].
    split; [by intros other []|].
    split; [done|]. split; [done|]. split; [by intros e' [= <-]|]. split; [|done].
    intros s ->. split; [done|]. intros Hs. apply (proj2 (Hstring s)) in Hs. congruence.
Qed.

(** The phrase confirms, and so does the array that holds it. *)
Example deleteTable_confirmed :
  steps (deleteTable (serving ["T"]) "T" (VString "DeleteTableForever")) =
    [Traced ("OneTable deleteTable for " +:+ quoted_name "T"); DeleteTable "T"] /\
  steps (deleteTable (serving ["T"]) "T" (VArray [VString "DeleteTableForever"])) =
    [Traced ("OneTable deleteTable for " +:+ quoted_name "T"); DeleteTable "T"] /\
  steps (deleteTable (serving ["T"]) "T" (VString "yes")) = [].
Proof. repeat split; reflexivity. Qed.

(** [exists] answers [true] exactly when the service lists a table with the
    name of this table, [false] when it lists none or no list at all; it
    asks the service once, and a failure of the service is its own failure. *)
Theorem exists_iff_listed :
  forall service name,
    steps (exists_ service name) = [ListTables] /\
    (forall e, service_listTables service = Throw e ->
               outcome (exists_ service name) = Throw e) /\
    (forall names, service_listTables service = Return names ->
       exists found,
         outcome (exists_ service name) = Return found /\
         (found = true <-> exists l, names = Some l /\ In name l)).
Proof.
  intros service name. unfold exists_, listTables. simpl.
  split; [done|]. split.
  - by intros e ->.
  - intros names ->. simpl. eexists. split; [done|].
    destruct names as [l|].
    + pose proof (find_name_In name l) as Hfind.
      destruct (find_name name l) as [t|].
      * split; [|done]. intros _. exists l. split; [done|]. apply Hfind. by eexists.
      * split; [done|]. intros (l' & [= <-] & Hin). apply Hfind in Hin as [? ?]. done.
    + split; [done|]. by intros (l & ? & _).
Qed.

End TablesFacts.

Module ValueFacts.

Lemma get_prop_set_prop_eq key v (props : list (string * value)) :
  get_prop key (set_prop key v props) = v.
Proof.
  induction props as [|[k w] props IH]; simpl.
  - by rewrite String.eqb_refl.
  - destruct (String.eqb k key) eqn:Hk; simpl; rewrite Hk; done.
Qed.

Lemma get_prop_set_prop_ne key key' v (props : list (string * value)) :
  key <> key' -> get_prop key' (set_prop key v props) = get_prop key' props.
Proof.
  intros Hne. induction props as [|[k w] props IH]; simpl.
  - destruct (String.eqb_spec key key'); done.
  - destruct (String.eqb_spec k key) as [->|Hk]; simpl.
    + destruct (String.eqb_spec key key'); done.
    + by rewrite IH.
Qed.

Lemma set_prop_keys_fresh key v (props : list (string * value)) :
  ~ In key (map fst props) -> map fst (set_prop key v props) = map fst props ++ [key].
Proof.
  induction props as [|[k w] props IH]; simpl; [done|].
  intros Hfresh. destruct (String.eqb_spec k key) as [->|Hk].
  - destruct Hfresh. by left.
  - simpl. rewrite IH; [done|]. intros Hin. apply Hfresh. by right.
Qed.

Lemma set_prop_keys_present key v (props : list (string * value)) :
  In key (map fst props) -> map fst (set_prop key v props) = map fst props.
Proof.
  induction props as [|[k w] props IH]; simpl; [done|].
  intros Hin. destruct (String.eqb_spec k key) as [->|Hk]; [done|].
  simpl. rewrite IH; [done|]. by destruct Hin.
Qed.

End ValueFacts.

Module ExecuteFacts.

Import Dispatch Observe ValueFacts.

Lemma filter_called {P : Type} client method cmd :
  List.filter (is_client_call (P := P)) (called client method cmd) = called client method cmd.
Proof. unfold called. by destruct (client method). Qed.

Lemma filter_record_metrics {P : Type} t model op result params :
  List.filter (is_client_call (P := P)) (record_metrics t model op result params) = [].
Proof. unfold record_metrics. destruct result; [destruct (metrics t)|]; done. Qed.

Lemma metrics_called {P : Type} client method cmd :
  List.filter (is_metrics_add (P := P)) (called client method cmd) = [].
Proof. unfold called. by destruct (client method). Qed.

Lemma metrics_record_metrics {P : Type} t model op result params :
  List.filter (is_metrics_add (P := P)) (record_metrics t model op result params) =
  record_metrics t model op result params.
Proof. unfold record_metrics. destruct result; [destruct (metrics t)|]; done. Qed.

(** The command that reaches the client: when [params.stats] is truthy or the
    table has metrics, [ReturnConsumedCapacity] is [params.capacity], or
    'INDEXES' when that is absent or the empty string, and
    [ReturnItemCollectionMetrics] is 'SIZE'; every other property of the
    command is left as it was. Otherwise the command is sent as given. *)
Theorem prepared_command :
  forall t params cmd,
    (flag_set (stats params) || metrics t = false -> prepared t params cmd = cmd) /\
    (flag_set (stats params) || metrics t = true ->
     get_prop "ReturnItemCollectionMetrics" (prepared t params cmd) = VString "SIZE" /\
     get_prop "ReturnConsumedCapacity" (prepared t params cmd) =
       VString (match capacity params with
                | Some c => if String.eqb c "" then "INDEXES" else c
                | None => "INDEXES"
                end) /\
     forall key, key <> "ReturnConsumedCapacity" -> key <> "ReturnItemCollectionMetrics" ->
                 get_prop key (prepared t params cmd) = get_prop key cmd).
Proof.
  intros t params cmd. unfold prepared.
  destruct (flag_set (stats params) || metrics t); split; try done.
  intros _. split; [by rewrite get_prop_set_prop_eq|]. split.
  - rewrite get_prop_set_prop_ne by done. rewrite get_prop_set_prop_eq.
    unfold or_else, truthy. destruct (capacity params) as [c|]; [|done].
    by destruct (String.eqb c "").
  - intros key H1 H2. rewrite !get_prop_set_prop_ne; done.
Qed.

(** [execute] fills [params.info] exactly when [params.info] is an object
    and the call returns (also when a failure is suppressed by [throw: false]);
    what it stores is [DynamoOps[op]], the command as it was sent (with the
    capacity properties added to it), and the properties. When [params.info]
    is [null] the call never returns: a result or a suppressed failure ends in
    a [TypeError], any other failure in its own exception. *)
Theorem execute_info_iff_returns :
  forall (P : Type) t client model op cmd params (properties : P),
    let run := execute t client model op cmd params properties in
    (is_Some (info_written run) <->
     typeof_object (info params) = true /\ info params <> VNull /\
     exists result, outcome run = Return result) /\
    (forall i, info_written run = Some i ->
               operation i = lookup op DynamoOps /\
               args i = prepared t params cmd /\
               info_properties i = properties) /\
    (info params = VNull -> exists e, outcome run = Throw e).
Proof.
  intros P t client model op cmd params properties. cbn zeta. unfold execute.
  assert (forall steps result,
            let run := leave steps result
                         (write_info op (prepared t params cmd) params properties) in
            (is_Some (info_written run) <->
             typeof_object (info params) = true /\ info params <> VNull /\
             exists result, outcome run = Return result) /\
            (forall i, info_written run = Some i ->
                       operation i = lookup op DynamoOps /\
                       args i = prepared t params cmd /\
                       info_properties i = properties) /\
            (info params = VNull -> exists e, outcome run = Throw e)) as Hleave.
  { intros steps result. cbn zeta. unfold write_info.
    destruct (info params) eqn:Hi; simpl;
      (split; [|split]);
      try (split; [by intros [? ?] | by intros (? & ? & ?)]);
      try (split; [intros _; split; [done|]; split; [done|]; by eexists | by eexists]);
      try done;
      try (by intros i [= <-]);
      try (intros _; by eexists). }
  destruct (answer client (method_name t op) (prepared t params cmd)) as [result|err].
  - apply Hleave.
  - case_bool_decide as Hthrow; [apply Hleave|].
    destruct (_ && _); cbn [info_written outcome];
      (split; [|split]); try done;
      try (split; [by intros [? ?] | by intros (_ & _ & ? & ?)]);
      try (intros _; by eexists).
Qed.

(** [execute] never retries: the first event is the entry log, the client is
    called at most once, with the method of the operation and the prepared
    command, and the metrics receive at most one result, none at all when the
    table has no metrics. *)
Theorem execute_calls_client_once :
  forall (P : Type) t client model op cmd params (properties : P),
    let run := execute t client model op cmd params properties in
    (exists trace, head (events run) =
       Some (Logged (if flag_set (log params) then "info" else "trace")
                    ("OneTable " +:+ quoted op +:+ " " +:+ quoted model) trace None)) /\
    List.filter is_client_call (events run) =
      called client (method_name t op) (prepared t params cmd) /\
    (length (List.filter is_client_call (events run)) <= 1)%nat /\
    (length (List.filter is_metrics_add (events run)) <= 1)%nat /\
    (metrics t = false -> List.filter is_metrics_add (events run) = []).
Proof.
  intros P t client model op cmd params properties. cbn zeta.
  assert (forall method sent,
            (length (called (P := P) client method sent) <= 1)%nat) as Hone.
  { intros method sent. unfold called. destruct (client method); simpl; lia. }
  assert (forall result,
            (length (record_metrics (P := P) t model op result params) <= 1)%nat) as Hm.
  { intros result. unfold record_metrics.
    destruct result; [destruct (metrics t)|]; simpl; lia. }
  assert (forall result, metrics t = false ->
            record_metrics (P := P) t model op result params = []) as Hoff.
  { intros result Hoff. unfold record_metrics. rewrite Hoff. by destruct result. }
  assert (forall steps result written,
            events (leave (P := P) steps result written) = steps) as Hleave.
  { intros steps result written. by destruct written. }
  (* the shape shared by the four ways out of [execute] *)
  assert (forall entry trace (logs : list (event P)) result,
            (forall e, In e logs -> is_logged e = true) ->
            let steps := Logged entry ("OneTable " +:+ quoted op +:+ " " +:+ quoted model)
                                trace None
                         :: called client (method_name t op) (prepared t params cmd)
                         ++ logs ++ record_metrics t model op result params in
            List.filter is_client_call steps =
              called client (method_name t op) (prepared t params cmd) /\
            (length (List.filter is_client_call steps) <= 1)%nat /\
            (length (List.filter is_metrics_add steps) <= 1)%nat /\
            (metrics t = false -> List.filter is_metrics_add steps = [])) as Hshape.
  { intros entry trace logs result Hlogs. cbn zeta.
    assert (List.filter is_client_call logs = [] /\ List.filter is_metrics_add logs = [])
      as [H1 H2].
    { induction logs as [|e logs IH]; [done|].
      destruct IH as [H1 H2]; [intros e' He'; apply Hlogs; by right|].
      pose proof (Hlogs e (or_introl eq_refl)) as He.
      destruct e; try discriminate. simpl. by rewrite H1, H2. }
    cbn [List.filter is_client_call is_metrics_add].
    rewrite !List.filter_app, filter_called, filter_record_metrics, metrics_called,
      metrics_record_metrics, H1, H2, !app_nil_r. cbn [app].
    split; [done|]. split; [apply Hone|]. split; [apply Hm|].
    intros Hno. by apply Hoff. }
  unfold execute.
  destruct (answer client (method_name t op) (prepared t params cmd)) as [result|err].
  - rewrite Hleave. split; [by eexists|].
    apply (Hshape _ _ [] (Some result)). by intros e [].
  - case_bool_decide as Hthrow; [|destruct (_ && _) eqn:Hcond];
      rewrite ?Hleave; cbn [events outcome].
    + split; [by eexists|]. apply (Hshape _ _ [] (Some [])). by intros e [].
    + split; [by eexists|].
      apply (Hshape _ _ [Logged "info" _ _ _] None). by intros e [<-|[]].
    + split; [by eexists|].
      match goal with
      | |- context [called _ _ _ ++ ?logs ++ record_metrics _ _ _ ?result _] =>
          apply (Hshape _ _ logs result)
      end.
      intros e He. destruct (bool_decide (log params = Some false)); simpl in He; [done|].
      by destruct He as [<-|[]].
Qed.

End ExecuteFacts.

Module ParseFacts.

Import Dispatch Transact JsFacts.

Section Pure.

Context {Model : Type} (c : Collaborators Model).
Context (unmarshal field : value -> value) (transform : Model -> value -> Params -> value).
Hypothesis unmarshall_returns : forall item, unmarshall c item = Return (unmarshal item).
Hypothesis type_of_returns : forall item, type_of c item = Return (field item).
Hypothesis transform_returns :
  forall model item params,
    transformReadItem c model item params = Return (transform model item params).

Lemma parse_item_shaped params result item :
  parse_item c params result item =
  Return (result ++ shaped c unmarshal field transform params item).
Proof using unmarshall_returns type_of_returns transform_returns.
  unfold parse_item, shaped, resolve. rewrite unmarshall_returns. simpl.
  rewrite type_of_returns. simpl.
  destruct (models c _) as [model|]; [|by rewrite app_nil_r].
  destruct (is_uniqueModel c model); [by rewrite app_nil_r|].
  by rewrite transform_returns.
Qed.

Lemma parse_items_shaped params items result :
  foldM (parse_item c params) items result =
  Return (result ++ flat_map (shaped c unmarshal field transform params) items).
Proof using unmarshall_returns type_of_returns transform_returns.
  revert result. induction items as [|item items IH]; intros result; simpl.
  - by rewrite app_nil_r.
  - rewrite parse_item_shaped, IH. by rewrite <- app_assoc.
Qed.

Lemma parse_groups_shaped params groups :
  forall values result,
    Forall2 (fun group items => iterate group = Return items) values groups ->
    foldM (parse_group c params) values result =
    Return (result ++ flat_map (shaped c unmarshal field transform params) (concat groups)).
Proof using unmarshall_returns type_of_returns transform_returns.
  induction groups as [|items groups IH]; intros values result Hall.
  - apply Forall2_nil_inv_r in Hall as ->. simpl. by rewrite app_nil_r.
  - apply Forall2_cons_inv_r in Hall as (group & values' & Hgroup & Hall & ->).
    simpl. unfold parse_group at 1. rewrite Hgroup. simpl.
    rewrite parse_items_shaped, (IH _ _ Hall).
    by rewrite flat_map_app, <- app_assoc.
Qed.

Lemma parse_responses_shaped params responses :
  Forall (fun r => defined r = true) responses ->
  forall result,
    foldM (parse_response c params) responses result =
    Return (result ++ flat_map (shaped c unmarshal field transform params) (stored_items responses)).
Proof using unmarshall_returns type_of_returns transform_returns.
  induction 1 as [|r responses Hr _ IH]; intros result; simpl.
  - by rewrite app_nil_r.
  - unfold parse_response at 1. destruct r as [| | | | | | | |props]; try discriminate;
      simpl; try apply IH.
    destruct (truthy_value (get_prop "Item" props)); [|apply IH].
    rewrite parse_item_shaped, IH. simpl. by rewrite <- app_assoc.
Qed.

End Pure.

(** [batchGet] with [params.parse]: when the client resolves with a result
    whose [Responses] maps table names to arrays (or other iterables) of
    items and the schema's functions do not throw, the outcome is one flat array, in the order of
    the tables and of their items, holding [transformReadItem] of each
    unmarshalled item whose type (or '_unknown') names a model other than
    the unique model; every other item is dropped. *)
Theorem batchGet_parsed :
  forall (Model : Type) (c : Collaborators Model) unmarshal field transform
         t client batch params result responses groups,
    (forall item, unmarshall c item = Return (unmarshal item)) ->
    (forall item, type_of c item = Return (field item)) ->
    (forall model item params,
        transformReadItem c model item params = Return (transform model item params)) ->
    batch <> [] ->
    parse params = Some true ->
    client_answer t client "batchGet"
      (set_prop "ConsistentRead" (VBool (flag_set (consistent params))) batch) no_params =
      Return result ->
    get_prop "Responses" result = VObject responses ->
    Forall2 (fun group items => iterate group = Return items) (map snd responses) groups ->
    outcome (batchGet c t client batch params) =
      Return (VArray (flat_map (shaped c unmarshal field transform params) (concat groups))).
Proof.
  intros Model c unmarshal field transform t client batch params result responses groups
    Hu Hf Ht Hbatch Hparse Hanswer Hresponses Hgroups.
  unfold batchGet. destruct batch as [|entry batch]; [done|].
  cbn [outcome]. unfold client_answer in Hanswer. unfold execute. rewrite Hanswer.
  cbn [outcome leave write_info info no_params typeof_object]. simpl.
  unfold parse_responses. rewrite Hparse, Hresponses. simpl.
  by rewrite (parse_groups_shaped c unmarshal field transform Hu Hf Ht params groups _ _ Hgroups).
Qed.

Lemma batchGet_parsed_witness :
  outcome (batchGet typed_collaborators plain_table
             (Observe.resolving
                [("Responses",
                  VObject [("A", VArray [user "ann"; unique_marker]);
                           ("B", VArray [untyped; user "bob"])])])
             sample_batch parsing) =
  Return (VArray [VObject [("User", user "ann")]; VObject [("User", user "bob")]]).
Proof.
  apply (batchGet_parsed string typed_collaborators (fun item => item)
           (fun item => match item with
                        | VObject props => get_prop "_type" props
                        | _ => VUndefined
                        end)
           (fun model item _ => VObject [(model, item)])
           plain_table _ sample_batch parsing
           [("Responses",
             VObject [("A", VArray [user "ann"; unique_marker]);
                      ("B", VArray [untyped; user "bob"])])]
           [("A", VArray [user "ann"; unique_marker]);
            ("B", VArray [untyped; user "bob"])]
           [[user "ann"; unique_marker]; [untyped; user "bob"]]);
    try done.
  repeat constructor.
Defined.

(** [transact] sends 'transactWrite' only for the operation 'write' and
    'transactGet' for every other operation; unless the operation is 'get'
    and [params.parse] is set, it hands back what [execute] gave, with the
    same events and the same [params.info]. *)
Theorem transact_dispatch :
  forall (Model : Type) (c : Collaborators Model) t client op transaction params,
    let run := execute t client GenericModel (transact_op op) transaction params [] in
    (transact_op op = "transactWrite" <-> op = "write") /\
    (transact_op op = "transactGet" <-> op <> "write") /\
    events (transact c t client op transaction params) = events run /\
    info_written (transact c t client op transaction params) = info_written run /\
    (op <> "get" \/ flag_set (parse params) = false ->
     outcome (transact c t client op transaction params) =
       (result ← outcome run; Return (VObject result))).
Proof.
  intros Model c t client op transaction params. cbn zeta. unfold transact_op.
  split; [|split; [|split; [done|split; [done|]]]].
  - destruct (String.eqb_spec op "write"); split; done.
  - destruct (String.eqb_spec op "write"); split; done.
  - intros Hplain. unfold transact. cbn [outcome].
    destruct (outcome _) as [result|err]; [|done]. simpl.
    destruct Hplain as [Hop| ->].
    + destruct (String.eqb_spec op "get"); done.
    + by rewrite andb_false_r.
Qed.



(** [throw: false] does not protect a parsed 'get' transaction: when the
    client fails, [execute] returns [{}], whose [Responses] is [undefined],
    and the loop over it raises a [TypeError]. Without [parse], or for any
    other operation, the same failure yields [{}] ([params.info] is taken not
    to be [null]). *)
Theorem transact_suppressed_failure_raises :
  forall (Model : Type) (c : Collaborators Model) t client op transaction params err,
    throw params = Some false ->
    info params <> VNull ->
    client_answer t client (transact_op op) transaction params = Throw err ->
    (op = "get" -> parse params = Some true ->
     exists message,
       outcome (transact c t client op transaction params) = Throw (TypeError message)) /\
    (op <> "get" \/ flag_set (parse params) = false ->
     outcome (transact c t client op transaction params) = Return (VObject [])).
Proof.
  intros Model c t client op transaction params err Hthrow Hinfo Hanswer.
  unfold client_answer in Hanswer. unfold transact, execute. rewrite Hanswer.
  rewrite bool_decide_eq_true_2 by done.
  destruct (DispatchFacts.write_info_returns (transact_op op)
              (prepared t params transaction) params
              ([] : list (string * value)) Hinfo) as [stored ->].
  cbn [outcome leave]. split.
  - intros -> Hparse. rewrite Hparse. simpl. by eexists.
  - intros Hplain. simpl. destruct Hplain as [Hop| ->].
    + destruct (String.eqb_spec op "get"); done.
    + by rewrite andb_false_r.
Qed.

Lemma transact_suppressed_failure_raises_witness :
  (exists message,
     outcome (transact typed_collaborators plain_table (rejecting throttled)
                "get" [] parsing) = Throw (TypeError message)) /\
  outcome (transact typed_collaborators plain_table (rejecting throttled)
             "write" [] parsing) = Return (VObject []).
Proof.
  assert (info parsing <> VNull) as Hinfo by discriminate.
  destruct (transact_suppressed_failure_raises string typed_collaborators plain_table
              (rejecting throttled) "get" [] parsing throttled eq_refl Hinfo eq_refl)
    as [Hget _].
  destruct (transact_suppressed_failure_raises string typed_collaborators plain_table
              (rejecting throttled) "write" [] parsing throttled eq_refl Hinfo eq_refl)
    as [_ Hwrite].
  split; [by apply Hget | apply Hwrite; by left].
Defined.

End ParseFacts.

Module TemplateFacts.

Import Template JsFacts.

Lemma variable_plain name rest :
  plain_name name = true ->
  variable (name +:+ String close_brace rest) = Some (name, rest).
Proof.
  induction name as [|c name IH]; intros Hname.
  - reflexivity.
  - simpl in Hname. apply andb_true_iff in Hname as [Hc Hname].
    apply andb_true_iff in Hc as [Hclose Hline].
    apply negb_true_iff in Hclose, Hline.
    rewrite append_cons. cbn [variable]. by rewrite Hclose, Hline, IH.
Qed.

(** A match consists of a name that has no closing brace and no line
    terminator, of the closing brace, and of the rest, which is shorter. *)
Lemma variable_inv s name after :
  variable s = Some (name, after) ->
  plain_name name = true /\ s = name +:+ String close_brace after /\
  (String.length after < String.length s)%nat.
Proof.
  revert name. induction s as [|c s IH]; intros name; [done|].
  cbn [variable]. destruct (Ascii.eqb_spec c close_brace) as [->|Hc].
  - intros [= <- <-]. split; [done|]. split; [done|]. simpl. lia.
  - destruct (line_terminator c) eqn:Hline; [done|].
    destruct (variable s) as [[name' after']|] eqn:Hs; [|done].
    intros [= <- <-]. destruct (IH name' eq_refl) as (Hname & -> & Hlen).
    split; [|split].
    + simpl. rewrite Hname, Hline. by destruct (Ascii.eqb_spec c close_brace).
    + by rewrite append_cons.
    + simpl. lia.
Qed.

Lemma match_here_inv s name after :
  match_here s = Some (name, after) ->
  plain_name name = true /\
  s = String dollar (String open_brace (name +:+ String close_brace after)) /\
  (String.length after < String.length s)%nat.
Proof.
  destruct s as [|c [|d s]]; try done. cbn [match_here].
  destruct (Ascii.eqb_spec c dollar) as [->|]; [|done].
  destruct (Ascii.eqb_spec d open_brace) as [->|]; [|done]. simpl.
  intros (Hname & -> & Hlen)%variable_inv. split; [done|]. split; [done|]. simpl. lia.
Qed.

(** The search needs no more steps than the text has characters. *)
Lemma matches_fuel fuel s :
  (String.length s <= fuel)%nat -> matches fuel s = matches (String.length s) s.
Proof.
  remember (String.length s) as n eqn:Hn. revert s fuel Hn.
  induction n as [n IH] using lt_wf_ind. intros s fuel -> Hfuel.
  destruct s as [|c s]; [by destruct fuel|].
  destruct fuel as [|fuel]; [simpl in Hfuel; lia|].
  cbn [String.length matches].
  destruct (match_here (String c s)) as [[name after]|] eqn:Hm.
  - apply match_here_inv in Hm as (_ & _ & Hlen). cbn [String.length] in Hlen.
    rewrite (IH (String.length after) ltac:(simpl; lia) after fuel eq_refl)
      by (simpl in Hfuel; lia).
    by rewrite (IH (String.length after) ltac:(simpl; lia) after (String.length s) eq_refl)
      by lia.
  - apply (IH (String.length s) ltac:(simpl; lia) s fuel eq_refl). simpl in Hfuel. lia.
Qed.

(** The equations of the search. *)
Lemma matches_step c s :
  matches (String.length (String c s)) (String c s) =
  match match_here (String c s) with
  | Some (name, after) => name :: matches (String.length after) after
  | None => matches (String.length s) s
  end.
Proof.
  cbn [String.length matches].
  destruct (match_here (String c s)) as [[name after]|] eqn:Hm; [|done].
  apply match_here_inv in Hm as (_ & _ & Hlen). cbn [String.length] in Hlen.
  by rewrite (matches_fuel (String.length s) after) by lia.
Qed.

(** A literal piece without a dollar is passed over. *)
Lemma matches_literal literal s :
  without dollar literal = true ->
  matches (String.length (literal +:+ s)) (literal +:+ s) = matches (String.length s) s.
Proof.
  induction literal as [|c literal IH]; intros Hlit; [done|].
  simpl in Hlit. apply andb_true_iff in Hlit as [Hc Hlit]. apply negb_true_iff in Hc.
  rewrite append_cons, matches_step.
  assert (match_here (String c (literal +:+ s)) = None) as ->.
  { cbn [match_here]. destruct (literal +:+ s); [done|]. by rewrite Hc. }
  by apply IH.
Qed.

Lemma matches_reference name s :
  plain_name name = true ->
  let text := String dollar (String open_brace (name +:+ String close_brace s)) in
  matches (String.length text) text = name :: matches (String.length s) s.
Proof.
  intros Hname. cbn zeta. rewrite matches_step. cbn [match_here].
  rewrite !Ascii.eqb_refl. simpl. by rewrite variable_plain.
Qed.

Lemma matches_rendered pieces last :
  Forall (fun piece => without dollar (fst piece) = true /\ plain_name (snd piece) = true)
         pieces ->
  without dollar last = true ->
  matches (String.length (render pieces last)) (render pieces last) = map snd pieces.
Proof.
  intros Hpieces Hlast. induction Hpieces as [|[literal name] pieces [Hlit Hname] _ IH].
  - simpl. rewrite <- (append_empty_r last) at 1 2.
    by rewrite (matches_literal last "" Hlast).
  - cbn [render map snd]. simpl in Hlit, Hname.
    rewrite (matches_literal literal _ Hlit).
    rewrite (matches_reference name _ Hname). by rewrite IH.
Qed.

Lemma includes_after (part before whole : string) :
  includes part whole -> includes part (before +:+ whole).
Proof.
  intros (b & a & ->). exists (before +:+ b), a. by rewrite append_assoc.
Qed.

Lemma reference_append name after :
  String dollar (String open_brace (name +:+ String close_brace EmptyString)) +:+ after =
  String dollar (String open_brace (name +:+ String close_brace after)).
Proof. rewrite !append_cons. by rewrite append_assoc. Qed.

(** Every name that is found has neither a closing brace nor a line
    terminator in it, and stands in the text between ['${'] and ['}']. *)
Lemma matches_names fuel s name :
  In name (matches fuel s) ->
  plain_name name = true /\
  includes (String dollar (String open_brace (name +:+ String close_brace EmptyString))) s.
Proof.
  revert s. induction fuel as [|fuel IH]; intros s; [done|].
  destruct s as [|c s]; [done|]. cbn [matches].
  destruct (match_here (String c s)) as [[name' after]|] eqn:Hm.
  - apply match_here_inv in Hm as (Hname & Hs & _). intros [<-|Hin].
    + split; [done|]. exists "", after. rewrite Hs. by rewrite reference_append.
    + destruct (IH after Hin) as (Hn & Hinc). split; [done|].
      rewrite Hs, <- (reference_append name' after). by apply includes_after.
  - intros Hin. destruct (IH s Hin) as (Hn & Hinc). split; [done|].
    by apply (includes_after _ (String c EmptyString)).
Qed.

(** [getVars] on the text of a template whose literal pieces have no dollar
    and whose variable names have no closing brace and no line terminator
    returns the names, in order; whatever the text, a name it returns has no
    closing brace and no line terminator and stands in the text between
    ['${'] and ['}']; an array is returned as it is, a function has no
    variables, and the other values raise a [TypeError]. *)
Theorem getVars_template :
  (forall pieces last,
      Forall (fun piece => without dollar (fst piece) = true /\ plain_name (snd piece) = true)
             pieces ->
      without dollar last = true ->
      getVars (Data (VString (render pieces last))) = Return (map VString (map snd pieces))) /\
  (forall s, exists names,
      getVars (Data (VString s)) = Return (map VString names) /\
      forall name, In name names ->
        plain_name name = true /\
        includes (String dollar (String open_brace (name +:+ String close_brace EmptyString))) s) /\
  (forall elems, getVars (Data (VArray elems)) = Return elems) /\
  getVars Callback = Return [] /\
  (forall v, (forall s, v <> VString s) -> (forall elems, v <> VArray elems) ->
             exists message, getVars (Data v) = Throw (TypeError message)).
Proof.
  split; [|split; [|split; [|split]]].
  - intros pieces last Hpieces Hlast. cbn [getVars]. by rewrite matches_rendered.
  - intros s. exists (matches (String.length s) s). split; [done|].
    intros name. apply matches_names.
  - done.
  - done.
  - intros v Hs Ha. destruct v; cbn [getVars]; try (by eexists).
    + by destruct (Hs s).
    + by destruct (Ha elems).
Qed.

(** [getVars] on the value template of a key. *)
Example getVars_sample :
  getVars (Data (VString "user#${id}#${email}")) = Return [VString "id"; VString "email"] /\
  getVars (Data (VString "${a${b}}")) = Return [VString "a${b"] /\
  getVars (Data (VString "$${x} ${y")) = Return [VString "x"].
Proof. repeat split; reflexivity. Qed.

End TemplateFacts.

Module GroupingFacts.

Import Dispatch Grouping JsFacts.

Lemma filed_snoc type keyed i key :
  filed type (keyed ++ [(i, key)]) =
  filed type keyed ++ (if String.eqb key type then [i] else []).
Proof.
  induction keyed as [|[j k] keyed IH]; simpl.
  - by destruct (String.eqb key type).
  - destruct (String.eqb k type); simpl; by rewrite IH.
Qed.

Lemma group_of_snoc_same keyed i key :
  group_of key (keyed ++ [(i, key)]) = Some (default [] (group_of key keyed) ++ [i]).
Proof.
  unfold group_of. rewrite filed_snoc, String.eqb_refl.
  destruct (filed key keyed) as [|j l]; [done|]. done.
Qed.

Lemma group_of_snoc_other type keyed i key :
  key <> type -> group_of type (keyed ++ [(i, key)]) = group_of type keyed.
Proof.
  intros Hne. unfold group_of. rewrite filed_snoc.
  destruct (String.eqb_spec key type); [done|]. by rewrite app_nil_r.
Qed.

(** One item more: it joins the list of its type, or starts it. *)
Lemma group_step_filed typeField result keyed i key :
  type_key typeField i = Return key ->
  inherited key = false ->
  (forall type, result !! type = group_of type keyed) ->
  exists result',
    group_step typeField result i = Return result' /\
    forall type, result' !! type = group_of type (keyed ++ [(i, key)]).
Proof.
  intros Hkey Hown Hinv. unfold group_step. rewrite Hkey. simpl.
  destruct (result !! key) as [list|] eqn:Hlist.
  - eexists. split; [done|]. intros type.
    destruct (decide (key = type)) as [<-|Hne].
    + rewrite lookup_insert_eq, group_of_snoc_same, <- Hinv, Hlist. done.
    + rewrite lookup_insert_ne by done. by rewrite group_of_snoc_other.
  - rewrite Hown. eexists. split; [done|]. intros type.
    destruct (decide (key = type)) as [<-|Hne].
    + rewrite lookup_insert_eq, group_of_snoc_same, <- Hinv, Hlist. done.
    + rewrite lookup_insert_ne by done. by rewrite group_of_snoc_other.
Qed.

Lemma group_loop typeField items keys :
  Forall2 (fun i key => type_key typeField i = Return key /\ inherited key = false)
          items keys ->
  forall result keyed,
    (forall type, result !! type = group_of type keyed) ->
    exists result',
      foldM (group_step typeField) items result = Return result' /\
      forall type, result' !! type = group_of type (keyed ++ zip items keys).
Proof.
  induction 1 as [|i key items keys [Hkey Hown] _ IH]; intros result keyed Hinv.
  - exists result. split; [done|]. intros type. simpl. by rewrite app_nil_r.
  - destruct (group_step_filed typeField result keyed i key Hkey Hown Hinv)
      as (result1 & Hstep & Hinv1).
    destruct (IH result1 (keyed ++ [(i, key)]) Hinv1) as (result' & Hloop & Hinv').
    exists result'. simpl. rewrite Hstep. split; [done|].
    intros type. rewrite Hinv'. by rewrite <- app_assoc.
Qed.

(** No list is ever filed under the name of a member of [Object.prototype]. *)
Lemma group_step_own typeField result i result' :
  (forall type, inherited type = true -> result !! type = None) ->
  group_step typeField result i = Return result' ->
  forall type, inherited type = true -> result' !! type = None.
Proof.
  intros Hinv. unfold group_step.
  destruct (type_key typeField i) as [key|e]; simpl; [|done].
  destruct (result !! key) as [list|] eqn:Hlist.
  - intros [= <-] type Htype. destruct (decide (key = type)) as [<-|Hne].
    + rewrite Hinv in Hlist by done. done.
    + rewrite lookup_insert_ne by done. by apply Hinv.
  - destruct (inherited key) eqn:Hkey; [done|].
    intros [= <-] type Htype. destruct (decide (key = type)) as [<-|Hne]; [congruence|].
    rewrite lookup_insert_ne by done. by apply Hinv.
Qed.

Lemma group_loop_inherited typeField items i key :
  In i items ->
  type_key typeField i = Return key ->
  inherited key = true ->
  forall result,
    (forall type, inherited type = true -> result !! type = None) ->
    exists e, foldM (group_step typeField) items result = Throw e.
Proof.
  intros Hin Hkey Hinh. induction items as [|j items IH]; [done|].
  intros result Hinv. simpl.
  destruct (group_step typeField result j) as [result1|e] eqn:Hstep; [|by eexists].
  destruct Hin as [->|Hin].
  - exfalso. unfold group_step in Hstep. rewrite Hkey in Hstep. simpl in Hstep.
    rewrite (Hinv key Hinh), Hinh in Hstep. done.
  - apply (IH Hin). by apply (group_step_own typeField result j).
Qed.

(** [groupByType] files every item under the key of its type ('_unknown'
    for an item without a truthy type), keeping the order of the items within
    each list; a type has a list exactly when some item has it. This holds
    when the types have a string form and no key is the name of a member of
    [Object.prototype]; an item whose key is such a name makes [groupByType]
    raise instead, since [result] is an object literal. *)
Theorem groupByType_files :
  forall typeField items,
    (forall keys,
        Forall2 (fun i key => type_key typeField i = Return key /\ inherited key = false)
                items keys ->
        exists result,
          groupByType typeField items = Return result /\
          forall type, result !! type = group_of type (zip items keys)) /\
    (forall i key,
        In i items -> type_key typeField i = Return key -> inherited key = true ->
        exists e, groupByType typeField items = Throw e).
Proof.
  intros typeField items. split.
  - intros keys Hkeys.
    destruct (group_loop typeField items keys Hkeys ∅ []) as (result & Hloop & Hinv).
    + intros type. by rewrite lookup_empty.
    + by exists result.
  - intros i key Hin Hkey Hinh.
    apply (group_loop_inherited typeField items i key Hin Hkey Hinh).
    intros type _. by rewrite lookup_empty.
Qed.

Lemma groupByType_files_witness :
  let items := [typed_item "User" "ann"; [("name", VString "x")];
                typed_item "Post" "p1"; typed_item "User" "bob"] in
  (exists result,
      groupByType "_type" items = Return result /\
      result !! "User" = Some [typed_item "User" "ann"; typed_item "User" "bob"] /\
      result !! "_unknown" = Some [[("name", VString "x")]] /\
      result !! "Model" = None) /\
  (exists e, groupByType "_type" [typed_item "constructor" "c"] = Throw e).
Proof.
  cbn zeta. split.
  - destruct (groupByType_files "_type"
                [typed_item "User" "ann"; [("name", VString "x")];
                 typed_item "Post" "p1"; typed_item "User" "bob"]) as [Hfiles _].
    destruct (Hfiles ["User"; "_unknown"; "Post"; "User"]) as (result & Hrun & Hresult).
    + repeat constructor.
    + exists result. split; [done|]. rewrite !Hresult. repeat split; reflexivity.
  - destruct (groupByType_files "_type" [typed_item "constructor" "c"]) as [_ Hthrow].
    apply (Hthrow (typed_item "constructor" "c") "constructor"); [by left | done | done].
Defined.

End GroupingFacts.

Module MergeCopyFacts.

Import Merge MergeCopy.

Lemma get_set_eq key v ps : get key (set key v ps) = v.
Proof.
  induction ps as [|[k w] ps IH]; simpl.
  - by rewrite String.eqb_refl.
  - destruct (String.eqb k key) eqn:Hk; simpl; by rewrite Hk.
Qed.

Lemma get_set_ne key key' v ps : key <> key' -> get key' (set key v ps) = get key' ps.
Proof.
  intros Hne. induction ps as [|[k w] ps IH]; simpl.
  - by destruct (String.eqb_spec key key').
  - destruct (String.eqb_spec k key) as [->|Hk]; simpl.
    + by destruct (String.eqb_spec key key').
    + by rewrite IH.
Qed.

(** After the copy, a property holds the value the entries assign to it, or
    what it held. *)
Lemma get_copied key entries :
  forall dest,
    get key (copied dest entries) = default (get key dest) (assigned key entries).
Proof.
  unfold copied. induction entries as [|[k v] entries IH]; intros dest; [done|].
  cbn [foldl assigned]. rewrite IH. cbn [fst snd].
  destruct (assigned key entries) as [w|]; [done|]. cbn [default].
  destruct (String.eqb_spec k key) as [->|Hne].
  - destruct v; try (by rewrite get_set_eq). done.
  - destruct v; try (by rewrite get_set_ne). done.
Qed.

(** The loop of [mergeOne] over entries that hold no object. *)
Lemma for_each_flat self x entries :
  forallb flat_entry entries = true ->
  forall h dest,
    h !! x = Some {| kind_of := Plain; props := dest |} ->
    for_each (merge_entry self (Ref x)) entries h =
    Some (<[x := {| kind_of := Plain; props := copied dest entries |}]> h, Return tt).
Proof.
  induction entries as [|[k v] entries IH]; intros Hflat h dest Hx.
  - simpl. unfold ret. by rewrite list_insert_id.
  - simpl in Hflat. apply andb_true_iff in Hflat as [Hentry Hflat].
    apply andb_true_iff in Hentry as [Hv _]. simpl in Hv.
    assert (x < length h)%nat as Hlen by (by apply lookup_lt_Some in Hx).
    cbn [for_each]. unfold bind at 1.
    destruct v as [| | | | |a]; [..|done];
      unfold merge_entry, select, bind; cbn [kind_at]; unfold write, ret; rewrite ?Hx;
      cbn [kind_of props].
    + apply (IH Hflat h dest Hx).
    + rewrite (IH Hflat _ (set k Null dest)) by (by rewrite list_lookup_insert_eq).
      by rewrite list_insert_insert_eq.
    + rewrite (IH Hflat _ (set k (Boolean b) dest)) by (by rewrite list_lookup_insert_eq).
      by rewrite list_insert_insert_eq.
    + rewrite (IH Hflat _ (set k (Number n) dest)) by (by rewrite list_lookup_insert_eq).
      by rewrite list_insert_insert_eq.
    + rewrite (IH Hflat _ (set k (Text s) dest)) by (by rewrite list_lookup_insert_eq).
      by rewrite list_insert_insert_eq.
Qed.

Lemma mergeOne_unfold fuel recurse dest src :
  mergeOne (S fuel) recurse dest src =
  if (50 <? recurse)%nat then raise (Error "Recursive clone")
  else do snapshot <- entries src;
       for_each (merge_entry (mergeOne fuel (recurse + 1)) dest) snapshot ;;
       ret dest.
Proof. reflexivity. Qed.

(** Merging into a plain object a source whose properties hold no object
    (and none of which is named [__proto__]) changes the destination only, in
    place, and returns it: a property of the destination then holds the last
    value other than [undefined] that the source has for it - [null]
    included - and what it held when the source has none. *)
Theorem merge_flat :
  forall h x s dest kind sprops,
    h !! x = Some {| kind_of := Plain; props := dest |} ->
    h !! s = Some {| kind_of := kind; props := sprops |} ->
    forallb flat_entry sprops = true ->
    exists dest',
      merge (Ref x) [Ref s] h =
        Some (<[x := {| kind_of := Plain; props := dest' |}]> h, Return (Ref x)) /\
      forall key, get key dest' = default (get key dest) (assigned key sprops).
Proof.
  intros h x s dest kind sprops Hx Hs Hflat.
  exists (copied dest sprops). split; [|intros key; apply get_copied].
  cbn [merge]. unfold bind at 1. unfold depth_bound. rewrite mergeOne_unfold.
  cbn [Nat.ltb Nat.leb]. unfold bind at 1. unfold entries at 1. rewrite Hs. cbn [props].
  unfold bind at 1. rewrite (for_each_flat _ x sprops Hflat h dest Hx). done.
Qed.

Lemma merge_flat_witness :
  exists dest',
    merge (Ref 0) [Ref 1] flat_heap =
      Some (<[0%nat := {| kind_of := Plain; props := dest' |}]> flat_heap, Return (Ref 0)) /\
    get "a" dest' = Text "x" /\ get "b" dest' = Number 2 /\ get "c" dest' = Null.
Proof.
  destruct (merge_flat flat_heap 0 1 [("a", Number 1); ("b", Number 2)] Plain
              [("b", Undefined); ("c", Null); ("a", Text "x")])
    as (dest' & Hrun & Hget); try reflexivity.
  exists dest'. split; [done|]. rewrite !Hget. repeat split; reflexivity.
Defined.



(** Merging into [null] an object whose first property is defined. *)
Lemma mergeOne_into_null fuel recurse y h kind first v rest :
  (recurse <= 50)%nat ->
  h !! y = Some {| kind_of := kind; props := (first, v) :: rest |} ->
  primitive v = true -> v <> Undefined ->
  exists message,
    mergeOne (S fuel) recurse Null (Ref y) h = Some (h, Throw (TypeError message)).
Proof.
  intros Hrecurse Hy Hv Hdef. rewrite mergeOne_unfold.
  replace (50 <? recurse)%nat with false by (symmetry; apply Nat.ltb_ge; lia).
  unfold bind at 1. unfold entries. rewrite Hy. cbn [props for_each].
  unfold bind at 1. unfold bind at 1.
  destruct v as [| | | | |a]; [done|..|done];
    unfold merge_entry, select, bind; cbn [kind_at]; unfold write; by eexists.
Qed.

(** Entering a nested plain object [y] where the destination holds [null]. *)
Lemma merge_entry_null self key x y h dest :
  h !! x = Some {| kind_of := Plain; props := dest |} ->
  get key dest = Null ->
  kind_at h (Ref y) = Some Plain ->
  merge_entry self (Ref x) (key, Ref y) h =
  match self Null (Ref y) h with
  | None => None
  | Some (h', Return merged) => write (Ref x) key merged h'
  | Some (h', Throw e) => Some (h', Throw e)
  end.
Proof.
  intros Hx Hnull Hkind.
  assert (read (Ref x) key h = Some (h, Return Null)) as Hread
    by (unfold read; by rewrite Hx, <- Hnull).
  unfold merge_entry, bind, select. rewrite Hkind, Hread.
  unfold typeof_object, ret. by rewrite Hread.
Qed.



End MergeCopyFacts.


Module MarshallRoundTrip.

Import Marshall MarshallFacts.

(** A loop none of whose conversions raises rewrites every property. *)
Lemma rewritten_all (convert : value -> completion (option value))
    (made : value -> option value) (props : list (string * value)) :
  (forall key v, In (key, v) props -> convert v = Return (made v)) ->
  rewritten convert props =
  (map (fun e => (fst e, default (snd e) (made (snd e)))) props, Return tt).
Proof.
  induction props as [|[k v] props IH]; intros Hall; [done|].
  assert (convert v = Return (made v)) as Hv by (apply (Hall k); by left).
  assert (forall key w, In (key, w) props -> convert w = Return (made w)) as Hrest
    by (intros key w Hin; apply (Hall key); by right).
  simpl. by rewrite Hv, (IH Hrest).
Qed.

Lemma map_pair_id {A B : Type} (l : list (A * B)) : map (fun e => (fst e, snd e)) l = l.
Proof. induction l as [|[a b] l IH]; [done|]. simpl. by rewrite IH. Qed.

(** After [unmarshallv2] has returned, no property is a wrapper any more: a
    second call returns too and leaves the store as it is. *)
Theorem unmarshallv2_idempotent :
  forall b h item props h',
    h !! item = Some props ->
    NoDup (map fst props) ->
    unmarshallv2 b h item = (h', Return item) ->
    unmarshallv2 b h' item = (h', Return item).
Proof.
  intros b h item props h' Hitem Hnd Hrun.
  rewrite (unmarshallv2_spec b h item props Hitem Hnd) in Hrun.
  injection Hrun as Hh' Hr.
  apply completes_inv in Hr as [[] Hr].
  set (props1 := (rewritten (unmarshalled b) props).1) in *.
  assert (h' !! item = Some props1) as Hitem' by (rewrite <- Hh'; apply lookup_insert_eq).
  assert (NoDup (map fst props1)) as Hnd1 by (unfold props1; by rewrite rewritten_keys).
  rewrite (unmarshallv2_spec b h' item props1 Hitem' Hnd1).
  assert (forall key v, In (key, v) props1 -> unmarshalled b v = Return None) as Hdone.
  { intros key v Hin.
    pose proof (get_prop_In key v props1 Hnd1 Hin) as Hget.
    assert (In key (map fst props)) as Hkey.
    { unfold props1 in Hin. apply (in_map fst) in Hin. by rewrite rewritten_keys in Hin. }
    apply get_prop_present in Hkey.
    destruct (rewritten_returns (unmarshalled b) props Hr Hnd key _ Hkey) as (o & Ho & Hget').
    fold props1 in Hget'. rewrite Hget in Hget'. destruct o as [w|]; simpl in Hget'.
    - apply unmarshalled_Some in Ho as (elems & members & _ & _ & Hw).
      rewrite Hget', Hw. reflexivity.
    - rewrite Hget'. exact Ho. }
  rewrite (rewritten_all (unmarshalled b) (fun _ => None) props1 Hdone). simpl.
  f_equal. rewrite <- Hh'. rewrite insert_insert_eq. f_equal.
  apply map_pair_id.
Qed.

Lemma unmarshallv2_idempotent_witness :
  unmarshallv2 toy_builtins {[ 7%nat := plain_item ]} 7 = ({[ 7%nat := plain_item ]}, Return 7%nat).
Proof.
  apply (unmarshallv2_idempotent toy_builtins {[ 7%nat := toy_item ]} 7%nat toy_item).
  - reflexivity.
  - compute_done.
  - rewrite (unmarshallv2_spec toy_builtins _ 7%nat toy_item); [|reflexivity|compute_done].
    cbn. by rewrite insert_singleton.
Defined.

(** [unmarshallv2] undoes [marshallv2] on an item none of whose properties
    is a wrapper already, when [createSet] wraps the members of a [Set] in an
    object that passes the test of line 741 with these members as its
    [values] and that is not of type 'Binary': the store is as it was. (The
    members of a [Set] are distinct, which is said of the lists that stand
    for them.) *)
Theorem unmarshallv2_marshallv2 :
  forall b (wrap : list value -> value) h item props,
    h !! item = Some props ->
    NoDup (map fst props) ->
    (forall key elems, In (key, VSet elems) props ->
        createSet b elems = Return (wrap elems) /\
        set_wrapper (wrap elems) = Return (Some elems) /\
        binary_typed (wrap elems) = Return false /\
        foldl set_add [] elems = elems) ->
    (forall key v, In (key, v) props -> set_wrapper v = Return None) ->
    exists h1,
      marshallv2 b h item = (h1, Return item) /\
      unmarshallv2 b h1 item = (h, Return item).
Proof.
  intros b wrap h item props Hitem Hnd Hsets Hplain.
  set (made := fun v => match v with VSet elems => Some (wrap elems) | _ => None end).
  assert (forall key v, In (key, v) props -> marshalled b v = Return (made v)) as Hmade.
  { intros key v Hin. unfold marshalled, made. destruct v; try done. simpl.
    destruct (Hsets key elems Hin) as (-> & _). done. }
  set (props1 := map (fun e => (fst e, default (snd e) (made (snd e)))) props).
  assert (map fst props1 = map fst props) as Hkeys.
  { unfold props1. rewrite map_map. done. }
  set (back := fun v => match set_wrapper v with
                        | Return (Some elems) => Some (VSet elems)
                        | _ => None
                        end).
  assert (forall key v, In (key, v) props1 -> unmarshalled b v = Return (back v)) as Hback.
  { intros key v1 Hin. unfold props1 in Hin. apply in_map_iff in Hin as ([k v] & [= <- <-] & Hin).
    cbn [fst snd]. unfold unmarshalled, back. destruct (made v) as [w|] eqn:Hm.
    - destruct v; try discriminate. injection Hm as <-. cbn [from_option]; unfold id.
      destruct (Hsets k elems Hin) as (_ & Hw & Hb & Hdistinct).
      rewrite Hw. cbn [mbind completion_bind]. unfold members_of. rewrite Hb.
      cbn [mbind completion_bind]. unfold new_Set. by rewrite Hdistinct.
    - cbn [from_option]; unfold id. by rewrite (Hplain k v Hin). }
  exists (<[item := props1]> h). split.
  - rewrite (marshallv2_spec b h item props Hitem Hnd).
    by rewrite (rewritten_all (marshalled b) made props Hmade).
  - rewrite (unmarshallv2_spec b _ item props1);
      [|apply lookup_insert_eq|by rewrite Hkeys].
    rewrite (rewritten_all (unmarshalled b) back props1 Hback). simpl.
    rewrite insert_insert_eq. f_equal.
    rewrite <- (insert_id h item props Hitem) at 2. f_equal.
    unfold props1. rewrite map_map. simpl.
    rewrite <- (map_pair_id props) at 2. apply map_ext_in.
    intros [k v] Hin. cbn [fst snd]. f_equal. unfold back.
    destruct (made v) as [w|] eqn:Hm.
    + destruct v; try discriminate. injection Hm as <-. cbn [from_option]; unfold id.
      destruct (Hsets k elems Hin) as (_ & -> & _). done.
    + cbn [from_option]; unfold id. by rewrite (Hplain k v Hin).
Qed.

Lemma unmarshallv2_marshallv2_witness :
  exists h1,
    marshallv2 toy_builtins {[ 7%nat := set_item ]} 7 = (h1, Return 7%nat) /\
    unmarshallv2 toy_builtins h1 7 = ({[ 7%nat := set_item ]}, Return 7%nat).
Proof.
  apply (unmarshallv2_marshallv2 toy_builtins
           (fun elems => VObject [("wrapperName", VString "Set"); ("values", VArray elems);
                                  ("type", VString "String")])
           {[ 7%nat := set_item ]} 7%nat set_item).
  - reflexivity.
  - compute_done.
  - intros key elems [[= <- <-]|[[= <- <-]|[[= <- <-]|[]]]]. repeat split; reflexivity.
  - intros key v [[= <- <-]|[[= <- <-]|[[= <- <-]|[]]]]; reflexivity.
Defined.

End MarshallRoundTrip.
